(** * The EdgeDB schema lexer and the container predicates

    A shallow embedding of
    - [edgedb/lang/schema/parser/grammar/lexer.py]: the rule tables of
      [EdgeSchemaLexer], its layout synthesizer [token_generator], the
      driver [lex] and [get_eof_tokens];
    - [edb/lang/common/typeutils.py]: [is_container] and its helpers.

    The lexer works on Python strings, compiled regular expressions and
    generators.  Here a string is a [list ascii] (one [ascii] per code
    point, so the alphabet is the Latin-1 range of Unicode), a regular
    expression is a term of [re] run by a backtracking matcher that tries
    alternatives and repetitions in the order Python's [re] does, and a
    generator is a computation in [Gen], which records every token it
    yields together with the lexer object at the moment of the yield. *)

From Stdlib Require Import String Ascii List ZArith NArith Bool Lia.
Import ListNotations.

Local Open Scope Z_scope.

(* ================================================================== *)
(** ** Characters and character classes *)

Module Chars.

Definition code (c : ascii) : N := N_of_ascii c.

Definition between (lo hi : N) (c : ascii) : bool :=
  ((lo <=? code c) && (code c <=? hi))%N.

Definition is_code (n : N) (c : ascii) : bool := (code c =? n)%N.

Definition nl : ascii := ascii_of_N 10.

(** [\n] *)
Definition is_nl : ascii -> bool := is_code 10.

(** [.] without DOTALL, and [[^\n]]: anything but a line feed. *)
Definition not_nl (c : ascii) : bool := negb (is_nl c).

(** [\d]: the decimal digits (category Nd); in Latin-1 these are 0-9. *)
Definition is_digit : ascii -> bool := between 48 57.

(** [\s] and [str.isspace]: TAB LF VT FF CR, FS GS RS US, SPACE, NEL, NBSP. *)
Definition is_space (c : ascii) : bool :=
  between 9 13 c || between 28 32 c || is_code 133 c || is_code 160 c.

(** Alphabetic characters of Latin-1. *)
Definition is_alpha (c : ascii) : bool :=
  between 65 90 c || between 97 122 c
  || is_code 170 c || is_code 181 c || is_code 186 c
  || between 192 214 c || between 216 246 c || between 248 255 c.

(** Characters with a numeric value: 0-9, superscripts 2 3 1, fractions. *)
Definition is_numeric (c : ascii) : bool :=
  is_digit c || is_code 178 c || is_code 179 c || is_code 185 c || between 188 190 c.

(** [\w]: alphanumerics and the underscore. *)
Definition is_word (c : ascii) : bool :=
  is_alpha c || is_numeric c || is_code 95 c.

(** [[^\S\n]]: white space other than the line feed. *)
Definition is_hspace (c : ascii) : bool := is_space c && not_nl c.

(** [[^\W\d]]: a word character that is not a digit. *)
Definition is_word_nondigit (c : ascii) : bool := is_word c && negb (is_digit c).

(** [[0-9_]] *)
Definition is_decdigit_ (c : ascii) : bool := is_digit c || is_code 95 c.

(** [[eE]] *)
Definition is_eE (c : ascii) : bool := is_code 69 c || is_code 101 c.

(** [[\+\-]] *)
Definition is_sign (c : ascii) : bool := is_code 43 c || is_code 45 c.

(** [[eE.0-9]] *)
Definition is_eE_dot_digit (c : ascii) : bool := is_eE c || is_code 46 c || is_digit c.

(** [[1*]] *)
Definition is_one_or_star (c : ascii) : bool := is_code 49 c || is_code 42 c.

(** [[A-Za-z\200-\377_]] *)
Definition is_dquote_head (c : ascii) : bool :=
  between 65 90 c || between 97 122 c || between 128 255 c || is_code 95 c.

End Chars.

(* ================================================================== *)
(** ** The scan position inside the source text *)

(** [before] is [src[:start]] reversed, [after] is [src[start:]]. *)
Record Cursor := MkCursor { before : list ascii; after : list ascii }.

Definition remaining (z : Cursor) : nat := length (after z).

Definition advance (z : Cursor) : Cursor :=
  match after z with
  | c :: s => MkCursor (c :: before z) s
  | [] => z
  end.

Fixpoint advance_n (n : nat) (z : Cursor) : Cursor :=
  match n with
  | O => z
  | S n' => advance_n n' (advance z)
  end.

(** The text between two positions of the same scan: [src[start:start']]. *)
Definition consumed (z z' : Cursor) : list ascii :=
  firstn (remaining z - remaining z') (after z).

Fixpoint is_prefix (p s : list ascii) : bool :=
  match p, s with
  | [], _ => true
  | a :: p', b :: s' => Ascii.eqb a b && is_prefix p' s'
  | _ :: _, [] => false
  end.

(* ================================================================== *)
(** ** Regular expressions with Python's backtracking order *)

Inductive re : Type :=
| Eps                                   (* the empty pattern *)
| Cls (p : ascii -> bool)               (* one character of a class *)
| Seq (a b : re)                        (* a b *)
| Alt (a b : re)                        (* a | b, left first *)
| Star (greedy : bool) (a : re)         (* a* and a*? *)
| Bol                                   (* ^ under re.M *)
| Eol                                   (* $ under re.M *)
| WordB                                 (* \b *)
| Behind (s : list ascii)               (* (?<=s) for a literal s *)
| NotAhead (a : re)                     (* (?!a) *)
| GroupQ (a : re)                       (* (?P<Q>a) *)
| BackrefQ.                             (* (?P=Q) *)

Definition Chr (c : ascii) : re := Cls (Ascii.eqb c).
Definition Plus (greedy : bool) (a : re) : re := Seq a (Star greedy a).
Definition Opt (a : re) : re := Alt a Eps.

Fixpoint Lit (s : list ascii) : re :=
  match s with
  | [] => Eps
  | c :: s' => Seq (Chr c) (Lit s')
  end.

(** The value of group Q, if it took part in the match so far. *)
Definition Env := option (list ascii).

Definition MatchEnd : Type := Cursor * Env.

Definition at_bol (z : Cursor) : bool :=
  match before z with
  | [] => true
  | c :: _ => Chars.is_nl c
  end.

Definition at_eol (z : Cursor) : bool :=
  match after z with
  | [] => true
  | c :: _ => Chars.is_nl c
  end.

Definition word_before (z : Cursor) : bool :=
  match before z with [] => false | c :: _ => Chars.is_word c end.

Definition word_after (z : Cursor) : bool :=
  match after z with [] => false | c :: _ => Chars.is_word c end.

Definition at_word_boundary (z : Cursor) : bool :=
  xorb (word_before z) (word_after z).

Definition first_some {A} (x : option A) (y : option A) : option A :=
  match x with
  | Some _ => x
  | None => y
  end.

(** The repetition of a pattern whose matcher is [step]: at most [n] more
    iterations, each of which has to consume something.  A greedy
    repetition tries another iteration before the continuation, a lazy one
    the continuation first. *)
Fixpoint star_loop
    (step : Cursor -> Env -> (Cursor -> Env -> option MatchEnd) -> option MatchEnd)
    (greedy : bool) (k : Cursor -> Env -> option MatchEnd)
    (n : nat) (z : Cursor) (e : Env) {struct n} : option MatchEnd :=
  let again :=
    match n with
    | O => None
    | S n' =>
        step z e (fun z' e' =>
          if (remaining z' <? remaining z)%nat
          then star_loop step greedy k n' z' e'
          else None)
    end in
  if greedy then first_some again (k z e) else first_some (k z e) again.

(** [rmatch r z e k]: match [r] at [z], then continue with [k]; the first
    way of matching [r] that [k] accepts is the result. *)
Fixpoint rmatch (r : re) (z : Cursor) (e : Env)
    (k : Cursor -> Env -> option MatchEnd) {struct r} : option MatchEnd :=
  match r with
  | Eps => k z e
  | Cls p =>
      match after z with
      | c :: _ => if p c then k (advance z) e else None
      | [] => None
      end
  | Seq a b => rmatch a z e (fun z' e' => rmatch b z' e' k)
  | Alt a b => first_some (rmatch a z e k) (rmatch b z e k)
  | Star greedy a => star_loop (rmatch a) greedy k (remaining z) z e
  | Bol => if at_bol z then k z e else None
  | Eol => if at_eol z then k z e else None
  | WordB => if at_word_boundary z then k z e else None
  | Behind s => if is_prefix (rev s) (before z) then k z e else None
  | NotAhead a =>
      match rmatch a z e (fun z' e' => Some (z', e')) with
      | Some _ => None
      | None => k z e
      end
  | GroupQ a => rmatch a z e (fun z' _ => k z' (Some (consumed z z')))
  | BackrefQ =>
      match e with
      | Some s =>
          if is_prefix s (after z) then k (advance_n (length s) z) e else None
      | None => None
      end
  end.

(** A pattern on its own: the position where its first match ends. *)
Definition match_at (r : re) (z : Cursor) : option Cursor :=
  option_map fst (rmatch r z None (fun z' e' => Some (z', e'))).

(* ================================================================== *)
(** ** Tokens, rules and the lexer object *)

Local Open Scope string_scope.
Local Open Scope list_scope.
Local Open Scope Z_scope.

Definition chars (s : string) : list ascii := list_ascii_of_string s.

Record SourcePoint := MkPoint { line : Z; column : Z }.

(** The [xvalue] built for a token: its value and its [attrs]. *)
Record Token := MkToken {
  value : list ascii;
  type : string;
  text : list ascii;
  start : SourcePoint;
  end_ : SourcePoint;
  tok_filename : string
}.

Definition STATE_KEEP : Z := 0.
Definition STATE_WS_SENSITIVE : Z := 1.
Definition STATE_WS_INSENSITIVE : Z := 2.
Definition STATE_RAW_STRING : Z := 3.

Record Rule := MkRule { token : string; next_state : Z; regexp : re }.

Definition start_state : Z := STATE_WS_SENSITIVE.
Definition NL : string := "NEWLINE".
Definition MULTILINE_TOKENS : list string := ["STRING"; "RAWSTRING"].

Definition mem (s : string) (l : list string) : bool := existsb (String.eqb s) l.

(** The fields of a lexer instance.  [cursor] stands for [inputstr],
    [start] and [end]: the text before [start] and the text from it on;
    [lineno] and [colno] are the line and column of [start]. *)
Record Lexer := MkLexer {
  cursor : Cursor;
  filename : string;
  lineno : Z;
  colno : Z;
  _state : Z;
  _next_state : option Z;
  indent : list Z;
  logical_line_started : bool
}.

Definition set_cursor (z : Cursor) (L : Lexer) : Lexer :=
  MkLexer z (filename L) (lineno L) (colno L) (_state L) (_next_state L)
          (indent L) (logical_line_started L).

Definition set_position (l c : Z) (L : Lexer) : Lexer :=
  MkLexer (cursor L) (filename L) l c (_state L) (_next_state L)
          (indent L) (logical_line_started L).

Definition set_state (s : Z) (L : Lexer) : Lexer :=
  MkLexer (cursor L) (filename L) (lineno L) (colno L) s (_next_state L)
          (indent L) (logical_line_started L).

Definition set_next_state (s : option Z) (L : Lexer) : Lexer :=
  MkLexer (cursor L) (filename L) (lineno L) (colno L) (_state L) s
          (indent L) (logical_line_started L).

Definition set_indent (i : list Z) (L : Lexer) : Lexer :=
  MkLexer (cursor L) (filename L) (lineno L) (colno L) (_state L) (_next_state L)
          i (logical_line_started L).

Definition set_logical_line_started (b : bool) (L : Lexer) : Lexer :=
  MkLexer (cursor L) (filename L) (lineno L) (colno L) (_state L) (_next_state L)
          (indent L) b.

(** [l[-1]] of a Python list, [None] where Python raises IndexError. *)
Fixpoint last_item (l : list Z) : option Z :=
  match l with
  | [] => None
  | [x] => Some x
  | _ :: l' => last_item l'
  end.

(* ================================================================== *)
(** ** Generators over the lexer object *)

Inductive Exn : Type :=
| IndexError
| KeyError
| UnknownTokenError (txt : list ascii) (l c : Z)
| EdgeIndentationError (msg : string) (l c : Z)
| ModelLimit.  (* the run left what the model covers: see [lex_turn] *)

(** One [yield]: the token handed out and the lexer object at that moment. *)
Definition Yield : Type := Token * Lexer.

Record Run (A : Type) := MkRun {
  yields : list Yield;
  outcome : Exn + A;
  lexer_after : Lexer
}.
Arguments MkRun {A}.
Arguments yields {A}.
Arguments outcome {A}.
Arguments lexer_after {A}.

Definition Gen (A : Type) : Type := Lexer -> Run A.

Definition ret {A} (a : A) : Gen A := fun L => MkRun [] (inr a) L.

Definition bind {A B} (m : Gen A) (f : A -> Gen B) : Gen B := fun L =>
  let r := m L in
  match outcome r with
  | inl e => MkRun (yields r) (inl e) (lexer_after r)
  | inr a =>
      let r' := f a (lexer_after r) in
      MkRun (yields r ++ yields r') (outcome r') (lexer_after r')
  end.

Definition get : Gen Lexer := fun L => MkRun [] (inr L) L.
Definition modify (f : Lexer -> Lexer) : Gen unit := fun L => MkRun [] (inr tt) (f L).
Definition yield (t : Token) : Gen unit := fun L => MkRun [(t, L)] (inr tt) L.
Definition raise {A} (e : Exn) : Gen A := fun L => MkRun [] (inl e) L.

Notation "x <- m ;; k" := (bind m (fun x => k))
  (at level 61, m at next level, right associativity).
Notation "m ;; k" := (bind m (fun _ => k))
  (at level 61, right associativity).

Definition tokens_of {A} (r : Run A) : list Token := map fst (yields r).

(** [self.indent[-1]] *)
Definition indent_top : Gen Z :=
  L <- get ;;
  match last_item (indent L) with
  | Some x => ret x
  | None => raise IndexError
  end.

(** [self.indent.append(x)] *)
Definition indent_append (x : Z) : Gen unit :=
  modify (fun L => set_indent (indent L ++ [x]) L).

(** [self.indent.pop()] *)
Definition indent_pop : Gen unit :=
  L <- get ;;
  match indent L with
  | [] => raise IndexError
  | _ => modify (set_indent (removelast (indent L)))
  end.

(* ================================================================== *)
(** ** Position tracking and token construction *)

Fixpoint count_nl (s : list ascii) : Z :=
  match s with
  | [] => 0
  | c :: s' => (if Chars.is_nl c then 1 else 0) + count_nl s'
  end.

(** [txt.rsplit('\n', 1)[1]]: the text after the last line feed. *)
Fixpoint after_last_nl (s : list ascii) : list ascii :=
  match s with
  | [] => []
  | c :: s' =>
      if existsb Chars.is_nl s' then after_last_nl s'
      else if Chars.is_nl c then s' else c :: s'
  end.

(** Modelled from the spec: [token_from_text] of the base class
    [edgedb.lang.common.lexer.Lexer], which is not among the sources.  It
    builds the token of kind [rule_token] with text [txt] from the current
    position, and advances line, column and [start] past the text ("advanced
    by the driver as it consumes text, including embedded newlines inside
    multi-line tokens"): a token of kind [NL] ends a line, a token of
    [MULTILINE_TOKENS] that holds line feeds moves to the column after its
    last one, any other moves the column by its length. *)
Definition token_from_text (rule_token : string) (txt : list ascii) : Gen Token :=
  L <- get ;;
  let start_pos := MkPoint (lineno L) (colno L) in
  let len_txt := Z.of_nat (length txt) in
  (if String.eqb rule_token NL then
     modify (set_position (lineno L + 1) 1)
   else if mem rule_token MULTILINE_TOKENS && existsb Chars.is_nl txt then
     modify (set_position (lineno L + count_nl txt)
                          (Z.of_nat (length (after_last_nl txt)) + 1))
   else
     modify (set_position (lineno L) (colno L + len_txt))) ;;
  modify (fun L => set_cursor (advance_n (length txt) (cursor L)) L) ;;
  L' <- get ;;
  let end_pos := MkPoint (lineno L') (colno L') in
  ret (MkToken txt rule_token txt start_pos end_pos (filename L')).

(** Modelled from the spec: [handle_error] of the base class, not among the
    sources; "fail with a structured lexical error carrying the offending
    text and position". *)
Definition handle_error {A} (txt : list ascii) : Gen A :=
  L <- get ;;
  raise (UnknownTokenError txt (lineno L) (colno L)).

Inductive Pos := pos_start | pos_end.

Definition attr_pos (t : Token) (pos : Pos) : SourcePoint :=
  match pos with
  | pos_start => start t
  | pos_end => end_ t
  end.

Definition insert_token (toktype : string) (t : Token) (pos : Pos) : Gen Token :=
  L <- get ;;
  ret (MkToken [] toktype [] (attr_pos t pos) (attr_pos t pos) (filename L)).

(** [token.attrs['type'] = ty] *)
Definition set_type (ty : string) (t : Token) : Token :=
  MkToken (value t) ty (text t) (start t) (end_ t) (tok_filename t).

(** [token.value.strip()] is empty: every character is white space. *)
Definition is_blank (s : list ascii) : bool := forallb Chars.is_space s.

(* ================================================================== *)
(** ** The rule tables of [EdgeSchemaLexer] *)

Module Pat.
Import Chars.

Definition c (s : string) : re := Lit (chars s).
Definition digit : re := Cls is_digit.
Definition hspace : re := Cls is_hspace.
Definition dot : re := Cls not_nl.

(** [re_decdigit], [re_decdigit_], [re_intpart], [re_exppart], [re_dquote] *)
Definition re_decdigit : re := Cls (between 48 57).
Definition re_decdigit_ : re := Cls is_decdigit_.
Definition re_intpart : re :=
  Seq re_decdigit (Opt (Seq (Star true re_decdigit_) re_decdigit)).
Definition re_exppart : re :=
  Seq (Cls is_eE) (Seq (Opt (Cls is_sign)) re_intpart).
Definition re_dquote : re :=
  Seq (c "$")
      (Seq (Star true (Seq (Cls is_dquote_head) (Star true (Cls (between 48 57)))))
           (c "$")).

(** [\#[^\n]*$] *)
Definition COMMENT : re := Seq (c "#") (Seq (Star true (Cls not_nl)) Eol).
(** [[^\S\n]+] *)
Definition WS : re := Plus true hspace.
(** [\d+(?![eE.0-9])] *)
Definition ICONST : re := Seq (Plus true digit) (NotAhead (Cls is_eE_dot_digit)).
(** [(?: \d+ (?:\.\d* )? | \. \d+ ) {exppart}] *)
Definition FCONST_exp : re :=
  Seq (Alt (Seq (Plus true digit) (Opt (Seq (c ".") (Star true digit))))
           (Seq (c ".") (Plus true digit)))
      re_exppart.
(** [(?: \d+\.(?!\.)\d* | \.\d+)] *)
Definition FCONST : re :=
  Alt (Seq (Plus true digit) (Seq (c ".") (Seq (NotAhead (c ".")) (Star true digit))))
      (Seq (c ".") (Plus true digit)).
(** [(?P<Q> ( ' | {dollar_quote} ) ) (?: .*? ) (?P=Q)] *)
Definition STRING : re :=
  Seq (GroupQ (Alt (c "'") re_dquote)) (Seq (Star false dot) BackrefQ).
(** [(?:[^\W\d]|\$) (?:\w|\$)*] *)
Definition IDENT : re :=
  Seq (Alt (Cls is_word_nondigit) (c "$")) (Star true (Alt (Cls is_word) (c "$"))).

(** [(?<=:=)\s*\n] *)
Definition RAW_NEWLINE : re :=
  Seq (Behind (chars ":=")) (Seq (Star true (Cls is_space)) (Chr nl)).
(** [(?<=:=)[^\n]+?$] *)
Definition RAW_FIRST_LINE : re :=
  Seq (Behind (chars ":=")) (Seq (Plus false (Cls not_nl)) Eol).
(** [^[^\S\n]*\n] *)
Definition RAW_BLANK_LINE : re := Seq Bol (Seq (Star true hspace) (Chr nl)).
(** [^[^\S\n]+] *)
Definition RAWLEADWS : re := Seq Bol (Plus true hspace).
(** [.*?(?:\n|.$)] *)
Definition RAW_REST : re :=
  Seq (Star false dot) (Alt (Chr nl) (Seq dot Eol)).

(** [(?P<err>.)], which the base class appends to every state's rules. *)
Definition err : re := dot.

End Pat.

Section EdgeSchemaLexer.

(** The keyword table [edge_schema_keywords] (module [.keywords]) and
    [lexer.group] are not among the sources: the table is taken as the list
    of its items [(val, tok[0])] in iteration order, and [group] as the
    function from a spelling to the pattern of its rule. *)
Variable edge_schema_keywords : list (string * string).
Variable group : string -> re.

Definition keyword_rules : list Rule :=
  map (fun '(val, tok0) => MkRule tok0 STATE_KEEP (group val)) edge_schema_keywords.

Definition IDENT_rule : Rule := MkRule "IDENT" STATE_KEEP Pat.IDENT.

Definition common_rules : list Rule :=
  keyword_rules ++ [
    MkRule "COMMENT" STATE_KEEP Pat.COMMENT;
    MkRule "WS" STATE_KEEP Pat.WS;
    MkRule "NEWLINE" STATE_KEEP (Chr Chars.nl);
    MkRule "LPAREN" STATE_WS_INSENSITIVE (Pat.c "(");
    MkRule "RPAREN" STATE_WS_SENSITIVE (Pat.c ")");
    MkRule "LSBRACKET" STATE_WS_INSENSITIVE (Pat.c "[");
    MkRule "RSBRACKET" STATE_WS_SENSITIVE (Pat.c "]");
    MkRule "LCBRACKET" STATE_WS_INSENSITIVE (Pat.c "{");
    MkRule "RCBRACKET" STATE_WS_SENSITIVE (Pat.c "}");
    MkRule "COMMA" STATE_KEEP (Pat.c ",");
    MkRule "DOUBLECOLON" STATE_KEEP (Pat.c "::");
    MkRule "TURNSTILE" STATE_RAW_STRING (Pat.c ":=");
    MkRule "COLON" STATE_KEEP (Pat.c ":");
    MkRule "ARROW" STATE_KEEP (Pat.c "->");
    MkRule "MAPPING" STATE_KEEP
           (Seq (Cls Chars.is_one_or_star) (Cls Chars.is_one_or_star));
    MkRule "ICONST" STATE_KEEP Pat.ICONST;
    MkRule "FCONST" STATE_KEEP Pat.FCONST_exp;
    MkRule "FCONST" STATE_KEEP Pat.FCONST;
    MkRule "DOT" STATE_KEEP (Pat.c ".");
    MkRule "STRING" STATE_KEEP Pat.STRING;
    IDENT_rule
  ].

Definition raw_string_rules : list Rule := [
    MkRule "NEWLINE" STATE_KEEP Pat.RAW_NEWLINE;
    MkRule "RAWSTRING" STATE_WS_SENSITIVE Pat.RAW_FIRST_LINE;
    MkRule "RAWSTRING" STATE_KEEP Pat.RAW_BLANK_LINE;
    MkRule "RAWLEADWS" STATE_KEEP Pat.RAWLEADWS;
    MkRule "RAWSTRING" STATE_KEEP Pat.RAW_REST
  ].

(** The dict [states]; [None] where the lookup raises KeyError. *)
Definition states (s : Z) : option (list Rule) :=
  if s =? STATE_WS_SENSITIVE then Some common_rules
  else if s =? STATE_WS_INSENSITIVE then Some common_rules
  else if s =? STATE_RAW_STRING then Some raw_string_rules
  else None.

(** The first rule of the list, in its order, whose pattern matches at the
    cursor, and where its match ends. *)
Fixpoint first_rule (rules : list Rule) (z : Cursor) : option (Rule * Cursor) :=
  match rules with
  | [] => None
  | r :: rs =>
      match match_at (regexp r) z with
      | Some z' => Some (r, z')
      | None => first_rule rs z
      end
  end.

(** Modelled from the spec: [re_states], which the base class builds from
    [states] and which is not among the sources; "a single combined
    matcher built from its ordered rule list", which tries the "rules
    strictly in declaration order (not by pattern length)", with "a
    distinguished synthetic error alternative" that "matches any single
    character not consumed by any real rule":
    [(?P<rule1>...) | (?P<rule2>...) | ... | (?P<err>.)].  This is one match
    of it at the cursor: the first alternative that matches there, [None]
    for the rule standing for group [err], which [match.lastgroup] names
    in [lex]. *)
Definition first_match (rules : list Rule) (z : Cursor) : option (option Rule * Cursor) :=
  match first_rule rules z with
  | Some (r, z') => Some (Some r, z')
  | None => option_map (pair None) (match_at Pat.err z)
  end.

(* ================================================================== *)
(** ** The layout synthesizer *)

Definition get_start_tokens : Gen unit := ret tt.

(** The loop of [get_eof_tokens]; it pops once per turn, so the height of
    the stack bounds its turns. *)
Fixpoint eof_dedents (fuel : nat) : Gen unit :=
  top <- indent_top ;;
  if top >? 0 then
    match fuel with
    | O => raise ModelLimit
    | S fuel' =>
        indent_pop ;;
        (t <- token_from_text "DEDENT" [] ;; yield t) ;;
        eof_dedents fuel'
    end
  else ret tt.

Definition get_eof_tokens : Gen unit :=
  L <- get ;;
  (if logical_line_started L then
     t <- token_from_text "NL" [] ;; yield t
   else ret tt) ;;
  L <- get ;;
  if (Z.of_nat (length (indent L)) >? 1) then eof_dedents (length (indent L))
  else ret tt.

(** The two unindent loops of [token_generator] (code layout with
    [pos = 'start'], raw strings with [pos = 'end']):
<<
    while self.indent[-1] > cur_indent:
        self.indent.pop()
        if self.indent[-1] < cur_indent:
            raise EdgeIndentationError('Incorrect unindent at {position}', ...)
        yield self.insert_token('DEDENT', token, pos)
>>  *)
Fixpoint unindent (fuel : nat) (cur_indent : Z) (t : Token) (pos : Pos) : Gen unit :=
  top <- indent_top ;;
  if top >? cur_indent then
    match fuel with
    | O => raise ModelLimit
    | S fuel' =>
        indent_pop ;;
        top' <- indent_top ;;
        (if top' <? cur_indent then
           raise (EdgeIndentationError "Incorrect unindent at {position}"
                    (line (attr_pos t pos)) (column (attr_pos t pos)))
         else ret tt) ;;
        (d <- insert_token "DEDENT" t pos ;; yield d) ;;
        unindent fuel' cur_indent t pos
    end
  else ret tt.

Definition layout_blind : list string := ["NEWLINE"; "WS"; "COMMENT"].

Definition token_generator (t : Token) : Gen unit :=
  let tok_type := type t in
  L <- get ;;
  t <- (
    (* handle indentation *)
    if (_state L =? STATE_WS_SENSITIVE)
       && negb (logical_line_started L)
       && negb (mem tok_type layout_blind)
    then
      last_indent <- indent_top ;;
      let cur_indent := column (start t) - 1 in
      if cur_indent >? last_indent then
        indent_append cur_indent ;;
        (i <- insert_token "INDENT" t pos_start ;; yield i) ;;
        ret t
      else if cur_indent <? last_indent then
        unindent (length (indent L)) cur_indent t pos_start ;;
        ret t
      else ret t
    (* indentation of raw strings *)
    else if _state L =? STATE_RAW_STRING then
      last_indent <- indent_top ;;
      let cur_indent := Z.of_nat (length (value t)) in
      if negb (logical_line_started L) && negb (String.eqb tok_type "NEWLINE") then
        if String.eqb tok_type "RAWLEADWS" && (cur_indent >? last_indent) then
          indent_append cur_indent ;;
          (i <- insert_token "INDENT" t pos_end ;; yield i) ;;
          ret t
        else if negb (is_blank (value t)) then
          raise (EdgeIndentationError "Incorrect indentation at {position}"
                   (line (end_ t)) (column (end_ t)))
        else ret t
      else if String.eqb tok_type "RAWLEADWS" && (cur_indent <? last_indent) then
        (n <- insert_token "NL" t pos_start ;; yield n) ;;
        unindent (length (indent L)) cur_indent t pos_end ;;
        modify (set_next_state (Some STATE_WS_SENSITIVE)) ;;
        ret (set_type "WS" t)
      else ret t
    else ret t) ;;
  (* handle logical newline *)
  L <- get ;;
  (if logical_line_started L
      && ((_state L =? STATE_WS_SENSITIVE) || (_state L =? STATE_RAW_STRING))
      && String.eqb tok_type "NEWLINE"
   then
     (n <- insert_token "NL" t pos_start ;; yield n) ;;
     modify (set_logical_line_started false)
   else if negb (mem tok_type layout_blind) then
     modify (set_logical_line_started true)
   else ret tt) ;;
  yield t.

(* ================================================================== *)
(** ** The driver *)

(** Modelled from the spec: [setinputstr] and [reset] of the base class, not
    among the sources; "state to WS_SENSITIVE, cursor to 0", positions
    1-based. *)
Definition setinputstr (inputstr : list ascii) (fname : string) : Lexer :=
  MkLexer (MkCursor [] inputstr) fname 1 1 start_state None [] false.

(** The end of a turn of the driver: the rule switches the state, or else
    the synthesizer's pending state does, once.
<<
    if rule.next_state and rule.next_state != self._state:
        self._state = rule.next_state
    elif self._next_state is not None:
        self._state = self._next_state
        self._next_state = None
>>  *)
Definition switch_state (rule : Rule) : Gen unit :=
  L <- get ;;
  if negb (next_state rule =? STATE_KEEP) && negb (next_state rule =? _state L)
  then modify (set_state (next_state rule))
  else
    match _next_state L with
    | Some s => modify (set_state s) ;; modify (set_next_state None)
    | None => ret tt
    end.

(** One turn of the loops of [lex]: the next match of the state's pattern,
    its token, the tokens synthesized around it, the change of state.
    [finditer] hands out the successive matches of the state's pattern and
    [token_from_text] moves [start] past each matched text, so every turn
    matches at [start], in the state the turn before left; [first_match] is
    that match.  [ModelLimit] marks a turn for which no alternative matches
    at [start]; there is none ([first_match_total]). *)
Definition lex_turn : Gen unit :=
  L <- get ;;
  match states (_state L) with
  | None => raise KeyError
  | Some rules =>
      match first_match rules (cursor L) with
      | None => raise ModelLimit
      | Some (None, z') =>
          (* Error group -- no rule has been matched *)
          handle_error (consumed (cursor L) z')
      | Some (Some rule, z') =>
          let txt := consumed (cursor L) z' in
          t <- token_from_text (token rule) txt ;;
          token_generator t ;;
          switch_state rule
      end
  end.

(** [while self.start < self.end]: turns until the end of the text.
    [ModelLimit] marks a run of more than [fuel] turns. *)
Fixpoint lex_loop (fuel : nat) : Gen unit :=
  L <- get ;;
  match after (cursor L) with
  | [] => ret tt
  | _ :: _ =>
      match fuel with
      | O => raise ModelLimit
      | S fuel' => lex_turn ;; lex_loop fuel'
      end
  end.

(** The first statements of [lex]. *)
Definition lex_init : Gen unit :=
  modify (set_indent [0]) ;;
  modify (set_logical_line_started true) ;;
  modify (set_next_state None).

(** The text bounds the number of turns, each of which consumes at least
    one character ([first_match_progress]).  The statement
    [self.prevtok = None] sets an attribute that nothing reads. *)
Definition lex : Gen unit :=
  lex_init ;;
  get_start_tokens ;;
  L <- get ;;
  lex_loop (remaining (cursor L)) ;;
  (* End of file *)
  get_eof_tokens.

End EdgeSchemaLexer.

(* ================================================================== *)
(** ** Notions used to state the properties *)

(** [z'] lies at or after [z] in the same text, [s] being the text between
    the two positions. *)
Definition reaches (z z' : Cursor) (s : list ascii) : Prop :=
  after z = s ++ after z' /\ before z' = rev s ++ before z.

(** A pattern that cannot match the empty text, decided on its shape. *)
Fixpoint consuming (r : re) : bool :=
  match r with
  | Cls _ => true
  | Seq a b => consuming a || consuming b
  | Alt a b => consuming a && consuming b
  | GroupQ a => consuming a
  | _ => false
  end.

(** The final continuation of a match: accept where the pattern ends. *)
Definition accept (z : Cursor) (e : Env) : option MatchEnd := Some (z, e).

(** The indent stack, bottom first. *)
Fixpoint strictly_increasing (l : list Z) : bool :=
  match l with
  | x :: ((y :: _) as l') => (x <? y) && strictly_increasing l'
  | _ => true
  end.

(** The invariant of the indent stack: non-empty, first element 0, strictly
    increasing from bottom to top. *)
Definition indent_inv (l : list Z) : Prop :=
  l <> [] /\ hd_error l = Some 0 /\ strictly_increasing l = true.

(** The recorded levels above, and up to, an indentation. *)
Definition levels_above (cur : Z) (l : list Z) : list Z :=
  filter (fun x => cur <? x) l.
Definition levels_upto (cur : Z) (l : list Z) : list Z :=
  filter (fun x => x <=? cur) l.
Definition recorded (cur : Z) (l : list Z) : bool := existsb (Z.eqb cur) l.

(** The token [insert_token] builds. *)
Definition inserted (toktype : string) (t : Token) (pos : Pos) (L : Lexer) : Token :=
  MkToken [] toktype [] (attr_pos t pos) (attr_pos t pos) (filename L).

(** The error of the two unindent loops. *)
Definition unindent_error (t : Token) (pos : Pos) : Exn :=
  EdgeIndentationError "Incorrect unindent at {position}"
    (line (attr_pos t pos)) (column (attr_pos t pos)).

(** The token [get_eof_tokens] builds at the final position. *)
Definition eof_token (toktype : string) (L : Lexer) : Token :=
  MkToken [] toktype [] (MkPoint (lineno L) (colno L))
          (MkPoint (lineno L) (colno L)) (filename L).

Definition valid_state (s : Z) : Prop :=
  s = STATE_WS_SENSITIVE \/ s = STATE_WS_INSENSITIVE \/ s = STATE_RAW_STRING.

(** What holds of the lexer object all along a pass. *)
Definition lexer_inv (L : Lexer) : Prop :=
  indent_inv (indent L) /\ 1 <= colno L /\ valid_state (_state L) /\
  (_next_state L = None \/ _next_state L = Some STATE_WS_SENSITIVE).

(** A specification of a run: [Y] holds of every yield, [Q] of the outcome
    and of the lexer object the run leaves. *)
Definition holds {A} (Y : Yield -> Prop) (Q : Exn + A -> Lexer -> Prop)
    (r : Run A) : Prop :=
  Forall Y (yields r) /\ Q (outcome r) (lexer_after r).

(** The part of [lex] before the EOF-closing tokens. *)
Definition lex_body (kws : list (string * string)) (group : string -> re) : Gen unit :=
  lex_init ;;
  get_start_tokens ;;
  L <- get ;;
  lex_loop kws group (remaining (cursor L)).

(** The exceptions the lexer raises on purpose. *)
Definition lexical_error (e : Exn) : Prop :=
  match e with
  | UnknownTokenError _ _ _ | EdgeIndentationError _ _ _ => True
  | _ => False
  end.

(** What a generator leaves alone when it only synthesizes layout. *)
Definition same_scan (L L' : Lexer) : Prop :=
  cursor L' = cursor L /\ filename L' = filename L /\
  lineno L' = lineno L /\ colno L' = colno L /\ _state L' = _state L.

(* ================================================================== *)
(** ** A keyword table to run the lexer on *)

Module Sample.

(** Modelled from the spec: [lexer.group] and the keyword table are not
    among the sources.  A keyword rule fires on "a token whose text exactly
    equals a configured keyword spelling": the spelling between two word
    boundaries.  The table holds two words of the scenario of the spec. *)
Definition group (val : string) : re :=
  Seq WordB (Seq (Lit (chars val)) WordB).

Definition edge_schema_keywords : list (string * string) :=
  [("abstract", "ABSTRACT"); ("link", "LINK")].

Definition lex_text (src : string) : Run unit :=
  lex edge_schema_keywords group (setinputstr (chars src) "<string>").

(** The same with no keyword at all. *)
Definition lex_text_no_keywords (src : string) : Run unit :=
  lex [] group (setinputstr (chars src) "<string>").

(** A lexer object in the middle of a pass, and a token at a column. *)
Definition lexer_at (state : Z) (line_started : bool) (stack : list Z) : Lexer :=
  MkLexer (MkCursor [] []) "<string>" 2 9 state None stack line_started.

Definition token_at (kind : string) (txt : string) (l c : Z) : Token :=
  MkToken (chars txt) kind (chars txt) (MkPoint l c)
          (MkPoint l (c + Z.of_nat (String.length txt))) "<string>".

Definition is_kind (kind : string) (t : Token) : bool := String.eqb (type t) kind.

Definition is_kind_with_text (kind txt : string) (t : Token) : bool :=
  String.eqb (type t) kind && String.eqb (string_of_list_ascii (text t)) txt.

(** The tokens hold, in this relative order, one token for each test. *)
Fixpoint in_order (tests : list (Token -> bool)) (ts : list Token) : bool :=
  match ts with
  | [] => match tests with [] => true | _ :: _ => false end
  | t :: ts' =>
      match tests with
      | [] => true
      | p :: tests' => if p t then in_order tests' ts' else in_order tests ts'
      end
  end.

(** Kind and text of the tokens of a run, in order. *)
Definition kinds_and_texts (r : Run unit) : list (string * string) :=
  map (fun t => (type t, string_of_list_ascii (text t))) (tokens_of r).

Definition LF : string := String Chars.nl "".

(** ["abstract link foo:\n    bar := 1\n"] *)
Definition scenario : string :=
  ("abstract link foo:" ++ LF ++ "    bar := 1" ++ LF)%string.

End Sample.

(* ================================================================== *)
(** ** [edb/lang/common/typeutils.py] *)

Module Typeutils.

Section Classes.

(** Python's classes and objects, as far as the predicates look at them:
    [issubclass], the class of an object, and the six classes named. *)
Variable Class : Type.
Variable class_eqb : Class -> Class -> bool.
Variable issubclass : Class -> Class -> bool.
Variables Container Iterable str bytes bytearray memoryview : Class.
Variable Obj : Type.
Variable class_of : Obj -> Class.

(** [issubclass(cls, (c1, c2, ...))] *)
Definition issubclass_any (cls : Class) (l : list Class) : bool :=
  existsb (issubclass cls) l.

(** The store of a [functools.lru_cache]: argument and result of the calls
    it remembers, the most recently used first. *)
Definition Cache : Type := list (Class * bool).

Definition lookup (cls : Class) (c : Cache) : option bool :=
  option_map snd (find (fun kv => class_eqb cls (fst kv)) c).

Definition forget (cls : Class) (c : Cache) : Cache :=
  filter (fun kv => negb (class_eqb cls (fst kv))) c.

(** [@functools.lru_cache(maxsize)] around a function of one class. *)
Definition lru_cache (maxsize : nat) (f : Class -> bool)
    (cls : Class) (c : Cache) : bool * Cache :=
  match lookup cls c with
  | Some v => (v, (cls, v) :: forget cls c)
  | None => let v := f cls in (v, firstn maxsize ((cls, v) :: c))
  end.

(** The two caches of the module. *)
Record Caches := MkCaches { container_cache : Cache; iterable_cache : Cache }.

Definition _is_container_type_body (cls : Class) : bool :=
  issubclass cls Container
  && negb (issubclass_any cls [str; bytes; bytearray; memoryview]).

Definition _is_iterable_type_body (cls : Class) : bool :=
  issubclass cls Iterable.

Definition _is_container_type (cls : Class) (st : Caches) : bool * Caches :=
  let (v, c) := lru_cache 1024 _is_container_type_body cls (container_cache st) in
  (v, MkCaches c (iterable_cache st)).

Definition _is_iterable_type (cls : Class) (st : Caches) : bool * Caches :=
  let (v, c) := lru_cache 1024 _is_iterable_type_body cls (iterable_cache st) in
  (v, MkCaches (container_cache st) c).

(** [_is_container_type(cls) and _is_iterable_type(cls)]: the second call
    is made only when the first returns True. *)
Definition is_container (obj : Obj) (st : Caches) : bool * Caches :=
  let cls := class_of obj in
  let (a, st1) := _is_container_type cls st in
  if a then _is_iterable_type cls st1 else (false, st1).

(** Every remembered result is the result of the function. *)
Definition cache_agrees (f : Class -> bool) (c : Cache) : Prop :=
  forall k v, In (k, v) c -> v = f k.

Definition caches_agree (st : Caches) : Prop :=
  cache_agrees _is_container_type_body (container_cache st) /\
  cache_agrees _is_iterable_type_body (iterable_cache st).

End Classes.

(** A few classes of Python with their subclass relation, to run the
    predicates on. *)
Inductive PyClass : Type :=
| c_object | c_Container | c_Iterable
| c_str | c_bytes | c_bytearray | c_memoryview
| c_list | c_dict | c_int.

Definition pyclass_eqb (a b : PyClass) : bool :=
  match a, b with
  | c_object, c_object | c_Container, c_Container | c_Iterable, c_Iterable
  | c_str, c_str | c_bytes, c_bytes | c_bytearray, c_bytearray
  | c_memoryview, c_memoryview | c_list, c_list | c_dict, c_dict
  | c_int, c_int => true
  | _, _ => false
  end.

Definition py_issubclass (a b : PyClass) : bool :=
  pyclass_eqb a b ||
  match b with
  | c_object => true
  | c_Container | c_Iterable =>
      match a with
      | c_str | c_bytes | c_bytearray | c_memoryview | c_list | c_dict => true
      | _ => false
      end
  | _ => false
  end.

(** Objects: a value tagged with its class. *)
Definition PyObj : Type := PyClass * string.

Definition py_is_container (obj : PyObj) (st : Caches PyClass) : bool * Caches PyClass :=
  is_container PyClass pyclass_eqb py_issubclass
    c_Container c_Iterable c_str c_bytes c_bytearray c_memoryview
    PyObj fst obj st.

Definition no_calls_yet : Caches PyClass := MkCaches PyClass [] [].

End Typeutils.

(** A run after some earlier yields. *)
Definition after_yields {A} (ys : list Yield) (r : Run A) : Run A :=
  MkRun (ys ++ yields r) (outcome r) (lexer_after r).

(** The two halves of [token_generator]: "handle indentation" with
    "indentation of raw strings", which yields the tokens of a change of
    indentation and hands on the token, retagged or not; and "handle
    logical newline", which ends with the token itself. *)
Definition indentation_part (t : Token) : Gen Token :=
  let tok_type := type t in
  L <- get ;;
  if (_state L =? STATE_WS_SENSITIVE)
     && negb (logical_line_started L)
     && negb (mem tok_type layout_blind)
  then
    last_indent <- indent_top ;;
    let cur_indent := column (start t) - 1 in
    if cur_indent >? last_indent then
      indent_append cur_indent ;;
      (i <- insert_token "INDENT" t pos_start ;; yield i) ;;
      ret t
    else if cur_indent <? last_indent then
      unindent (length (indent L)) cur_indent t pos_start ;;
      ret t
    else ret t
  else if _state L =? STATE_RAW_STRING then
    last_indent <- indent_top ;;
    let cur_indent := Z.of_nat (length (value t)) in
    if negb (logical_line_started L) && negb (String.eqb tok_type "NEWLINE") then
      if String.eqb tok_type "RAWLEADWS" && (cur_indent >? last_indent) then
        indent_append cur_indent ;;
        (i <- insert_token "INDENT" t pos_end ;; yield i) ;;
        ret t
      else if negb (is_blank (value t)) then
        raise (EdgeIndentationError "Incorrect indentation at {position}"
                 (line (end_ t)) (column (end_ t)))
      else ret t
    else if String.eqb tok_type "RAWLEADWS" && (cur_indent <? last_indent) then
      (n <- insert_token "NL" t pos_start ;; yield n) ;;
      unindent (length (indent L)) cur_indent t pos_end ;;
      modify (set_next_state (Some STATE_WS_SENSITIVE)) ;;
      ret (set_type "WS" t)
    else ret t
  else ret t.

Definition newline_part (tok_type : string) (t : Token) : Gen unit :=
  L <- get ;;
  (if logical_line_started L
      && ((_state L =? STATE_WS_SENSITIVE) || (_state L =? STATE_RAW_STRING))
      && String.eqb tok_type "NEWLINE"
   then
     (n <- insert_token "NL" t pos_start ;; yield n) ;;
     modify (set_logical_line_started false)
   else if negb (mem tok_type layout_blind) then
     modify (set_logical_line_started true)
   else ret tt) ;;
  yield t.

(** What [token_generator], started on [L], guarantees of each yield and
    of its end. *)
Definition layout_yield (L : Lexer) (y : Yield) : Prop :=
  lexer_inv (snd y) /\ same_scan L (snd y).

Definition layout_post (L : Lexer) {A} (o : Exn + A) (L' : Lexer) : Prop :=
  lexer_inv L' /\ same_scan L L' /\
  match o with inl e => lexical_error e | inr _ => True end.

(** Line and column after a token of kind [rule_token] and text [txt]. *)
Definition next_position (rule_token : string) (txt : list ascii) (L : Lexer) : Z * Z :=
  if String.eqb rule_token NL then (lineno L + 1, 1)
  else if mem rule_token MULTILINE_TOKENS && existsb Chars.is_nl txt then
    (lineno L + count_nl txt, Z.of_nat (length (after_last_nl txt)) + 1)
  else (lineno L, colno L + Z.of_nat (length txt)).

(** The token [token_from_text] builds and the lexer object it leaves. *)
Definition built_token (rule_token : string) (txt : list ascii) (L : Lexer) : Token :=
  let p := next_position rule_token txt L in
  MkToken txt rule_token txt (MkPoint (lineno L) (colno L))
          (MkPoint (fst p) (snd p)) (filename L).

Definition moved (rule_token : string) (txt : list ascii) (L : Lexer) : Lexer :=
  let p := next_position rule_token txt L in
  set_cursor (advance_n (length txt) (cursor L)) (set_position (fst p) (snd p) L).

(** The kinds of the layout tokens the lexer synthesizes. *)
Definition synthesized_kinds : list string := ["INDENT"; "DEDENT"; "NL"].

(** The next states a rule may name. *)
Definition next_state_ok (r : Rule) : Prop :=
  next_state r = STATE_KEEP \/ valid_state (next_state r).

(** The lexer object after the first statements of [lex]. *)
Definition initialized (L : Lexer) : Lexer :=
  set_next_state None (set_logical_line_started true (set_indent [0] L)).

(** No keyword pattern matches the empty text. *)
Definition keywords_consume (kws : list (string * string)) (group : string -> re) : Prop :=
  forall val tok z z',
    In (val, tok) kws ->
    match_at (group val) z = Some z' -> (remaining z' < remaining z)%nat.

(** What the driver guarantees of each yield of its loop: the invariant,
    and a token of one of the rules while the state is WS_INSENSITIVE. *)
Definition turn_yield (kws : list (string * string)) (group : string -> re)
    (y : Yield) : Prop :=
  lexer_inv (snd y) /\
  (_state (snd y) = STATE_WS_INSENSITIVE ->
   exists rule, In rule (common_rules kws group) /\ type (fst y) = token rule).

(** A token made of the text of a match, under the kind of its rule or,
    retagged by the synthesizer, under WS. *)
Definition raw_token (kws : list (string * string)) (group : string -> re)
    (t : Token) : Prop :=
  exists s rules rule z z',
    states kws group s = Some rules /\
    first_match rules z = Some (Some rule, z') /\
    text t = consumed z z' /\ value t = text t /\
    (type t = token rule \/ type t = "WS").

(** A run that ends normally has yielded, last, a token with [P]. *)
Definition ends_with {A} (P : Token -> Prop) (r : Run A) : Prop :=
  forall a, outcome r = inr a -> exists ts t, tokens_of r = ts ++ [t] /\ P t.

(* ================================================================== *)
(** ** Further notions: what a pass yields as a whole *)

(** The texts of the tokens of a run, one after the other. *)
Definition texts_of {A} (r : Run A) : list ascii :=
  concat (map text (tokens_of r)).

(** How many tokens of a kind there are among some tokens. *)
Definition count_kind (kind : string) (ts : list Token) : nat :=
  length (filter (fun t => String.eqb (type t) kind) ts).

(** What a token adds to the nesting of blocks: an INDENT opens one, a
    DEDENT closes one. *)
Definition level_change (t : Token) : Z :=
  if String.eqb (type t) "INDENT" then 1
  else if String.eqb (type t) "DEDENT" then -1
  else 0.

Fixpoint nesting (ts : list Token) : Z :=
  match ts with
  | [] => 0
  | t :: ts' => level_change t + nesting ts'
  end.

(** The height of the indent stack. *)
Definition height (L : Lexer) : Z := Z.of_nat (length (indent L)).

(** Yields that keep the stack as high as the blocks are nested: from the
    height [d], each yield shows a stack of the height the tokens up to and
    with its own make. *)
Fixpoint tracked (d : Z) (ys : list Yield) : Prop :=
  match ys with
  | [] => True
  | y :: ys' =>
      d + level_change (fst y) = height (snd y) /\
      tracked (d + level_change (fst y)) ys'
  end.

(** A run that keeps them so, and up to where it ends, if normally. *)
Definition tracks {A} (d : Z) (r : Run A) : Prop :=
  tracked d (yields r) /\
  forall a, outcome r = inr a -> d + nesting (tokens_of r) = height (lexer_after r).

(** INDENT and DEDENT are kinds of no keyword. *)
Definition no_layout_keyword (kws : list (string * string)) : Prop :=
  forall val tok, In (val, tok) kws -> tok <> "INDENT" /\ tok <> "DEDENT".

(** A yield of a token made by [insert_token] or for the end of the text:
    it has no text. *)
Definition synthetic (y : Yield) : Prop := text (fst y) = [].

(** An outcome the layout code can have: it never reports an unknown token. *)
Definition from_layout {A} (o : Exn + A) : Prop :=
  match o with
  | inl (UnknownTokenError _ _ _) => False
  | _ => True
  end.

(** What the indentation part of [token_generator] hands on to the newline
    part: the cursor where it was, and the token, retagged WS at most. *)
Definition hands_on (t : Token) (L : Lexer) (o : Exn + Token) (L' : Lexer) : Prop :=
  cursor L' = cursor L /\ from_layout o /\
  match o with
  | inr t' => t' = t \/ t' = set_type "WS" t
  | inl _ => True
  end.

(** What is left of the text after the texts of the tokens of a run; an
    unknown token is reported with the first character left, which is not a
    line feed. *)
Definition leaves {A} (L : Lexer) (r : Run A) (rest : list ascii) : Prop :=
  after (cursor L) = texts_of r ++ rest /\
  forall txt l c,
    outcome r = inl (UnknownTokenError txt l c) ->
    exists ch rest', rest = ch :: rest' /\ txt = [ch] /\ Chars.is_nl ch = false.

(** A yield with no state pending, or else the one yield with a state
    pending: in state RAW_STRING, of a token retagged WS, with WS_SENSITIVE
    pending. *)
Definition pending_free (y : Yield) : Prop :=
  _next_state (snd y) = None \/
  (_next_state (snd y) = Some STATE_WS_SENSITIVE /\
   _state (snd y) = STATE_RAW_STRING /\ type (fst y) = "WS").

(** The state and the pending state are those of [L]. *)
Definition same_states (L L' : Lexer) : Prop :=
  _state L' = _state L /\ _next_state L' = _next_state L.

(** The characters: the code points 0 to 255. *)
Definition all_ascii : list ascii := map ascii_of_nat (seq 0 256).

(** A pattern all of whose character classes lie within [ok], decided on
    its shape: what it matches is made of characters of [ok] (a
    back-reference repeats what the group matched). *)
Fixpoint within (ok : ascii -> bool) (r : re) : bool :=
  match r with
  | Cls p => forallb (fun c => implb (p c) (ok c)) all_ascii
  | Seq a b => within ok a && within ok b
  | Alt a b => within ok a && within ok b
  | Star _ a => within ok a
  | GroupQ a => within ok a
  | _ => true
  end.

Definition env_within (ok : ascii -> bool) (e : Env) : Prop :=
  match e with
  | Some s => forallb ok s = true
  | None => True
  end.

(** No keyword pattern matches across a line feed. *)
Definition keywords_on_a_line (kws : list (string * string)) (group : string -> re) : Prop :=
  forall val tok, In (val, tok) kws -> within Chars.not_nl (group val) = true.

(* ================================================================== *)
(** ** What the synthesizer puts before a token *)

(** The tokens [token_generator] can yield before the token it was given:
    nothing, an NL, an INDENT, some DEDENT tokens, or an NL and some DEDENT
    tokens. *)
Definition layout_before (t : Token) (L : Lexer) (pre : list Token) : Prop :=
  pre = [] \/
  pre = [inserted "NL" t pos_start L] \/
  (exists pos, pre = [inserted "INDENT" t pos L]) \/
  (exists n, pre = repeat (inserted "DEDENT" t pos_start L) n) \/
  (exists n, pre = inserted "NL" t pos_start L
                   :: repeat (inserted "DEDENT" t pos_end L) n).

(* ================================================================== *)
(** ** [edb/lang/common/typeutils.py]: [is_container_type] *)

Module TypeutilsTypes.
Import Typeutils.

Section Classes.

Variable Class : Type.
Variable class_eqb : Class -> Class -> bool.
Variable issubclass : Class -> Class -> bool.
Variables Container str bytes bytearray memoryview : Class.

(** The argument of [is_container_type] is any object; [as_class] tells
    whether it is a class, which is what [isinstance(type_, type)] asks,
    and which class it is. *)
Variable Obj : Type.
Variable as_class : Obj -> option Class.

(** [isinstance(type_, type) and _is_container_type(type_)]: the cached
    function is called only on a class. *)
Definition is_container_type (type_ : Obj) (st : Caches Class) : bool * Caches Class :=
  match as_class type_ with
  | Some cls =>
      _is_container_type Class class_eqb issubclass Container
                         str bytes bytearray memoryview cls st
  | None => (false, st)
  end.

End Classes.

(** Values to run it on: the instances of the sample classes, and the
    classes themselves. *)
Inductive PyValue : Type :=
| py_instance (obj : PyObj)
| py_class (cls : PyClass).

Definition py_as_class (v : PyValue) : option PyClass :=
  match v with
  | py_class cls => Some cls
  | py_instance _ => None
  end.

Definition py_is_container_type (v : PyValue) (st : Caches PyClass) : bool * Caches PyClass :=
  is_container_type PyClass pyclass_eqb py_issubclass
    c_Container c_str c_bytes c_bytearray c_memoryview
    PyValue py_as_class v st.

End TypeutilsTypes.

(* ================================================================== *)
(** * Properties of the matcher *)

Section Matcher.

Lemma reaches_refl z : reaches z z [].
Proof. split; reflexivity. Qed.

Lemma reaches_trans z1 z2 z3 s t :
  reaches z1 z2 s -> reaches z2 z3 t -> reaches z1 z3 (s ++ t).
Proof.
  intros [A1 B1] [A2 B2]. split.
  - rewrite A1, A2. now rewrite app_assoc.
  - rewrite B2, B1, rev_app_distr. now rewrite app_assoc.
Qed.

Lemma reaches_remaining z z' s :
  reaches z z' s -> remaining z = (length s + remaining z')%nat.
Proof. intros [A _]. unfold remaining. rewrite A. apply length_app. Qed.

Lemma reaches_advance z c s :
  after z = c :: s -> reaches z (advance z) [c].
Proof. intros E. unfold advance, reaches. rewrite E. cbn. auto. Qed.

Lemma cursor_eq z z' :
  before z = before z' -> after z = after z' -> z = z'.
Proof. destruct z, z'; cbn; intros; subst; reflexivity. Qed.

Lemma reaches_advance_n z z' s :
  reaches z z' s -> advance_n (length s) z = z'.
Proof.
  revert z. induction s as [|c s IH]; intros z [A B]; cbn in *.
  - now apply cursor_eq.
  - apply IH. unfold advance. rewrite A. split; cbn; [reflexivity|].
    rewrite B. now rewrite <- app_assoc.
Qed.

Lemma reaches_consumed z z' s : reaches z z' s -> consumed z z' = s.
Proof.
  intros R. unfold consumed. rewrite (reaches_remaining _ _ _ R).
  destruct R as [A _]. rewrite A.
  replace (length s + remaining z' - remaining z')%nat with (length s + 0)%nat by lia.
  rewrite firstn_app_2. cbn. apply app_nil_r.
Qed.

Lemma is_prefix_app p s : is_prefix p s = true -> exists t, s = p ++ t.
Proof.
  revert s. induction p as [|a p IH]; intros s H; cbn in *.
  - now exists s.
  - destruct s as [|b s]; [discriminate|].
    apply andb_prop in H as [E H]. apply Ascii.eqb_eq in E. subst b.
    destruct (IH _ H) as [t ->]. now exists t.
Qed.

Lemma reaches_prefix z s t :
  after z = s ++ t -> reaches z (advance_n (length s) z) s.
Proof.
  revert z. induction s as [|c s IH]; intros z E; cbn in *.
  - apply reaches_refl.
  - change (c :: s) with ([c] ++ s).
    apply reaches_trans with (advance z).
    + now apply reaches_advance with (s := s ++ t).
    + apply IH. unfold advance. rewrite E. reflexivity.
Qed.

(** Soundness of the matcher: a successful match hands the continuation a
    position at or after the start, of the same text; the position is
    strictly after the start when the pattern is [consuming]. *)
Lemma rmatch_reaches r :
  forall z e k res,
    rmatch r z e k = Some res ->
    exists z' e' s,
      reaches z z' s /\ k z' e' = Some res /\
      (consuming r = true -> s <> []).
Proof.
  assert (stay : forall r z e (k : Cursor -> Env -> option MatchEnd) res,
            consuming r = false -> k z e = Some res ->
            exists z' e' s, reaches z z' s /\ k z' e' = Some res /\
                            (consuming r = true -> s <> [])).
  { intros r0 z e k res C K. exists z, e, [].
    split; [apply reaches_refl|split; [exact K|]]. rewrite C. discriminate. }
  induction r as [|p|a IHa b IHb|a IHa b IHb|g a IHa| | | |s|a IHa|a IHa|];
    intros z e k res H; cbn in H.
  - (apply (stay _ z e); [reflexivity|assumption]).
  - destruct (after z) as [|c s] eqn:E; [discriminate|].
    destruct (p c); [|discriminate].
    exists (advance z), e, [c].
    split; [now apply reaches_advance with (s := s)|].
    split; [exact H|discriminate].
  - apply IHa in H as (z1 & e1 & s1 & R1 & H & C1).
    apply IHb in H as (z2 & e2 & s2 & R2 & H & C2).
    exists z2, e2, (s1 ++ s2).
    split; [eauto using reaches_trans|]. split; [exact H|].
    cbn. intros C N. apply app_eq_nil in N as [N1 N2].
    apply orb_prop in C as [C|C]; [now apply C1|now apply C2].
  - unfold first_some in H.
    destruct (rmatch a z e k) eqn:E.
    + apply IHa in E as (z1 & e1 & s1 & R1 & E & C1). rewrite H in E.
      exists z1, e1, s1. split; [exact R1|]. split; [exact E|].
      cbn. intros C. apply andb_prop in C as [C _]. auto.
    + apply IHb in H as (z1 & e1 & s1 & R1 & H & C1).
      exists z1, e1, s1. split; [exact R1|]. split; [exact H|].
      cbn. intros C. apply andb_prop in C as [_ C]. auto.
  - revert H. generalize (remaining z) as n. intros n. revert z e.
    induction n as [|n IHn]; intros z e H.
    + apply (stay _ z e); [reflexivity|].
      destruct g; cbn in H; [exact H|].
      unfold first_some in H. destruct (k z e); [exact H|discriminate].
    + cbn [star_loop] in H.
      match type of H with
      | (if g then first_some ?again _ else _) = _ =>
          assert (K : k z e = Some res \/ again = Some res)
      end.
      { destruct g; unfold first_some in H.
        - match type of H with
          | match ?x with _ => _ end = _ => destruct x eqn:X
          end; auto.
        - destruct (k z e); auto. }
      destruct K as [K|K]; [apply (stay _ z e); [reflexivity|assumption]|].
      apply IHa in K as (z1 & e1 & s1 & R1 & K & _).
      destruct (remaining z1 <? remaining z)%nat; [|discriminate].
      apply IHn in K as (z2 & e2 & s2 & R2 & K & _).
      exists z2, e2, (s1 ++ s2).
      split; [eauto using reaches_trans|]. split; [exact K|discriminate].
  - destruct (at_bol z); [|discriminate]. (apply (stay _ z e); [reflexivity|assumption]).
  - destruct (at_eol z); [|discriminate]. (apply (stay _ z e); [reflexivity|assumption]).
  - destruct (at_word_boundary z); [|discriminate]. (apply (stay _ z e); [reflexivity|assumption]).
  - destruct (is_prefix (rev s) (before z)); [|discriminate]. (apply (stay _ z e); [reflexivity|assumption]).
  - destruct (rmatch a z e _); [discriminate|]. (apply (stay _ z e); [reflexivity|assumption]).
  - apply IHa in H as (z1 & e1 & s1 & R1 & H & C1).
    exists z1, (Some (consumed z z1)), s1. auto.
  - destruct e as [s|]; [|discriminate].
    destruct (is_prefix s (after z)) eqn:P; [|discriminate].
    apply is_prefix_app in P as [t P].
    exists (advance_n (length s) z), (Some s), s.
    split; [now apply reaches_prefix with (t := t)|].
    split; [exact H|discriminate].
Qed.

(** A match of a pattern on its own ends at or after its start. *)
Lemma match_at_reaches r z z' :
  match_at r z = Some z' -> exists s, reaches z z' s /\ (consuming r = true -> s <> []).
Proof.
  unfold match_at. intros H.
  destruct (rmatch r z None _) as [[z1 e1]|] eqn:E; [|discriminate].
  cbn in H. injection H as <-.
  apply rmatch_reaches in E as (z2 & e2 & s & R & E & C).
  injection E as <- <-. now exists s.
Qed.

(** A consuming pattern moves the cursor forward. *)
Lemma match_at_progress r z z' :
  consuming r = true -> match_at r z = Some z' ->
  (remaining z' < remaining z)%nat.
Proof.
  intros C H. apply match_at_reaches in H as (s & R & N).
  rewrite (reaches_remaining _ _ _ R).
  specialize (N C). destruct s; [congruence|cbn; lia].
Qed.

End Matcher.

(* ================================================================== *)
(** * Properties of the indent stack *)

Section IndentStack.

Lemma last_item_snoc l x : last_item (l ++ [x]) = Some x.
Proof.
  induction l as [|a l IH]; [reflexivity|].
  cbn. destruct (l ++ [x]) eqn:E; [|exact IH].
  now destruct l.
Qed.

Lemma last_item_none l : last_item l = None -> l = [].
Proof.
  destruct l as [|a l] using rev_ind; [reflexivity|].
  now rewrite last_item_snoc.
Qed.

Lemma strictly_increasing_snoc l x :
  strictly_increasing (l ++ [x]) =
  strictly_increasing l &&
  match last_item l with Some y => y <? x | None => true end.
Proof.
  induction l as [|a l IH]; [reflexivity|].
  destruct l as [|b l]; [cbn; now rewrite andb_true_r|].
  change (strictly_increasing ((a :: b :: l) ++ [x]))
    with ((a <? b) && strictly_increasing ((b :: l) ++ [x])).
  rewrite IH. cbn [strictly_increasing last_item].
  now rewrite andb_assoc.
Qed.

Lemma strictly_increasing_above a l :
  strictly_increasing (a :: l) = true -> forall y, In y l -> a < y.
Proof.
  revert a. induction l as [|b l IH]; intros a S y I; [destruct I|].
  cbn in S. apply andb_prop in S as [A S].
  destruct I as [<-|I]; [lia|]. specialize (IH b S y I). lia.
Qed.

Lemma indent_inv_base : indent_inv [0].
Proof. repeat split. discriminate. Qed.

Lemma indent_inv_top l : indent_inv l -> exists l' x, l = l' ++ [x] /\ 0 <= x.
Proof.
  intros (N & H & S).
  destruct (exists_last N) as (l' & x & E).
  exists l', x. split; [exact E|].
  destruct l as [|a l]; [congruence|]. cbn in H. injection H as ->.
  assert (I : In x (0 :: l)) by (rewrite E; apply in_or_app; right; now left).
  destruct I as [<-|I]; [lia|].
  pose proof (strictly_increasing_above 0 l S x I). lia.
Qed.

(** Pushing a level above the top keeps the invariant. *)
Lemma indent_inv_push l top x :
  indent_inv l -> last_item l = Some top -> top < x -> indent_inv (l ++ [x]).
Proof.
  intros (N & H & S) T Lt. repeat split.
  - now destruct l.
  - destruct l; [congruence|exact H].
  - rewrite strictly_increasing_snoc, S, T. cbn. lia.
Qed.

(** Popping a top other than 0 keeps the invariant. *)
Lemma indent_inv_pop l x :
  indent_inv (l ++ [x]) -> 0 < x -> indent_inv l.
Proof.
  intros (N & H & S) Lt.
  rewrite strictly_increasing_snoc in S. apply andb_prop in S as [S _].
  destruct l as [|a l].
  - cbn in H. injection H as ->. lia.
  - repeat split; [discriminate|exact H|exact S].
Qed.

Lemma strictly_increasing_bound l x :
  strictly_increasing (l ++ [x]) = true -> forall y, In y l -> y < x.
Proof.
  revert x. induction l as [|a l IH] using rev_ind; intros x S y I; [destruct I|].
  rewrite strictly_increasing_snoc, last_item_snoc in S.
  apply andb_prop in S as [S Lt].
  apply in_app_or in I as [I|[<-|[]]]; [|lia].
  specialize (IH a S y I). lia.
Qed.

Lemma levels_above_snoc cur l x :
  levels_above cur (l ++ [x]) =
  levels_above cur l ++ (if cur <? x then [x] else []).
Proof. unfold levels_above. now rewrite filter_app. Qed.

Lemma levels_upto_snoc cur l x :
  levels_upto cur (l ++ [x]) =
  levels_upto cur l ++ (if x <=? cur then [x] else []).
Proof. unfold levels_upto. now rewrite filter_app. Qed.

Lemma recorded_snoc cur l x :
  recorded cur (l ++ [x]) = recorded cur l || (cur =? x).
Proof. unfold recorded. rewrite existsb_app. cbn. now rewrite orb_false_r. Qed.

(** Below the top of a well-formed stack nothing is above the top. *)
Lemma levels_upto_all l x cur :
  strictly_increasing (l ++ [x]) = true -> x <= cur ->
  levels_upto cur (l ++ [x]) = l ++ [x] /\ levels_above cur (l ++ [x]) = [].
Proof.
  intros S Le.
  pose proof (strictly_increasing_bound _ _ S) as B.
  assert (A : forall y, In y (l ++ [x]) -> y <= cur).
  { intros y I. apply in_app_or in I as [I|[<-|[]]]; [specialize (B y I)|]; lia. }
  clear B S. revert A. generalize (l ++ [x]) as m. intros m.
  unfold levels_upto, levels_above.
  induction m as [|a m IH]; intros A; [auto|].
  assert (a <= cur) by (apply A; now left).
  destruct IH as [IH1 IH2]; [intros y I; apply A; now right|].
  cbn. rewrite IH1, IH2.
  destruct (Z.leb_spec a cur); [|lia]. destruct (Z.ltb_spec cur a); [lia|]. auto.
Qed.

End IndentStack.

(* ================================================================== *)
(** * Running generators *)

Lemma run_eta {A} (r : Run A) : MkRun (yields r) (outcome r) (lexer_after r) = r.
Proof. now destruct r. Qed.

Lemma after_no_yields {A} (r : Run A) : after_yields [] r = r.
Proof. now destruct r. Qed.

Section Running.

Context {A B : Type}.

Lemma bind_ret (a : A) (f : A -> Gen B) L : (x <- ret a ;; f x) L = f a L.
Proof. unfold bind. cbn. apply run_eta. Qed.

Lemma bind_get (f : Lexer -> Gen B) L : (x <- get ;; f x) L = f L L.
Proof. unfold bind. cbn. apply run_eta. Qed.

Lemma bind_modify (g : Lexer -> Lexer) (f : unit -> Gen B) L :
  (x <- modify g ;; f x) L = f tt (g L).
Proof. unfold bind. cbn. apply run_eta. Qed.

Lemma bind_raise (e : Exn) (f : A -> Gen B) L :
  (x <- raise e ;; f x) L = raise e L.
Proof. reflexivity. Qed.

Lemma bind_yield (t : Token) (f : unit -> Gen B) L :
  (x <- yield t ;; f x) L = after_yields [(t, L)] (f tt L).
Proof. reflexivity. Qed.

Lemma bind_inr (m : Gen A) (f : A -> Gen B) L a :
  outcome (m L) = inr a ->
  (x <- m ;; f x) L = after_yields (yields (m L)) (f a (lexer_after (m L))).
Proof. intros H. unfold bind. now rewrite H. Qed.

Lemma bind_inl (m : Gen A) (f : A -> Gen B) L e :
  outcome (m L) = inl e ->
  (x <- m ;; f x) L = MkRun (yields (m L)) (inl e) (lexer_after (m L)).
Proof. intros H. unfold bind. now rewrite H. Qed.

End Running.

Lemma bind_assoc {A B C} (m : Gen A) (f : A -> Gen B) (g : B -> Gen C) L :
  (y <- (x <- m ;; f x) ;; g y) L = (x <- m ;; y <- f x ;; g y) L.
Proof.
  unfold bind. destruct (m L) as [ys [e|a] L1]; cbn; [reflexivity|].
  destruct (f a L1) as [ys2 [e|b] L2]; cbn; [reflexivity|].
  now rewrite app_assoc.
Qed.

Lemma after_yields_app {A} ys1 ys2 (r : Run A) :
  after_yields ys1 (after_yields ys2 r) = after_yields (ys1 ++ ys2) r.
Proof. unfold after_yields. cbn. now rewrite app_assoc. Qed.

Lemma bind_insert_token {B} ty t pos (f : Token -> Gen B) L :
  (x <- insert_token ty t pos ;; f x) L = f (inserted ty t pos L) L.
Proof. unfold insert_token. now rewrite bind_assoc, bind_get, bind_ret. Qed.

(** Symbolic execution of the head of a generator. *)
Ltac run1 :=
  first
    [ rewrite bind_assoc
    | rewrite bind_ret
    | rewrite bind_get
    | rewrite bind_modify
    | rewrite bind_raise
    | rewrite bind_yield
    | rewrite bind_insert_token ].
Ltac run := repeat run1.

Section StackOperations.

Lemma indent_top_run L l x :
  indent L = l ++ [x] -> indent_top L = ret x L.
Proof.
  intros E. unfold indent_top. rewrite bind_get, E, last_item_snoc. reflexivity.
Qed.

Lemma indent_pop_run L l x :
  indent L = l ++ [x] -> indent_pop L = modify (set_indent l) L.
Proof.
  intros E. unfold indent_pop. rewrite bind_get, E.
  rewrite removelast_last. now destruct l.
Qed.

Lemma bind_indent_top {B} (f : Z -> Gen B) L l x :
  indent L = l ++ [x] -> (top <- indent_top ;; f top) L = f x L.
Proof.
  intros E. rewrite bind_inr with (a := x);
    rewrite (indent_top_run L l x E); [|reflexivity].
  apply after_no_yields.
Qed.

Lemma bind_indent_pop {B} (f : unit -> Gen B) L l x :
  indent L = l ++ [x] -> (u <- indent_pop ;; f u) L = f tt (set_indent l L).
Proof.
  intros E. rewrite bind_inr with (a := tt);
    rewrite (indent_pop_run L l x E); [|reflexivity].
  apply after_no_yields.
Qed.

End StackOperations.

(** The three components of the runs of the primitives. *)
Section Components.

Context {A : Type}.

Lemma yields_after ys (r : Run A) : yields (after_yields ys r) = ys ++ yields r.
Proof. reflexivity. Qed.
Lemma outcome_after ys (r : Run A) : outcome (after_yields ys r) = outcome r.
Proof. reflexivity. Qed.
Lemma lexer_after_after ys (r : Run A) :
  lexer_after (after_yields ys r) = lexer_after r.
Proof. reflexivity. Qed.
Lemma tokens_after ys (r : Run A) :
  tokens_of (after_yields ys r) = map fst ys ++ tokens_of r.
Proof. unfold tokens_of. cbn. apply map_app. Qed.

Lemma tokens_fold (r : Run A) : map fst (yields r) = tokens_of r.
Proof. reflexivity. Qed.

Lemma yields_mk ys o L : yields (@MkRun A ys o L) = ys.
Proof. reflexivity. Qed.
Lemma outcome_mk ys o L : outcome (@MkRun A ys o L) = o.
Proof. reflexivity. Qed.
Lemma lexer_after_mk ys o L : lexer_after (@MkRun A ys o L) = L.
Proof. reflexivity. Qed.
Lemma tokens_mk ys o L : tokens_of (@MkRun A ys o L) = map fst ys.
Proof. reflexivity. Qed.

Lemma yields_ret (a : A) L : yields (ret a L) = [].
Proof. reflexivity. Qed.
Lemma outcome_ret (a : A) L : outcome (ret a L) = inr a.
Proof. reflexivity. Qed.
Lemma lexer_after_ret (a : A) L : lexer_after (ret a L) = L.
Proof. reflexivity. Qed.
Lemma tokens_ret (a : A) L : tokens_of (ret a L) = [].
Proof. reflexivity. Qed.

Lemma yields_raise e L : yields (@raise A e L) = [].
Proof. reflexivity. Qed.
Lemma outcome_raise e L : outcome (@raise A e L) = inl e.
Proof. reflexivity. Qed.
Lemma lexer_after_raise e L : lexer_after (@raise A e L) = L.
Proof. reflexivity. Qed.
Lemma tokens_raise e L : tokens_of (@raise A e L) = [].
Proof. reflexivity. Qed.

End Components.

Lemma yields_yield t L : yields (yield t L) = [(t, L)].
Proof. reflexivity. Qed.
Lemma outcome_yield t L : outcome (yield t L) = inr tt.
Proof. reflexivity. Qed.
Lemma lexer_after_yield t L : lexer_after (yield t L) = L.
Proof. reflexivity. Qed.
Lemma tokens_yield t L : tokens_of (yield t L) = [t].
Proof. reflexivity. Qed.

Lemma yields_modify f L : yields (modify f L) = [].
Proof. reflexivity. Qed.
Lemma outcome_modify f L : outcome (modify f L) = inr tt.
Proof. reflexivity. Qed.
Lemma lexer_after_modify f L : lexer_after (modify f L) = f L.
Proof. reflexivity. Qed.
Lemma tokens_modify f L : tokens_of (modify f L) = [].
Proof. reflexivity. Qed.

Create Rewrite HintDb gen.
#[export] Hint Rewrite
  @yields_after @outcome_after @lexer_after_after @tokens_after
  @yields_mk @outcome_mk @lexer_after_mk @tokens_mk
  @yields_ret @outcome_ret @lexer_after_ret @tokens_ret
  @yields_raise @outcome_raise @lexer_after_raise @tokens_raise
  yields_yield outcome_yield lexer_after_yield tokens_yield
  yields_modify outcome_modify lexer_after_modify tokens_modify
  @tokens_fold
  : gen.

(** Reading a field of an updated lexer object. *)
Ltac fields :=
  cbn [set_indent set_state set_next_state set_logical_line_started
       set_position set_cursor cursor filename lineno colno _state
       _next_state indent logical_line_started].

(** Deciding the comparisons of states. *)
Ltac conds :=
  cbn [Z.eqb STATE_WS_SENSITIVE STATE_WS_INSENSITIVE STATE_RAW_STRING
       STATE_KEEP Pos.eqb negb andb orb].

Ltac done_run := autorewrite with gen; fields.

(** Rules to establish [holds]. *)
Section Holds.
Context {A : Type} (Y : Yield -> Prop).

Lemma holds_after (Q : Exn + A -> Lexer -> Prop) ys (r : Run A) :
  Forall Y ys -> holds Y Q r -> holds Y Q (after_yields ys r).
Proof.
  intros F [H1 H2]. split; [|exact H2].
  rewrite yields_after. apply Forall_app. auto.
Qed.

Lemma holds_ret (Q : Exn + A -> Lexer -> Prop) a L :
  Q (inr a) L -> holds Y Q (ret a L).
Proof. intros H. split; [constructor|exact H]. Qed.

Lemma holds_raise (Q : Exn + A -> Lexer -> Prop) e L :
  Q (inl e) L -> holds Y Q (raise e L).
Proof. intros H. split; [constructor|exact H]. Qed.

Lemma holds_conseq (Q Q' : Exn + A -> Lexer -> Prop) (r : Run A) :
  holds Y Q r -> (forall o L, Q o L -> Q' o L) -> holds Y Q' r.
Proof. intros [H1 H2] I. split; auto. Qed.

End Holds.

Lemma holds_modify Y (Q : Exn + unit -> Lexer -> Prop) f L :
  Q (inr tt) (f L) -> holds Y Q (modify f L).
Proof. intros H. split; [constructor|exact H]. Qed.

Lemma holds_yield (Y : Yield -> Prop) (Q : Exn + unit -> Lexer -> Prop) t L :
  Y (t, L) -> Q (inr tt) L -> holds Y Q (yield t L).
Proof. intros H1 H2. split; [repeat constructor; exact H1|exact H2]. Qed.

Lemma holds_bind {A B} Y (Q : Exn + B -> Lexer -> Prop) (m : Gen A) (f : A -> Gen B) L :
  holds Y (fun o L' =>
             match o with
             | inl e => Q (inl e) L'
             | inr a => holds Y Q (f a L')
             end) (m L) ->
  holds Y Q ((x <- m ;; f x) L).
Proof.
  intros [H1 H2]. unfold bind.
  destruct (outcome (m L)) as [e|a].
  - split; [exact H1|exact H2].
  - destruct H2 as [H2 H3]. split; [|exact H3].
    cbn. apply Forall_app. auto.
Qed.


(** One step of a proof of [holds] along the generator. *)
Ltac hstep :=
  run;
  match goal with
  | |- holds _ _ (ret _ _) => apply holds_ret
  | |- holds _ _ (raise _ _) => apply holds_raise
  | |- holds _ _ (modify _ _) => apply holds_modify
  | |- holds _ _ (yield _ _) => apply holds_yield
  | |- holds _ _ (after_yields _ _) =>
      apply holds_after; [apply Forall_cons; [|constructor]|]
  | |- holds _ _ (bind (if ?c then _ else _) _ _) => destruct c eqn:?
  | |- holds _ _ ((if ?c then _ else _) _) => destruct c eqn:?
  end.


(* ================================================================== *)
(** * The unindent loop *)

Section Unindent.

Lemma set_indent_twice a b L : set_indent a (set_indent b L) = set_indent a L.
Proof. reflexivity. Qed.

Lemma set_indent_same L : set_indent (indent L) L = L.
Proof. now destruct L. Qed.

Lemma recorded_false l cur :
  (forall y, In y l -> y < cur) -> recorded cur l = false.
Proof.
  intros H. unfold recorded. apply not_true_is_false. intros E.
  apply existsb_exists in E as (y & I & E). apply H in I. lia.
Qed.

Lemma unindent_run cur t pos :
  forall l L fuel x,
    indent L = l ++ [x] -> indent_inv (l ++ [x]) -> 0 <= cur -> cur <= x ->
    (length (l ++ [x]) <= fuel)%nat ->
    let r := unindent fuel cur t pos L in
    let n := length (levels_above cur (l ++ [x])) in
    lexer_after r = set_indent (levels_upto cur (l ++ [x])) L /\
    if recorded cur (l ++ [x])
    then outcome r = inr tt /\
         tokens_of r = repeat (inserted "DEDENT" t pos L) n
    else outcome r = inl (unindent_error t pos) /\
         tokens_of r = repeat (inserted "DEDENT" t pos L) (pred n).
Proof.
  induction l as [|y l IH] using rev_ind; intros L fuel x E Inv C0 Cx F.
  - (* the stack is [x], so x = 0 = cur *)
    destruct Inv as (_ & H & _). cbn in H. injection H as ->.
    assert (cur = 0) by lia. subst cur.
    destruct fuel; cbn in F; [lia|]. cbn zeta.
    cbn [unindent]. rewrite (bind_indent_top _ L [] 0 E). cbn.
    cbn in E. now rewrite <- E, set_indent_same.
  - rewrite length_app in F. cbn in F.
    destruct fuel as [|fuel]; [lia|].
    cbn zeta. cbn [unindent].
    rewrite (bind_indent_top _ L _ x E).
    pose proof Inv as (_ & _ & SI).
    destruct (Z.gtb_spec x cur) as [G|G].
    + (* pop *)
      rewrite (bind_indent_pop _ L _ x E).
      assert (Inv' : indent_inv (l ++ [y])) by (apply indent_inv_pop with x; [exact Inv|lia]).
      rewrite (bind_indent_top _ (set_indent (l ++ [y]) L) l y eq_refl).
      rewrite levels_above_snoc, levels_upto_snoc, recorded_snoc.
      destruct (Z.ltb_spec cur x); [|lia].
      destruct (Z.leb_spec x cur); [lia|].
      destruct (Z.eqb_spec cur x); [lia|].
      rewrite !app_nil_r, orb_false_r, length_app. cbn [length].
      pose proof Inv' as (_ & _ & SI').
      destruct (Z.ltb_spec y cur) as [Lt|Ge].
      * (* mismatch *)
        run. cbn.
        destruct (levels_upto_all l y cur SI') as [U Ab]; [lia|].
        rewrite U, Ab. cbn.
        rewrite recorded_false; [auto|].
        intros z I. apply in_app_or in I as [I|[<-|[]]]; [|lia].
        pose proof (strictly_increasing_bound _ _ SI' z I). lia.
      * run.
        specialize (IH (set_indent (l ++ [y]) L) fuel y eq_refl Inv' C0 Ge).
        cbn zeta in IH. destruct IH as [IH1 IH2].
        { rewrite length_app in *. cbn in *. lia. }
        unfold after_yields. cbn [lexer_after outcome yields tokens_of].
        split; [rewrite IH1; reflexivity|].
        destruct (recorded cur (l ++ [y])) eqn:R.
        -- destruct IH2 as [O T]. split; [exact O|].
           unfold tokens_of in *. cbn [yields map fst app]. rewrite T.
           replace (length (levels_above cur (l ++ [y])) + 1)%nat
             with (S (length (levels_above cur (l ++ [y])))) by lia.
           reflexivity.
        -- destruct IH2 as [O T]. split; [exact O|].
           unfold tokens_of in *. cbn [yields map fst app]. rewrite T.
           assert (In y (levels_above cur (l ++ [y]))).
           { apply filter_In. split; [apply in_or_app; right; now left|].
             apply Z.ltb_lt.
             assert (cur <> y); [|lia].
             intros ->. rewrite recorded_snoc, Z.eqb_refl, orb_true_r in R.
             discriminate. }
           destruct (levels_above cur (l ++ [y])) as [|a m]; [contradiction|].
           cbn [length Nat.pred Nat.add]. 
           replace (length m + 1)%nat with (S (length m)) by lia. reflexivity.
    + (* the top is the indentation *)
      assert (x = cur) by lia. subst x. run. cbn.
      destruct (levels_upto_all (l ++ [y]) cur cur SI) as [U Ab]; [lia|].
      rewrite U, Ab, recorded_snoc, Z.eqb_refl, orb_true_r, <- E, set_indent_same.
      auto.
Qed.

(** The unindent loop keeps the invariant of the lexer object, leaves the
    scan alone, and ends normally or in an indentation error. *)
Lemma unindent_holds cur t pos L0 :
  0 <= cur ->
  forall fuel L,
    lexer_inv L -> same_scan L0 L -> (length (indent L) <= fuel)%nat ->
    holds (fun y => lexer_inv (snd y) /\ same_scan L0 (snd y))
          (fun o L' => lexer_inv L' /\ same_scan L0 L' /\
                       match o with inl e => lexical_error e | inr _ => True end)
          (unindent fuel cur t pos L).
Proof.
  intros C0. induction fuel as [|fuel IH]; intros L Inv Sc F.
  - destruct Inv as (I & _). destruct (indent_inv_top _ I) as (l & x & E & _).
    rewrite E, length_app in F. cbn in F. lia.
  - pose proof Inv as (I & Col & Vs & Ns).
    destruct (indent_inv_top _ I) as (l & x & E & X0).
    cbn [unindent]. rewrite (bind_indent_top _ L l x E).
    destruct (Z.gtb_spec x cur) as [G|G]; [|apply holds_ret; auto].
    rewrite (bind_indent_pop _ L l x E).
    assert (I' : indent_inv l) by (apply indent_inv_pop with x; [now rewrite <- E|lia]).
    assert (Inv' : lexer_inv (set_indent l L)) by (repeat split; try apply I'; auto).
    assert (Sc' : same_scan L0 (set_indent l L)) by exact Sc.
    destruct (indent_inv_top _ I') as (l' & y & E' & _).
    rewrite (bind_indent_top _ (set_indent l L) l' y E').
    destruct (Z.ltb_spec y cur).
    + run. apply holds_raise. cbn. auto.
    + run. apply holds_after;
        [apply Forall_cons; [split; [exact Inv'|exact Sc']|constructor]|].
      apply IH; auto. fields. rewrite E, length_app in F. cbn in F. lia.
Qed.

End Unindent.

(* ================================================================== *)
(** * The layout synthesizer, case by case *)

Section Synthesizer.

Lemma levels_upto_top l cur :
  strictly_increasing l = true -> recorded cur l = true ->
  last_item (levels_upto cur l) = Some cur.
Proof.
  induction l as [|x l IH] using rev_ind; intros S R; [discriminate|].
  pose proof (strictly_increasing_bound _ _ S) as B.
  rewrite strictly_increasing_snoc in S. apply andb_prop in S as [S _].
  rewrite recorded_snoc in R. rewrite levels_upto_snoc.
  destruct (Z.leb_spec x cur) as [Le|Gt].
  - rewrite last_item_snoc. f_equal.
    apply orb_prop in R as [R|R]; [|lia].
    apply existsb_exists in R as (y & I & E). apply B in I. lia.
  - rewrite app_nil_r. apply IH; [exact S|].
    apply orb_prop in R as [R|R]; [exact R|lia].
Qed.

Lemma token_generator_parts t L :
  token_generator t L = (t' <- indentation_part t ;; newline_part (type t) t') L.
Proof.
  unfold token_generator, indentation_part. cbn zeta.
  rewrite bind_assoc. reflexivity.
Qed.

Lemma same_scan_refl L : same_scan L L.
Proof. repeat split. Qed.

Lemma newline_part_holds L0 ty t L :
  lexer_inv L -> same_scan L0 L ->
  holds (layout_yield L0) (layout_post L0) (newline_part ty t L).
Proof.
  intros Inv Sc. unfold newline_part.
  repeat hstep; unfold layout_yield, layout_post; fields; auto.
Qed.

Lemma indentation_part_holds t L :
  lexer_inv L -> 1 <= column (start t) ->
  holds (layout_yield L)
        (fun o L' => layout_post L o L' /\
                     match o with
                     | inr t' => t' = t \/ t' = set_type "WS" t
                     | inl _ => True
                     end)
        (indentation_part t L).
Proof.
  intros Inv Col. pose proof Inv as (I & Cn & Vs & Ns).
  destruct (indent_inv_top _ I) as (l & x & E & X0).
  pose proof (same_scan_refl L) as Sc.
  unfold indentation_part. cbn zeta. run.
  destruct (_ && _ && _).
  - rewrite (bind_indent_top _ L l x E).
    destruct (Z.gtb_spec (column (start t) - 1) x) as [G|G].
    + unfold indent_append. run.
      assert (lexer_inv (set_indent (indent L ++ [column (start t) - 1]) L)).
      { split; [|exact (conj Cn (conj Vs Ns))].
        apply (indent_inv_push _ x);
          [exact I|rewrite E; apply last_item_snoc|exact G]. }
      repeat hstep; unfold layout_yield, layout_post; fields; auto.
    + destruct (Z.ltb_spec (column (start t) - 1) x) as [G'|G'].
      * apply holds_bind.
        eapply holds_conseq;
          [apply unindent_holds with (L0 := L);
             solve [assumption | lia | apply Nat.le_refl]|].
        cbn beta. intros [e|[]] L' (Inv' & Sc' & Er).
        -- unfold layout_post. auto.
        -- apply holds_ret. unfold layout_post. auto.
      * apply holds_ret. unfold layout_post. auto.
  - destruct (_state L =? STATE_RAW_STRING).
    + rewrite (bind_indent_top _ L l x E).
      destruct (negb (logical_line_started L) && negb (type t =? "NEWLINE")%string).
      * destruct ((type t =? "RAWLEADWS")%string && _) eqn:C.
        -- apply andb_prop in C as [_ C].
           unfold indent_append. run.
           assert (lexer_inv (set_indent (indent L ++ [Z.of_nat (length (value t))]) L)).
           { split; [|exact (conj Cn (conj Vs Ns))].
             apply (indent_inv_push _ x);
               [exact I|rewrite E; apply last_item_snoc|lia]. }
           repeat hstep; unfold layout_yield, layout_post; fields; auto.
        -- repeat hstep; unfold layout_yield, layout_post; cbn; auto.
      * destruct ((type t =? "RAWLEADWS")%string && _) eqn:C.
        -- run. apply holds_after;
             [apply Forall_cons; [split; assumption|constructor]|].
           apply holds_bind.
           eapply holds_conseq;
          [apply unindent_holds with (L0 := L);
             solve [assumption | lia | apply Nat.le_refl]|].
           cbn beta. intros [e|[]] L' (Inv' & Sc' & Er).
           ++ unfold layout_post. auto.
           ++ destruct Inv' as (I' & Cn' & Vs' & Ns').
              repeat hstep; unfold layout_post, lexer_inv; fields; auto 10.
        -- apply holds_ret. unfold layout_post. auto.
    + apply holds_ret. unfold layout_post. auto.
Qed.

Lemma token_generator_holds t L :
  lexer_inv L -> 1 <= column (start t) ->
  holds (layout_yield L) (layout_post L) (token_generator t L).
Proof.
  intros Inv Col. rewrite token_generator_parts. apply holds_bind.
  eapply holds_conseq; [apply indentation_part_holds; assumption|].
  cbn beta. intros [e|t'] L' ((Inv' & Sc' & Er) & _).
  - unfold layout_post. auto.
  - now apply newline_part_holds.
Qed.

(** In state WS_INSENSITIVE the synthesizer only hands on the token. *)
Lemma token_generator_ws_insensitive (L : Lexer) (t : Token) :
  _state L = STATE_WS_INSENSITIVE ->
  let r := token_generator t L in
  outcome r = inr tt /\
  tokens_of r = [t] /\
  indent (lexer_after r) = indent L /\
  _state (lexer_after r) = STATE_WS_INSENSITIVE /\
  _next_state (lexer_after r) = _next_state L.
Proof.
  intros St. cbn zeta. unfold token_generator. run. rewrite St. conds. run.
  rewrite St. conds. rewrite andb_false_r. conds.
  destruct (mem (type t) layout_blind); conds; run; done_run; auto.
Qed.

(** The second half of the synthesizer ends with the token it was given. *)
Lemma newline_part_ends ty t L :
  exists ts, tokens_of (newline_part ty t L) = ts ++ [t].
Proof.
  unfold newline_part. run.
  destruct (_ && _ && _).
  - run. done_run. now exists [inserted "NL" t pos_start L].
  - destruct (negb (mem ty layout_blind)); run; done_run; now exists [].
Qed.

Lemma holds_weaken {A} (Y Y' : Yield -> Prop) (Q : Exn + A -> Lexer -> Prop) r :
  (forall y, Y y -> Y' y) -> holds Y Q r -> holds Y' Q r.
Proof. intros I [H1 H2]. split; [eapply Forall_impl; eassumption|exact H2]. Qed.

(** The synthesizer ends with the token of the match, retagged or not. *)
Lemma token_generator_ends t L :
  lexer_inv L -> 1 <= column (start t) ->
  ends_with (fun t' => t' = t \/ t' = set_type "WS" t) (token_generator t L).
Proof.
  intros Inv Col [] O. rewrite token_generator_parts in *.
  destruct (indentation_part_holds t L Inv Col) as [_ (_ & Q)].
  destruct (outcome (indentation_part t L)) as [e|t'] eqn:E.
  - rewrite (bind_inl _ _ _ _ E) in O. discriminate.
  - rewrite (bind_inr _ _ _ _ E). rewrite tokens_after.
    destruct (newline_part_ends (type t) t' (lexer_after (indentation_part t L)))
      as [ts T].
    rewrite T. exists (map fst (yields (indentation_part t L)) ++ ts), t'.
    split; [now rewrite app_assoc|exact Q].
Qed.

End Synthesizer.

(* ================================================================== *)
(** * The driver *)

Lemma token_from_text_run rt txt L :
  token_from_text rt txt L = ret (built_token rt txt L) (moved rt txt L).
Proof.
  unfold token_from_text, built_token, moved, next_position. run.
  destruct (rt =? NL)%string; [run; reflexivity|].
  destruct (mem rt MULTILINE_TOKENS && existsb Chars.is_nl txt); run; reflexivity.
Qed.

Lemma bind_token_from_text {B} rt txt (f : Token -> Gen B) L :
  (t <- token_from_text rt txt ;; f t) L = f (built_token rt txt L) (moved rt txt L).
Proof.
  rewrite bind_inr with (a := built_token rt txt L);
    rewrite token_from_text_run; [|reflexivity].
  apply after_no_yields.
Qed.

Lemma next_position_column rt txt L :
  1 <= colno L -> 1 <= snd (next_position rt txt L).
Proof.
  intros C. unfold next_position.
  destruct (rt =? NL)%string; [cbn; lia|].
  destruct (mem rt MULTILINE_TOKENS && existsb Chars.is_nl txt); cbn; lia.
Qed.

Lemma moved_inv rt txt L : lexer_inv L -> lexer_inv (moved rt txt L).
Proof.
  intros (I & C & V & N). repeat split; try apply I; auto.
  now apply next_position_column.
Qed.

Section Driver.

Variable edge_schema_keywords : list (string * string).
Variable group : string -> re.

#[local] Abbreviation keyword_rules' := (keyword_rules edge_schema_keywords group).
#[local] Abbreviation common_rules' := (common_rules edge_schema_keywords group).
#[local] Abbreviation states' := (states edge_schema_keywords group).
#[local] Abbreviation lex_turn' := (lex_turn edge_schema_keywords group).
#[local] Abbreviation lex_loop' := (lex_loop edge_schema_keywords group).
#[local] Abbreviation lex_body' := (lex_body edge_schema_keywords group).
#[local] Abbreviation lex' := (lex edge_schema_keywords group).
#[local] Abbreviation turn_yield' := (turn_yield edge_schema_keywords group).
#[local] Abbreviation raw_token' := (raw_token edge_schema_keywords group).
#[local] Abbreviation keywords_consume' :=
  (keywords_consume edge_schema_keywords group).

Lemma first_rule_in rules z r z' :
  first_rule rules z = Some (r, z') ->
  In r rules /\ match_at (regexp r) z = Some z'.
Proof.
  induction rules as [|a rules IH]; [discriminate|]. cbn.
  destruct (match_at (regexp a) z) eqn:E.
  - intros H. injection H as <- <-. auto.
  - intros H. destruct (IH H). auto.
Qed.

Lemma keyword_rule_inv r :
  In r keyword_rules' ->
  exists val tok, In (val, tok) edge_schema_keywords /\
                  r = MkRule tok STATE_KEEP (group val).
Proof.
  unfold keyword_rules. intros I. apply in_map_iff in I as ([val tok] & <- & I).
  now exists val, tok.
Qed.

Lemma rules_next_state s rules r :
  states' s = Some rules -> In r rules -> next_state_ok r.
Proof.
  assert (C : forall r, In r common_rules' -> next_state_ok r).
  { intros r0 I. unfold common_rules in I. apply in_app_or in I as [I|I].
    - apply keyword_rule_inv in I as (val & tok & _ & ->). now left.
    - unfold next_state_ok, valid_state.
      repeat (destruct I as [<-|I]; [cbn; auto|]). destruct I. }
  unfold states.
  destruct (s =? STATE_WS_SENSITIVE); [intros H; injection H as <-; apply C|].
  destruct (s =? STATE_WS_INSENSITIVE); [intros H; injection H as <-; apply C|].
  destruct (s =? STATE_RAW_STRING); [|discriminate].
  intros H. injection H as <-. intros I.
  unfold next_state_ok, valid_state.
  repeat (destruct I as [<-|I]; [cbn; auto|]). destruct I.
Qed.

Lemma states_valid s : valid_state s -> exists rules, states' s = Some rules.
Proof. intros [-> | [-> | ->]]; eexists; reflexivity. Qed.

Lemma switch_state_run rule L :
  lexer_inv L -> next_state_ok rule ->
  exists L', switch_state rule L = ret tt L' /\ lexer_inv L' /\
             cursor L' = cursor L /\ indent L' = indent L.
Proof.
  intros (I & C & V & N) Ok. unfold switch_state. run.
  destruct (negb (next_state rule =? STATE_KEEP) && negb (next_state rule =? _state L)) eqn:B.
  - eexists. split; [reflexivity|]. split; [|auto].
    repeat split; try apply I; auto. fields.
    destruct Ok as [K|Ok]; [|exact Ok]. rewrite K in B. discriminate.
  - destruct N as [N|N]; rewrite N.
    + eexists. split; [reflexivity|]. repeat split; try apply I; auto.
    + run. eexists. split; [reflexivity|]. split; [|auto].
      repeat split; try apply I; auto. fields. now left. 
Qed.

(** A turn of the driver keeps the invariant at every yield and at its end,
    and either raises a lexical error, or misses a match at the cursor, or
    leaves the cursor where the match of its rule ended. *)
Lemma lex_turn_holds L :
  lexer_inv L ->
  exists rules, states' (_state L) = Some rules /\
  holds turn_yield'
        (fun o L' =>
           lexer_inv L' /\
           match o with
           | inl e => lexical_error e \/
                      (e = ModelLimit /\ first_match rules (cursor L) = None)
           | inr _ => exists rule z',
                        first_match rules (cursor L) = Some (Some rule, z') /\
                        cursor L' = advance_n (length (consumed (cursor L) z')) (cursor L)
           end)
        (lex_turn' L).
Proof.
  intros Inv. pose proof Inv as (I & C & V & N).
  destruct (states_valid _ V) as [rules S]. exists rules. split; [exact S|].
  unfold lex_turn. run. rewrite S.
  destruct (first_match rules (cursor L)) as [[[rule|] z']|] eqn:M.
  - rewrite bind_token_from_text.
    set (txt := consumed (cursor L) z').
    set (t := built_token (token rule) txt L).
    set (L1 := moved (token rule) txt L).
    assert (Inv1 : lexer_inv L1) by now apply moved_inv.
    assert (Ok : next_state_ok rule).
    { unfold first_match in M. destruct (first_rule rules (cursor L)) as [[r0 z0]|] eqn:F.
      - injection M as <- <-. apply first_rule_in in F as [F _].
        eapply rules_next_state; eassumption.
      - destruct (match_at Pat.err (cursor L)); discriminate. }
    apply holds_bind.
    pose proof (token_generator_holds t L1 Inv1 C) as [HY HQ].
    split.
    + destruct (Z.eq_dec (_state L1) STATE_WS_INSENSITIVE) as [W|W].
      * destruct (token_generator_ws_insensitive L1 t W) as (_ & T & _).
        unfold tokens_of in T.
        destruct (yields (token_generator t L1)) as [|[t0 L2] [|y ys]];
          try discriminate.
        cbn in T. injection T as ->.
        apply Forall_inv in HY. destruct HY as [HY _].
        apply Forall_cons; [|constructor]. split; [exact HY|].
        intros _. exists rule. split; [|reflexivity].
        change (_state L1) with (_state L) in W. rewrite W in S.
        injection S as <-.
        unfold first_match in M.
        destruct (first_rule _ (cursor L)) as [[r0 z0]|] eqn:F.
        -- injection M as <- <-. now apply first_rule_in in F.
        -- destruct (match_at Pat.err (cursor L)); discriminate.
      * eapply Forall_impl; [|exact HY]. intros y [H (_ & _ & _ & _ & H')].
        split; [exact H|]. intros H''. congruence.
    + destruct HQ as (Inv2 & Sc & Er).
      destruct (outcome (token_generator t L1)) as [e|[]].
      * split; [exact Inv2|]. now left.
      * destruct (switch_state_run rule _ Inv2 Ok) as (L3 & R & Inv3 & Cu & _).
        rewrite R. apply holds_ret. split; [exact Inv3|].
        exists rule, z'. split; [reflexivity|].
        rewrite Cu. destruct Sc as (Sc & _). rewrite Sc. reflexivity.
  - unfold handle_error. run. apply holds_raise. split; [exact Inv|]. left. exact Logic.I.
  - apply holds_raise. split; [exact Inv|]. right. auto.
Qed.

(** Every rule the source spells out has a pattern that consumes. *)
Lemma spelled_rules_consuming :
  forallb (fun r => consuming (regexp r))
          (common_rules [] group ++ raw_string_rules) = true.
Proof. reflexivity. Qed.

Lemma rule_progress s rules r z z' :
  keywords_consume' ->
  states' s = Some rules -> In r rules -> match_at (regexp r) z = Some z' ->
  (remaining z' < remaining z)%nat.
Proof.
  intros K S I M.
  assert (C : In r keyword_rules' \/ consuming (regexp r) = true).
  { pose proof spelled_rules_consuming as F.
    rewrite forallb_forall in F.
    revert S. unfold states.
    destruct (s =? STATE_WS_SENSITIVE); [|destruct (s =? STATE_WS_INSENSITIVE);
      [|destruct (s =? STATE_RAW_STRING); [|discriminate]]];
      intros S; injection S as <-.
    - apply in_app_or in I as [I|I]; [now left|right].
      apply F. apply in_or_app. left. exact I.
    - apply in_app_or in I as [I|I]; [now left|right].
      apply F. apply in_or_app. left. exact I.
    - right. apply F. apply in_or_app. now right. }
  destruct C as [C|C].
  - apply keyword_rule_inv in C as (val & tok & C & ->). eapply K; eassumption.
  - eapply match_at_progress; eassumption.
Qed.

Lemma first_match_progress s rules z r z' :
  keywords_consume' ->
  states' s = Some rules -> first_match rules z = Some (r, z') ->
  (remaining z' < remaining z)%nat.
Proof.
  intros K S M. unfold first_match in M.
  destruct (first_rule rules z) as [[r0 z0]|] eqn:F.
  - injection M as <- <-. apply first_rule_in in F as [I F].
    eapply rule_progress; eassumption.
  - destruct (match_at Pat.err z) eqn:E; [|discriminate].
    injection M as <- <-. eapply match_at_progress; [|exact E]. reflexivity.
Qed.

Lemma first_rule_none rules z r :
  first_rule rules z = None -> In r rules -> match_at (regexp r) z = None.
Proof.
  induction rules as [|a rules IH]; [intros _ []|]. cbn.
  destruct (match_at (regexp a) z) eqn:E; [discriminate|].
  intros H [<-|I]; auto.
Qed.

Lemma is_nl_eq c : Chars.is_nl c = true -> c = Chars.nl.
Proof.
  unfold Chars.is_nl, Chars.is_code, Chars.code, Chars.nl. intros H.
  apply N.eqb_eq in H. rewrite <- H. symmetry. apply ascii_N_embedding.
Qed.

(** Some alternative of a state's pattern matches wherever text is left. *)
Lemma first_match_total s rules z :
  states' s = Some rules -> after z <> [] -> first_match rules z <> None.
Proof.
  intros S N M. unfold first_match in M.
  destruct (first_rule rules z) as [[r0 z0]|] eqn:F; [discriminate|].
  destruct z as [bef [|c aft]]; [now apply N|]. clear N.
  destruct (Chars.not_nl c) eqn:E.
  - unfold match_at, Pat.err, Pat.dot in M. cbn in M. rewrite E in M. discriminate.
  - clear M. unfold Chars.not_nl in E. apply negb_false_iff in E.
    apply is_nl_eq in E. subst c.
    revert S. unfold states.
    destruct (s =? STATE_WS_SENSITIVE); [|destruct (s =? STATE_WS_INSENSITIVE);
      [|destruct (s =? STATE_RAW_STRING); [|discriminate]]];
      intros S; injection S as <-.
    + assert (H := first_rule_none _ _ (MkRule "NEWLINE" STATE_KEEP (Chr Chars.nl)) F).
      cbn in H. discriminate H. apply in_or_app. right. cbn. auto.
    + assert (H := first_rule_none _ _ (MkRule "NEWLINE" STATE_KEEP (Chr Chars.nl)) F).
      cbn in H. discriminate H. apply in_or_app. right. cbn. auto.
    + assert (H := first_rule_none _ _ (MkRule "RAWSTRING" STATE_KEEP Pat.RAW_REST) F).
      cbn in H. discriminate H. cbn. auto 10.
Qed.

Lemma first_match_reaches rules z r z' :
  first_match rules z = Some (r, z') -> exists s, reaches z z' s.
Proof.
  unfold first_match. intros M.
  destruct (first_rule rules z) as [[r0 z0]|] eqn:F.
  - injection M as <- <-. apply first_rule_in in F as [_ F].
    apply match_at_reaches in F as (s & R & _). now exists s.
  - destruct (match_at Pat.err z) eqn:E; [|discriminate].
    injection M as <- <-.
    apply match_at_reaches in E as (s & R & _). now exists s.
Qed.

(** The loop of the driver keeps the invariant at every yield and at its
    end; it ends at the end of the text, or in a lexical error, or, when
    keyword patterns may match the empty text, out of turns. *)
Lemma lex_loop_holds :
  forall fuel L,
    lexer_inv L ->
    holds turn_yield'
          (fun o L' =>
             lexer_inv L' /\
             match o with
             | inl e => lexical_error e \/
                        (e = ModelLimit /\
                         (keywords_consume' -> (fuel < remaining (cursor L))%nat))
             | inr _ => after (cursor L') = []
             end)
          (lex_loop' fuel L).
Proof.
  induction fuel as [|fuel IH]; intros L Inv; cbn [lex_loop]; run;
    destruct (after (cursor L)) as [|c aft] eqn:A.
  - apply holds_ret. auto.
  - apply holds_raise. split; [exact Inv|]. right. split; [reflexivity|].
    intros _. unfold remaining. rewrite A. cbn. lia.
  - apply holds_ret. auto.
  - apply holds_bind.
    destruct (lex_turn_holds L Inv) as (rules & S & HY & Inv' & HQ).
    split; [exact HY|].
    destruct (outcome (lex_turn' L)) as [e|[]].
    + split; [exact Inv'|]. destruct HQ as [HQ|[_ HQ]]; [now left|].
      exfalso. eapply first_match_total; [exact S| |exact HQ].
      rewrite A. discriminate.
    + destruct HQ as (rule & z' & M & Cu).
      destruct (first_match_reaches _ _ _ _ M) as [s R].
      rewrite (reaches_consumed _ _ _ R), (reaches_advance_n _ _ _ R) in Cu.
      eapply holds_conseq; [apply IH; exact Inv'|].
      cbn beta. intros [e|[]] L' [Inv'' Q]; (split; [exact Inv''|]); [|exact Q].
      destruct Q as [Q|[-> Q]]; [now left|right]. split; [reflexivity|].
      intros K. specialize (Q K). rewrite Cu in Q.
      pose proof (first_match_progress _ _ _ _ _ K S M). lia.
Qed.

Lemma eof_token_run ty L :
  ty = "NL" \/ ty = "DEDENT" ->
  token_from_text ty [] L = ret (eof_token ty L) L.
Proof.
  intros H. rewrite token_from_text_run.
  unfold built_token, moved, next_position, eof_token.
  destruct H as [-> | ->]; cbn; rewrite Z.add_0_r; now destruct L.
Qed.

Lemma bind_eof_token {B} ty (f : Token -> Gen B) L :
  ty = "NL" \/ ty = "DEDENT" ->
  (t <- token_from_text ty [] ;; f t) L = f (eof_token ty L) L.
Proof.
  intros H. rewrite bind_inr with (a := eof_token ty L);
    rewrite (eof_token_run ty L H); [|reflexivity].
  apply after_no_yields.
Qed.

Lemma set_indent_inv l L : lexer_inv L -> indent_inv l -> lexer_inv (set_indent l L).
Proof. intros (_ & H) I. split; [exact I|exact H]. Qed.

Lemma indent_inv_nonneg l y : indent_inv l -> In y l -> 0 <= y.
Proof.
  intros (_ & H & S) I. destruct l as [|a l]; [destruct I|].
  cbn in H. injection H as ->. destruct I as [<-|I]; [lia|].
  pose proof (strictly_increasing_above 0 l S y I). lia.
Qed.

(** The loop of [get_eof_tokens] pops every level above the base, with one
    DEDENT for each. *)
Lemma eof_dedents_run :
  forall l L fuel x,
    lexer_inv L -> indent L = l ++ [x] -> (length l <= fuel)%nat ->
    let r := eof_dedents fuel L in
    outcome r = inr tt /\
    tokens_of r = repeat (eof_token "DEDENT" L) (length l) /\
    lexer_after r = set_indent [0] L /\
    Forall (fun y => lexer_inv (snd y)) (yields r).
Proof.
  induction l as [|y l IH] using rev_ind; intros L fuel x Inv E F; cbn zeta.
  - pose proof Inv as ((_ & H & _) & _). rewrite E in H. cbn in H. injection H as ->.
    destruct fuel; cbn [eof_dedents]; rewrite (bind_indent_top _ L [] 0 E); cbn;
      cbn in E; rewrite <- E, set_indent_same; auto.
  - pose proof Inv as (I & _). rewrite E in I.
    pose proof I as (_ & _ & SI).
    assert (X : 0 < x).
    { assert (y < x)
        by (apply (strictly_increasing_bound _ _ SI), in_or_app; right; now left).
      assert (0 <= y); [|lia].
      apply (indent_inv_nonneg _ _ I), in_or_app. left.
      apply in_or_app. right. now left. }
    assert (I' : indent_inv (l ++ [y])) by (now apply indent_inv_pop with x).
    rewrite length_app in F. cbn in F. destruct fuel as [|fuel]; [lia|].
    cbn [eof_dedents]. rewrite (bind_indent_top _ L _ x E).
    destruct (Z.gtb_spec x 0); [|lia].
    rewrite (bind_indent_pop _ L _ x E). run.
    rewrite bind_eof_token by now right. run.
    pose proof (set_indent_inv (l ++ [y]) L Inv I') as Inv'.
    destruct (IH (set_indent (l ++ [y]) L) fuel y Inv' eq_refl) as (O & T & A & Y);
      [lia|].
    done_run. rewrite O, T, A. fields.
    split; [reflexivity|]. split; [|split; [reflexivity|]].
    + rewrite length_app. cbn [length map fst app].
      replace (length l + 1)%nat with (S (length l)) by lia. reflexivity.
    + apply Forall_cons; [exact Inv'|exact Y].
Qed.

Lemma get_eof_tokens_run L :
  lexer_inv L ->
  let r := get_eof_tokens L in
  outcome r = inr tt /\
  tokens_of r =
    (if logical_line_started L then [eof_token "NL" L] else []) ++
    repeat (eof_token "DEDENT" L) (length (indent L) - 1) /\
  lexer_after r = set_indent [0] L /\
  Forall (fun y => lexer_inv (snd y)) (yields r).
Proof.
  intros Inv. cbn zeta. pose proof Inv as (I & _).
  destruct (indent_inv_top _ I) as (l & x & E & _).
  assert (D : let r := (if Z.of_nat (length (indent L)) >? 1
                        then eof_dedents (length (indent L)) else ret tt) L in
              outcome r = inr tt /\
              tokens_of r = repeat (eof_token "DEDENT" L) (length (indent L) - 1) /\
              lexer_after r = set_indent [0] L /\
              Forall (fun y => lexer_inv (snd y)) (yields r)).
  { cbn zeta. destruct (Z.gtb_spec (Z.of_nat (length (indent L))) 1) as [G|G].
    - destruct (eof_dedents_run l L (length (indent L)) x Inv E) as (O & T & A & Y).
      { rewrite E, length_app. lia. }
      rewrite O, T, A. repeat split; [|exact Y].
      rewrite E, length_app. cbn. f_equal. lia.
    - rewrite E, length_app in G. cbn in G.
      destruct l; [|cbn in G; lia]. cbn in E.
      destruct I as (_ & H & _). rewrite E in H. cbn in H. injection H as ->.
      rewrite E. cbn. rewrite <- E, set_indent_same. auto. }
  cbn zeta in D. destruct D as (O & T & A & Y).
  unfold get_eof_tokens. run. destruct (logical_line_started L).
  - run. rewrite bind_eof_token by now left. run. done_run.
    rewrite O, T, A. repeat split. apply Forall_cons; [exact Inv|exact Y].
  - run. rewrite O, T, A. auto.
Qed.

Lemma lex_body_run L :
  lex_body' L = lex_loop' (remaining (cursor L)) (initialized L).
Proof.
  unfold lex_body, lex_init, get_start_tokens. run. reflexivity.
Qed.

Lemma lex_parts L : lex' L = (lex_body' ;; get_eof_tokens) L.
Proof.
  unfold lex, lex_body. now rewrite !bind_assoc.
Qed.

Lemma initialized_inv L :
  1 <= colno L -> valid_state (_state L) -> lexer_inv (initialized L).
Proof. intros C V. repeat split; auto. discriminate. Qed.

(** Everything [lex'] yields is yielded with the invariant in force, and
    [lex'] ends with it in force. *)
Lemma lex_holds L :
  1 <= colno L -> valid_state (_state L) ->
  holds (fun y => lexer_inv (snd y))
        (fun o L' =>
           lexer_inv L' /\
           match o with
           | inl e => lexical_error e \/ (e = ModelLimit /\ ~ keywords_consume')
           | inr _ => after (cursor L') = [] /\ indent L' = [0]
           end)
        (lex' L).
Proof.
  intros C V. rewrite lex_parts. apply holds_bind. rewrite lex_body_run.
  apply holds_weaken with (Y := turn_yield'); [now intros y [H _]|].
  eapply holds_conseq; [apply lex_loop_holds, initialized_inv; assumption|].
  cbn beta. intros [e|[]] L' [Inv Q].
  - split; [exact Inv|]. destruct Q as [Q|[-> Q]]; [now left|right].
    split; [reflexivity|]. intros K. specialize (Q K).
    unfold initialized in Q. cbn in Q. lia.
  - destruct (get_eof_tokens_run L' Inv) as (O & T & A & Y).
    split; [exact Y|]. rewrite O, A. fields.
    split; [apply set_indent_inv; [exact Inv|apply indent_inv_base]|auto].
Qed.

Lemma switch_state_tokens rule L : tokens_of (switch_state rule L) = [].
Proof.
  unfold switch_state. run.
  destruct (_ && _); [reflexivity|].
  destruct (_next_state L); run; reflexivity.
Qed.

(** A turn that ends normally has yielded, last, the token of its match. *)
Lemma lex_turn_ends L :
  lexer_inv L -> ends_with raw_token' (lex_turn' L).
Proof.
  intros Inv [] O. pose proof Inv as (I & C & V & N).
  destruct (states_valid _ V) as [rules S].
  revert O. unfold lex_turn. run. rewrite S.
  destruct (first_match rules (cursor L)) as [[[rule|] z']|] eqn:M;
    [|unfold handle_error; run; discriminate|discriminate].
  rewrite bind_token_from_text.
  set (txt := consumed (cursor L) z').
  set (t := built_token (token rule) txt L).
  set (L1 := moved (token rule) txt L).
  assert (Inv1 : lexer_inv L1) by now apply moved_inv.
  intros O.
  destruct (outcome (token_generator t L1)) as [e|[]] eqn:G.
  - rewrite (bind_inl _ _ _ _ G) in O. discriminate.
  - rewrite (bind_inr _ _ _ _ G), tokens_after, switch_state_tokens, app_nil_r.
    destruct (token_generator_ends t L1 Inv1 C tt G) as (ts & t' & T & P).
    exists ts, t'. split; [exact T|].
    exists (_state L), rules, rule, (cursor L), z'.
    destruct P as [-> | ->]; cbn; auto 10.
Qed.

(** So has the loop of the driver, started with text left. *)
Lemma lex_loop_ends :
  forall fuel L,
    lexer_inv L -> after (cursor L) <> [] -> ends_with raw_token' (lex_loop' fuel L).
Proof.
  induction fuel as [|fuel IH]; intros L Inv A [] O; revert O;
    cbn [lex_loop]; run;
    destruct (after (cursor L)) as [|c aft] eqn:E; try congruence;
    [discriminate|].
  intros O.
  destruct (lex_turn_holds L Inv)
    as (rules & S & _ & Inv' & _).
  destruct (outcome (lex_turn' L)) as [e|[]] eqn:T.
  - rewrite (bind_inl _ _ _ _ T) in O. discriminate.
  - rewrite (bind_inr _ _ _ _ T) in O |- *. rewrite outcome_after in O.
    rewrite tokens_after.
    destruct (after (cursor (lexer_after (lex_turn' L)))) as [|c' aft'] eqn:E'.
    + destruct (lex_turn_ends L Inv tt T) as (ts & t & Tk & P).
      exists ts, t. split; [|exact P].
      destruct fuel; cbn [lex_loop]; run; rewrite E'; done_run;
        rewrite app_nil_r; exact Tk.
    + destruct (IH _ Inv' ltac:(rewrite E'; discriminate) tt O) as (ts & t & Tk & P).
      exists (map fst (yields (lex_turn' L)) ++ ts), t.
      split; [|exact P]. rewrite Tk. now rewrite app_assoc.
Qed.

End Driver.

(* ================================================================== *)
(** * The specified properties of the lexer *)

Section Specification.

Variable edge_schema_keywords : list (string * string).
Variable group : string -> re.

#[local] Abbreviation keyword_rules' := (keyword_rules edge_schema_keywords group).
#[local] Abbreviation common_rules' := (common_rules edge_schema_keywords group).
#[local] Abbreviation states' := (states edge_schema_keywords group).
#[local] Abbreviation lex_turn' := (lex_turn edge_schema_keywords group).
#[local] Abbreviation lex_body' := (lex_body edge_schema_keywords group).
#[local] Abbreviation lex' := (lex edge_schema_keywords group).
#[local] Abbreviation raw_token' := (raw_token edge_schema_keywords group).
#[local] Abbreviation keywords_consume' :=
  (keywords_consume edge_schema_keywords group).

Lemma setinputstr_inv inputstr fname stale :
  1 <= colno (set_indent stale (setinputstr inputstr fname)) /\
  valid_state (_state (set_indent stale (setinputstr inputstr fname))).
Proof. split; [cbn; lia|now left]. Qed.

(** C1. When [lex] runs to the end of the input without raising, the loop
    of the driver has ended normally at the end of the text, its last token
    (if the text is not empty) being the token of the last match; what
    [lex] yields after it is exactly the EOF-closing tokens: one NL if and
    only if a logical line is open at that point, then one DEDENT for each
    level of the indent stack above the base level; and the indent stack
    is left as [[0]]. *)
Theorem eof_closing_tokens (inputstr : list ascii) (fname : string) :
  let L0 := setinputstr inputstr fname in
  let r := lex' L0 in
  let b := lex_body' L0 in
  let Lend := lexer_after b in
  outcome r = inr tt ->
  outcome b = inr tt /\
  after (cursor Lend) = [] /\
  (inputstr = [] -> tokens_of b = []) /\
  (inputstr <> [] -> exists ts t, tokens_of b = ts ++ [t] /\ raw_token' t) /\
  tokens_of r =
    tokens_of b
    ++ (if logical_line_started Lend then [eof_token "NL" Lend] else [])
    ++ repeat (eof_token "DEDENT" Lend) (length (indent Lend) - 1) /\
  indent (lexer_after r) = [0].
Proof.
  cbn zeta. intros O. rewrite lex_parts in O |- *.
  set (L0 := setinputstr inputstr fname) in *.
  assert (Inv0 : lexer_inv (initialized L0)).
  { apply initialized_inv; [cbn; lia|now left]. }
  pose proof (lex_loop_holds edge_schema_keywords group
                (remaining (cursor L0)) (initialized L0) Inv0) as [_ [Inv Q]].
  pose proof (lex_loop_ends edge_schema_keywords group
                (remaining (cursor L0)) (initialized L0) Inv0) as En.
  rewrite <- lex_body_run in Inv, Q, En.
  destruct (outcome (lex_body' L0)) as [e|[]] eqn:B.
  - rewrite (bind_inl _ _ _ _ B) in O. discriminate.
  - rewrite (bind_inr _ _ _ _ B). rewrite tokens_after, lexer_after_after.
    destruct (get_eof_tokens_run _ Inv) as (_ & T & A & _).
    rewrite T, A. fields.
    split; [reflexivity|]. split; [exact Q|].
    split; [|split; [|split; reflexivity]].
    + intros ->. rewrite lex_body_run. reflexivity.
    + intros N. apply (En N tt B).
Qed.

(** C2. For every input, and whatever the indent stack held before, [lex]
    starts by resetting the stack to [[0]]; at every yield of the pass, and
    where the pass ends (normally or in an error), the stack is non-empty,
    its first element is 0, and it is strictly increasing from bottom to
    top. *)
Theorem indent_stack_invariant
    (inputstr : list ascii) (fname : string) (stale : list Z) :
  let L0 := set_indent stale (setinputstr inputstr fname) in
  let r := lex' L0 in
  indent (lexer_after (lex_init L0)) = [0] /\
  Forall (fun y => indent_inv (indent (snd y))) (yields r) /\
  indent_inv (indent (lexer_after r)).
Proof.
  cbn zeta. split; [reflexivity|].
  destruct (setinputstr_inv inputstr fname stale) as [C V].
  destruct (lex_holds edge_schema_keywords group _ C V) as [HY [Inv _]].
  split; [|apply Inv].
  eapply Forall_impl; [|exact HY]. intros y H. apply H.
Qed.

(** The first entry of a keyword table whose pattern matches gives the
    first keyword rule that matches. *)
Lemma first_keyword_rule kws z i val tok z' :
  nth_error kws i = Some (val, tok) ->
  match_at (group val) z = Some z' ->
  (forall j val' tok',
     (j < i)%nat -> nth_error kws j = Some (val', tok') ->
     match_at (group val') z = None) ->
  first_rule (keyword_rules kws group) z
  = Some (MkRule tok STATE_KEEP (group val), z').
Proof.
  unfold keyword_rules. revert i.
  induction kws as [|[v k] kws IH]; intros i Hi M First.
  - destruct i; discriminate.
  - destruct i as [|i]; cbn in Hi.
    + injection Hi as -> ->. cbn. now rewrite M.
    + cbn. rewrite (First 0%nat v k); [|lia|reflexivity].
      apply (IH i Hi M). intros j v' k' Lt Hj.
      apply (First (S j) v' k'); [lia|exact Hj].
Qed.

Lemma first_rule_app a b z r z' :
  first_rule a z = Some (r, z') -> first_rule (a ++ b) z = Some (r, z').
Proof.
  induction a as [|r0 a IH]; [discriminate|]. cbn.
  destruct (match_at (regexp r0) z); [auto|apply IH].
Qed.

(** Among the entries of a keyword table up to one whose pattern matches,
    there is a first one whose pattern matches. *)
Lemma first_matching_keyword (kws : list (string * string)) z i val tok z' :
  nth_error kws i = Some (val, tok) ->
  match_at (group val) z = Some z' ->
  exists j val_j tok_j z_j,
    (j <= i)%nat /\
    nth_error kws j = Some (val_j, tok_j) /\
    match_at (group val_j) z = Some z_j /\
    forall k val' tok',
      (k < j)%nat -> nth_error kws k = Some (val', tok') ->
      match_at (group val') z = None.
Proof.
  revert i. induction kws as [|[v k] kws IH]; intros i Hi M.
  - destruct i; discriminate.
  - destruct (match_at (group v) z) as [zz|] eqn:E.
    + exists 0%nat, v, k, zz. repeat split; [lia|exact E|]. intros; lia.
    + destruct i as [|i]; cbn in Hi; [injection Hi as -> ->; congruence|].
      destruct (IH i Hi M) as (j & vj & tj & zj & Le & Hj & Mj & First).
      exists (S j), vj, tj, zj. repeat split; [lia|exact Hj|exact Mj|].
      intros [|n] v' t' Lt Hn; cbn in Hn.
      * injection Hn as <- <-. exact E.
      * apply (First n v' t'); [lia|exact Hn].
Qed.

(** C3, as amended.  In state WS_SENSITIVE or WS_INSENSITIVE, when the
    pattern of a keyword of the table matches at the scan position (which
    asks more than the text there being the spelling: the pattern of the
    sample table wants the spelling as a whole word), the match of the
    combined pattern is the match of a keyword rule, the first entry of the
    table whose pattern matches there: the turn of the driver builds its
    token from that keyword's kind and the text its pattern matched, and
    the identifier rule, which comes after the keyword rules, is not
    reached, whether or not its pattern matches there too.  When no earlier
    entry of the table matches, the token has the kind of the keyword
    itself, which is IDENT only if the table says so. *)
Theorem keyword_precedence
    (s : Z) (L : Lexer) (i : nat) (val tok : string) (z' : Cursor) :
  s = STATE_WS_SENSITIVE \/ s = STATE_WS_INSENSITIVE ->
  _state L = s ->
  nth_error edge_schema_keywords i = Some (val, tok) ->
  match_at (group val) (cursor L) = Some z' ->
  states' s = Some common_rules' /\
  exists j val_j tok_j z_j,
    let rule := MkRule tok_j STATE_KEEP (group val_j) in
    let txt := consumed (cursor L) z_j in
    (j <= i)%nat /\
    nth_error edge_schema_keywords j = Some (val_j, tok_j) /\
    match_at (group val_j) (cursor L) = Some z_j /\
    first_match common_rules' (cursor L) = Some (Some rule, z_j) /\
    lex_turn' L =
      (t <- token_from_text tok_j txt ;; token_generator t ;; switch_state rule) L /\
    type (built_token tok_j txt L) = tok_j /\
    ((forall k val' tok',
        (k < i)%nat -> nth_error edge_schema_keywords k = Some (val', tok') ->
        match_at (group val') (cursor L) = None) ->
     j = i /\ val_j = val /\ tok_j = tok /\ z_j = z' /\
     (tok <> "IDENT" -> type (built_token tok_j txt L) <> "IDENT")).
Proof.
  intros Hs St Hi M.
  assert (S : states' s = Some common_rules') by (destruct Hs as [-> | ->]; reflexivity).
  split; [exact S|].
  destruct (first_matching_keyword _ _ _ _ _ _ Hi M)
    as (j & vj & tj & zj & Le & Hj & Mj & First).
  exists j, vj, tj, zj. cbn zeta.
  assert (F : first_rule keyword_rules' (cursor L)
              = Some (MkRule tj STATE_KEEP (group vj), zj))
    by (eapply first_keyword_rule; eassumption).
  assert (FM : first_match common_rules' (cursor L)
               = Some (Some (MkRule tj STATE_KEEP (group vj)), zj)).
  { unfold first_match, common_rules. now rewrite (first_rule_app _ _ _ _ _ F). }
  split; [exact Le|]. split; [exact Hj|]. split; [exact Mj|]. split; [exact FM|].
  split; [|split; [reflexivity|]].
  - unfold lex_turn. run. rewrite St, S, FM. reflexivity.
  - intros Earlier.
    assert (j = i).
    { destruct (Nat.eq_dec j i) as [E|N]; [exact E|].
      rewrite (Earlier j vj tj) in Mj; [discriminate|lia|exact Hj]. }
    subst j. rewrite Hi in Hj. injection Hj as <- <-.
    rewrite M in Mj. injection Mj as <-. auto.
Qed.

(** C4, as amended.  Provided no keyword is given the kind INDENT, DEDENT
    or NL: for a token consumed in state WS_INSENSITIVE the synthesizer
    yields that token and nothing else, and leaves the indent stack alone;
    and for every input no token is yielded with kind INDENT, DEDENT or NL
    while the state is WS_INSENSITIVE, up to the end of the text (the
    EOF-closing tokens, which [get_eof_tokens] yields in any state, are
    the exception).  The rules that enter the state are those of LPAREN,
    LSBRACKET and LCBRACKET; the rules that leave it are those of the three
    closers, whichever bracket was opened, and of TURNSTILE. *)
Theorem ws_insensitive_isolation :
  (forall val tok, In (val, tok) edge_schema_keywords -> ~ In tok synthesized_kinds) ->
  (forall L t,
     _state L = STATE_WS_INSENSITIVE ->
     let r := token_generator t L in
     outcome r = inr tt /\ tokens_of r = [t] /\
     indent (lexer_after r) = indent L) /\
  (forall inputstr fname y,
     In y (yields (lex_body' (setinputstr inputstr fname))) ->
     _state (snd y) = STATE_WS_INSENSITIVE ->
     ~ In (type (fst y)) synthesized_kinds) /\
  (forall rule,
     In rule common_rules' -> next_state rule = STATE_WS_INSENSITIVE ->
     In (token rule) ["LPAREN"; "LSBRACKET"; "LCBRACKET"]) /\
  (forall rule,
     In rule common_rules' ->
     next_state rule <> STATE_KEEP -> next_state rule <> STATE_WS_INSENSITIVE ->
     In (token rule) ["RPAREN"; "RSBRACKET"; "RCBRACKET"; "TURNSTILE"]).
Proof.
  intros K. split; [|split; [|split]].
  - intros L t St. cbn zeta.
    destruct (token_generator_ws_insensitive L t St) as (O & T & H & _). auto.
  - intros inputstr fname y Iy St.
    rewrite lex_body_run in Iy.
    assert (Inv0 : lexer_inv (initialized (setinputstr inputstr fname))).
    { apply initialized_inv; [cbn; lia|now left]. }
    destruct (lex_loop_holds edge_schema_keywords group
                (remaining (cursor (setinputstr inputstr fname))) _ Inv0) as [HY _].
    rewrite Forall_forall in HY. destruct (HY y Iy) as [_ H].
    destruct (H St) as (rule & Ir & ->). clear H HY Iy.
    unfold common_rules in Ir. apply in_app_or in Ir as [Ir|Ir].
    + apply keyword_rule_inv in Ir as (val & tok & Ik & ->). cbn. eapply K, Ik.
    + unfold synthesized_kinds.
      repeat (destruct Ir as [<-|Ir];
              [cbn; intros [H|[H|[H|[]]]]; discriminate H|]).
      destruct Ir.
  - intros rule Ir N. unfold common_rules in Ir. apply in_app_or in Ir as [Ir|Ir].
    + apply keyword_rule_inv in Ir as (val & tok & _ & ->). discriminate N.
    + repeat (destruct Ir as [<-|Ir]; [first [discriminate N|cbn; tauto]|]).
      destruct Ir.
  - intros rule Ir N1 N2. unfold common_rules in Ir.
    apply in_app_or in Ir as [Ir|Ir].
    + apply keyword_rule_inv in Ir as (val & tok & _ & ->). now elim N1.
    + repeat (destruct Ir as [<-|Ir];
              [first [now elim N1|now elim N2|cbn; tauto]|]).
      destruct Ir.
Qed.

(** C5. In state WS_SENSITIVE, with no logical line open, for a token other
    than NEWLINE, WS and COMMENT whose indent (its start column - 1) is
    below the top of the stack: the levels above the indent are popped;
    when the indent is a recorded level, one DEDENT (placed at the token's
    start) is yielded per pop, then the token, and the top of the stack is
    the indent; when it is not, an indentation error ("Incorrect unindent")
    is raised at the start line and column of the token, after a DEDENT for
    each pop but the last. *)
Theorem code_unindent (L : Lexer) (t : Token) (last_indent : Z) :
  _state L = STATE_WS_SENSITIVE ->
  logical_line_started L = false ->
  mem (type t) layout_blind = false ->
  indent_inv (indent L) ->
  1 <= column (start t) ->
  last_item (indent L) = Some last_indent ->
  column (start t) - 1 < last_indent ->
  let cur_indent := column (start t) - 1 in
  let r := token_generator t L in
  let pops := length (levels_above cur_indent (indent L)) in
  let dedent := inserted "DEDENT" t pos_start L in
  indent (lexer_after r) = levels_upto cur_indent (indent L) /\
  if recorded cur_indent (indent L)
  then outcome r = inr tt /\
       tokens_of r = repeat dedent pops ++ [t] /\
       last_item (indent (lexer_after r)) = Some cur_indent
  else outcome r = inl (EdgeIndentationError "Incorrect unindent at {position}"
                          (line (start t)) (column (start t))) /\
       tokens_of r = repeat dedent (pred pops).
Proof.
  intros St Lls Ty Inv Col Top Lt. cbn zeta.
  destruct (indent_inv_top _ Inv) as (l & x & E & _).
  rewrite E, last_item_snoc in Top. injection Top as ->.
  unfold token_generator. run. rewrite St, Lls, Ty.
  cbn [Z.eqb STATE_WS_SENSITIVE Pos.eqb negb andb]. run.
  rewrite (bind_indent_top _ L l last_indent E).
  destruct (Z.gtb_spec (column (start t) - 1) last_indent); [lia|].
  destruct (Z.ltb_spec (column (start t) - 1) last_indent); [|lia].
  run.
  rewrite E in Inv.
  destruct (unindent_run (column (start t) - 1) t pos_start l L
              (length (indent L)) last_indent E Inv) as [R1 R2];
    [lia|lia|rewrite E; lia|].
  cbn zeta in R1, R2. rewrite <- E in R1, R2.
  destruct (recorded (column (start t) - 1) (indent L)) eqn:R.
  - destruct R2 as [O T].
    rewrite (bind_inr _ _ _ _ O). run. rewrite R1. fields. rewrite St, Lls. conds.
    run. done_run. rewrite T. cbn [map fst].
    repeat split. apply levels_upto_top; [rewrite E; apply Inv|exact R].
  - destruct R2 as [O T].
    rewrite (bind_inl _ _ _ _ O). done_run. rewrite R1. fields. auto.
Qed.

(** C6. In state RAW_STRING, with a logical line open, for a RAWLEADWS
    token shorter than the top of the stack: an NL is yielded (at the
    token's start) and the levels above the length are popped; when the
    length is a recorded level, one DEDENT (placed at the token's end) is
    yielded per pop, the top of the stack is the length, the pending state
    is WS_SENSITIVE, which the driver then switches to, once, and the
    token is yielded with kind WS; when it is not, an indentation error
    ("Incorrect unindent") is raised at the token's end. *)
Theorem raw_string_unindent (L : Lexer) (t : Token) (last_indent : Z) :
  _state L = STATE_RAW_STRING ->
  logical_line_started L = true ->
  type t = "RAWLEADWS" ->
  indent_inv (indent L) ->
  last_item (indent L) = Some last_indent ->
  Z.of_nat (length (value t)) < last_indent ->
  let cur_indent := Z.of_nat (length (value t)) in
  let r := token_generator t L in
  let pops := length (levels_above cur_indent (indent L)) in
  let nl := inserted "NL" t pos_start L in
  let dedent := inserted "DEDENT" t pos_end L in
  indent (lexer_after r) = levels_upto cur_indent (indent L) /\
  if recorded cur_indent (indent L)
  then outcome r = inr tt /\
       tokens_of r = nl :: repeat dedent pops ++ [set_type "WS" t] /\
       last_item (indent (lexer_after r)) = Some cur_indent /\
       _next_state (lexer_after r) = Some STATE_WS_SENSITIVE /\
       forall rule, next_state rule = STATE_KEEP ->
         let L' := lexer_after (switch_state rule (lexer_after r)) in
         _state L' = STATE_WS_SENSITIVE /\ _next_state L' = None
  else outcome r = inl (unindent_error t pos_end) /\
       tokens_of r = nl :: repeat dedent (pred pops).
Proof.
  intros St Lls Ty Inv Top Lt. cbn zeta.
  destruct (indent_inv_top _ Inv) as (l & x & E & _).
  rewrite E, last_item_snoc in Top. injection Top as ->.
  unfold token_generator. run. rewrite St, Lls, Ty. conds.
  change ("RAWLEADWS" =? "NEWLINE")%string with false.
  change ("RAWLEADWS" =? "RAWLEADWS")%string with true.
  change (mem "RAWLEADWS" layout_blind) with false. conds. run.
  rewrite (bind_indent_top _ L l last_indent E).
  destruct (Z.ltb_spec (Z.of_nat (length (value t))) last_indent); [|lia].
  run.
  rewrite E in Inv.
  destruct (unindent_run (Z.of_nat (length (value t))) t pos_end l L
              (length (indent L)) last_indent E Inv) as [R1 R2];
    [lia|lia|rewrite E; lia|].
  cbn zeta in R1, R2. rewrite <- E in R1, R2.
  destruct (recorded (Z.of_nat (length (value t))) (indent L)) eqn:R.
  - destruct R2 as [O T].
    rewrite (bind_inr _ _ _ _ O). run. rewrite R1. fields. rewrite St, Lls. conds.
    run. done_run. rewrite T. cbn [map fst].
    split; [reflexivity|]. split; [reflexivity|]. split; [reflexivity|].
    split; [apply levels_upto_top; [rewrite E; apply Inv|exact R]|].
    split; [reflexivity|].
    intros rule K. unfold switch_state. run. rewrite K. conds. fields. run.
    done_run. auto.
  - destruct R2 as [O T].
    rewrite (bind_inl _ _ _ _ O). done_run. rewrite R1, T. fields. auto.
Qed.

(** C7. In state RAW_STRING, with no logical line open, for a token other
    than NEWLINE: a RAWLEADWS token longer than the top of the stack pushes
    its length and an INDENT placed at its end is yielded before it; any
    other token whose text is not blank raises an indentation error
    ("Incorrect indentation"), nothing being yielded; any other token whose
    text is blank is yielded alone and the stack is unchanged. *)
Theorem raw_string_indent_required (L : Lexer) (t : Token) (last_indent : Z) :
  _state L = STATE_RAW_STRING ->
  logical_line_started L = false ->
  type t <> "NEWLINE" ->
  last_item (indent L) = Some last_indent ->
  let cur_indent := Z.of_nat (length (value t)) in
  let r := token_generator t L in
  (type t = "RAWLEADWS" /\ last_indent < cur_indent ->
     outcome r = inr tt /\
     indent (lexer_after r) = indent L ++ [cur_indent] /\
     tokens_of r = [inserted "INDENT" t pos_end L; t]) /\
  (~ (type t = "RAWLEADWS" /\ last_indent < cur_indent) ->
     is_blank (value t) = false ->
     outcome r = inl (EdgeIndentationError "Incorrect indentation at {position}"
                        (line (end_ t)) (column (end_ t))) /\
     tokens_of r = [] /\ lexer_after r = L) /\
  (~ (type t = "RAWLEADWS" /\ last_indent < cur_indent) ->
     is_blank (value t) = true ->
     outcome r = inr tt /\
     tokens_of r = [t] /\ indent (lexer_after r) = indent L).
Proof.
  intros St Lls Ty Top. cbn zeta.
  apply String.eqb_neq in Ty.
  destruct (last_item (indent L)) eqn:E in Top; [|discriminate].
  injection Top as ->.
  assert (exists l, indent L = l ++ [last_indent]) as [l El].
  { destruct (indent L) as [|a m] using rev_ind; [discriminate|].
    rewrite last_item_snoc in E. injection E as ->. now exists m. }
  unfold token_generator. run. rewrite St, Lls, Ty. conds. run.
  rewrite (bind_indent_top _ L l last_indent El).
  split; [|split].
  - intros [Ty' Gt]. rewrite Ty'.
    change ("RAWLEADWS" =? "RAWLEADWS")%string with true.
    change (mem "RAWLEADWS" layout_blind) with false. conds.
    destruct (Z.gtb_spec (Z.of_nat (length (value t))) last_indent); [|lia].
    unfold indent_append. run. fields. rewrite St, Lls. conds. run.
    done_run. auto.
  - intros N Bl. rewrite Bl. conds.
    destruct ((type t =? "RAWLEADWS")%string
              && (Z.of_nat (length (value t)) >? last_indent)) eqn:C.
    + exfalso. apply N. apply andb_prop in C as [C1 C2].
      apply String.eqb_eq in C1. split; [exact C1|lia].
    + run. done_run. auto.
  - intros N Bl. rewrite Bl. conds.
    destruct ((type t =? "RAWLEADWS")%string
              && (Z.of_nat (length (value t)) >? last_indent)) eqn:C.
    + exfalso. apply N. apply andb_prop in C as [C1 C2].
      apply String.eqb_eq in C1. split; [exact C1|lia].
    + run. rewrite Lls. conds.
      destruct (mem (type t) layout_blind); conds; run; done_run; auto.
Qed.

(** C8. Provided no keyword pattern matches the empty text: every match of
    a rule of a state's table, and of the error alternative, consumes at
    least one character; so a turn of the driver that ends normally leaves
    the cursor strictly further; and for every input [lex] ends, within as
    many turns as the text has characters, normally or in a lexical error
    (an unknown token or an indentation error). *)
Theorem matches_consume_and_lex_ends :
  keywords_consume' ->
  (forall s rules r z z',
     states' s = Some rules -> In r rules ->
     match_at (regexp r) z = Some z' -> (remaining z' < remaining z)%nat) /\
  (forall z z',
     match_at Pat.err z = Some z' -> (remaining z' < remaining z)%nat) /\
  (forall L,
     lexer_inv L -> outcome (lex_turn' L) = inr tt ->
     (remaining (cursor (lexer_after (lex_turn' L))) < remaining (cursor L))%nat) /\
  (forall inputstr fname,
     match outcome (lex' (setinputstr inputstr fname)) with
     | inr _ => True
     | inl e => lexical_error e
     end).
Proof.
  intros K. split; [|split; [|split]].
  - intros s rules r z z'. now apply rule_progress.
  - intros z z'. now apply match_at_progress.
  - intros L Inv O.
    destruct (lex_turn_holds edge_schema_keywords group L Inv)
      as (rules & S & _ & _ & Q).
    rewrite O in Q. destruct Q as (rule & z' & M & ->).
    destruct (first_match_reaches _ _ _ _ M) as [s R].
    rewrite (reaches_consumed _ _ _ R), (reaches_advance_n _ _ _ R).
    eapply first_match_progress; eassumption.
  - intros inputstr fname.
    destruct (setinputstr_inv inputstr fname []) as [C V].
    destruct (lex_holds edge_schema_keywords group _ C V) as [_ [_ Q]].
    change (set_indent [] (setinputstr inputstr fname))
      with (setinputstr inputstr fname) in Q.
    destruct (outcome (lex' (setinputstr inputstr fname))) as [e|]; [|exact I].
    destruct Q as [Q|[_ Q]]; [exact Q|]. contradiction.
Qed.

End Specification.

(* ================================================================== *)
(** * The properties at concrete inputs *)

Section SampleFacts.
Import Sample.

Lemma sample_keywords_consume : keywords_consume edge_schema_keywords group.
Proof.
  intros val tok z z' I M.
  apply (match_at_progress (group val)); [|exact M].
  destruct I as [E|[E|[]]]; injection E as <- _; reflexivity.
Qed.

Lemma sample_kinds val tok :
  In (val, tok) edge_schema_keywords -> ~ In tok synthesized_kinds.
Proof.
  intros [E|[E|[]]]; injection E as _ <-;
    intros [H|[H|[H|[]]]]; discriminate H.
Qed.

End SampleFacts.

(** A literal matches where the text goes on with it. *)
Lemma lit_match s :
  forall z e k,
    rmatch (Lit s) z e k =
    if is_prefix s (after z) then k (advance_n (length s) z) e else None.
Proof.
  induction s as [|c s IH]; intros z e k; [reflexivity|].
  cbn [Lit rmatch Chr is_prefix length advance_n].
  destruct (after z) as [|c' rest] eqn:E; [reflexivity|].
  destruct (Ascii.eqb c c'); [|reflexivity].
  rewrite IH. unfold advance at 1. rewrite E. reflexivity.
Qed.

(** The pattern of a keyword of the sample table matches where the text
    goes on with the spelling, standing as a whole word, and nowhere
    else. *)
Lemma sample_group_whole_word val z :
  match_at (Sample.group val) z =
  if at_word_boundary z
     && is_prefix (chars val) (after z)
     && at_word_boundary (advance_n (length (chars val)) z)
  then Some (advance_n (length (chars val)) z)
  else None.
Proof.
  unfold match_at, Sample.group. cbn [rmatch]. rewrite lit_match.
  destruct (at_word_boundary z); [|reflexivity].
  destruct (is_prefix (chars val) (after z)); [|reflexivity].
  cbn [rmatch andb].
  destruct (at_word_boundary (advance_n (length (chars val)) z)); reflexivity.
Qed.

Lemma eof_closing_tokens_witness :
  outcome (Sample.lex_text Sample.scenario) = inr tt /\
  indent (lexer_after (Sample.lex_text Sample.scenario)) = [0].
Proof.
  assert (O : outcome (Sample.lex_text Sample.scenario) = inr tt)
    by (vm_compute; reflexivity).
  split; [exact O|].
  apply (eof_closing_tokens Sample.edge_schema_keywords Sample.group
           (chars Sample.scenario) "<string>" O).
Defined.

Lemma keyword_precedence_witness :
  let L := setinputstr (chars "abstract link") "<string>" in
  let z' := advance_n 8 (cursor L) in
  match_at (Sample.group "abstract") (cursor L) = Some z' /\
  match_at Pat.IDENT (cursor L) = Some z' /\
  exists j val_j tok_j z_j,
    nth_error Sample.edge_schema_keywords j = Some (val_j, tok_j) /\
    first_match (common_rules Sample.edge_schema_keywords Sample.group) (cursor L)
    = Some (Some (MkRule tok_j STATE_KEEP (Sample.group val_j)), z_j).
Proof.
  cbn zeta.
  assert (M : match_at (Sample.group "abstract")
                (cursor (setinputstr (chars "abstract link") "<string>"))
              = Some (advance_n 8 (cursor (setinputstr (chars "abstract link") "<string>"))))
    by (vm_compute; reflexivity).
  split; [exact M|]. split; [vm_compute; reflexivity|].
  destruct (keyword_precedence Sample.edge_schema_keywords Sample.group
              STATE_WS_SENSITIVE (setinputstr (chars "abstract link") "<string>")
              0%nat "abstract" "ABSTRACT" _ (or_introl eq_refl) eq_refl eq_refl M)
    as (_ & j & val_j & tok_j & z_j & _ & Hj & _ & FM & _).
  exists j, val_j, tok_j, z_j. split; [exact Hj|exact FM].
Defined.

(** C3 as stated fails: a text that is the spelling of a keyword is lexed as
    IDENT where it does not stand as a whole word.  In ["1link"], after the
    ICONST ["1"], the text at the scan position is ["link"], the spelling
    of a keyword of the table; the pattern of the keyword does not match
    there, for want of a word boundary between ["1"] and ["l"], and the
    identifier rule makes the token. *)
Lemma keyword_spelling_lexed_as_ident :
  let L0 := initialized (setinputstr (chars "1link") "<string>") in
  let L := lexer_after (lex_turn Sample.edge_schema_keywords Sample.group L0) in
  In ("link", "LINK") Sample.edge_schema_keywords /\
  _state L = STATE_WS_SENSITIVE /\
  after (cursor L) = chars "link" /\
  match_at (Sample.group "link") (cursor L) = None /\
  first_match (common_rules Sample.edge_schema_keywords Sample.group) (cursor L) =
    Some (Some IDENT_rule, advance_n 4 (cursor L)) /\
  Sample.kinds_and_texts (Sample.lex_text "1link") =
    [("ICONST", "1"); ("IDENT", "link"); ("NL", "")].
Proof.
  cbn zeta. split; [right; left; reflexivity|].
  repeat split; vm_compute; reflexivity.
Qed.

Lemma ws_insensitive_isolation_witness :
  (forall val tok,
     In (val, tok) Sample.edge_schema_keywords -> ~ In tok synthesized_kinds) /\
  let L := Sample.lexer_at STATE_WS_INSENSITIVE true [0; 4] in
  let t := Sample.token_at "NEWLINE" Sample.LF 2 9 in
  tokens_of (token_generator t L) = [t].
Proof.
  split; [exact sample_kinds|]. cbn zeta.
  apply (ws_insensitive_isolation Sample.edge_schema_keywords Sample.group
           sample_kinds).
  reflexivity.
Defined.

(** C4 as stated fails: when the text ends in state WS_INSENSITIVE, the
    EOF-closing tokens are yielded in that state.  On the text ["("] the
    token after LPAREN is an NL, yielded in state WS_INSENSITIVE.  The
    state is also left without the closer of the bracket: by TURNSTILE
    (["(:="] ends in state RAW_STRING), and by the closer of an inner
    bracket, so that in ["(()\n)"] the newline between the outer brackets
    makes an NL. *)
Lemma ws_insensitive_eof_tokens :
  (exists y,
     In y (yields (Sample.lex_text "(")) /\
     _state (snd y) = STATE_WS_INSENSITIVE /\
     type (fst y) = "NL" /\ In (type (fst y)) synthesized_kinds) /\
  _state (lexer_after (Sample.lex_text "(:=")) = STATE_RAW_STRING /\
  Sample.kinds_and_texts (Sample.lex_text ("(()" ++ Sample.LF ++ ")")) =
    [("LPAREN", "("); ("LPAREN", "("); ("RPAREN", ")"); ("NL", "");
     ("NEWLINE", Sample.LF); ("RPAREN", ")"); ("NL", "")].
Proof.
  split; [|split; vm_compute; reflexivity].
  eexists. split; [vm_compute; right; left; reflexivity|].
  vm_compute. auto 10.
Qed.

Lemma code_unindent_witness :
  let L := Sample.lexer_at STATE_WS_SENSITIVE false [0; 4; 8] in
  let t := Sample.token_at "IDENT" "foo" 3 5 in
  tokens_of (token_generator t L) =
    [inserted "DEDENT" t pos_start L; t] /\
  indent (lexer_after (token_generator t L)) = [0; 4].
Proof.
  cbn zeta.
  pose proof (code_unindent
                (Sample.lexer_at STATE_WS_SENSITIVE false [0; 4; 8])
                (Sample.token_at "IDENT" "foo" 3 5) 8
                eq_refl eq_refl eq_refl) as H.
  cbn zeta in H.
  destruct H as [H1 H2].
  - repeat split. discriminate.
  - cbn. lia.
  - reflexivity.
  - cbn. lia.
  - destruct H2 as (_ & T & _). split; [exact T|exact H1].
Defined.

Lemma raw_string_unindent_witness :
  let L := Sample.lexer_at STATE_RAW_STRING true [0; 4; 8] in
  let t := Sample.token_at "RAWLEADWS" "    " 5 1 in
  tokens_of (token_generator t L) =
    [inserted "NL" t pos_start L; inserted "DEDENT" t pos_end L;
     set_type "WS" t] /\
  indent (lexer_after (token_generator t L)) = [0; 4] /\
  _next_state (lexer_after (token_generator t L)) = Some STATE_WS_SENSITIVE.
Proof.
  cbn zeta.
  pose proof (raw_string_unindent
                (Sample.lexer_at STATE_RAW_STRING true [0; 4; 8])
                (Sample.token_at "RAWLEADWS" "    " 5 1) 8
                eq_refl eq_refl eq_refl) as H.
  cbn zeta in H.
  destruct H as [H1 H2].
  - repeat split. discriminate.
  - reflexivity.
  - cbn. lia.
  - destruct H2 as (_ & T & _ & N & _). split; [exact T|]. split; [exact H1|exact N].
Defined.

Lemma raw_string_indent_required_witness :
  let L := Sample.lexer_at STATE_RAW_STRING false [0; 4] in
  let t := Sample.token_at "RAWLEADWS" "        " 3 1 in
  tokens_of (token_generator t L) = [inserted "INDENT" t pos_end L; t] /\
  indent (lexer_after (token_generator t L)) = [0; 4; 8].
Proof.
  cbn zeta.
  pose proof (raw_string_indent_required
                (Sample.lexer_at STATE_RAW_STRING false [0; 4])
                (Sample.token_at "RAWLEADWS" "        " 3 1) 4) as H.
  cbn zeta in H.
  destruct H as [H _].
  - reflexivity.
  - reflexivity.
  - discriminate.
  - reflexivity.
  - destruct H as (_ & A & T).
    + split; [reflexivity|cbn; lia].
    + split; [exact T|exact A].
Defined.

Lemma matches_consume_and_lex_ends_witness :
  keywords_consume Sample.edge_schema_keywords Sample.group /\
  match outcome (Sample.lex_text Sample.scenario) with
  | inr _ => True
  | inl e => lexical_error e
  end.
Proof.
  split; [exact sample_keywords_consume|].
  apply (matches_consume_and_lex_ends Sample.edge_schema_keywords Sample.group
           sample_keywords_consume).
Defined.

(** C9, as amended.  Lexing ["abstract link foo:\n    bar := 1\n"] yields
    the tokens listed: an INDENT (from the indent of [bar] in the code
    layout), later the TURNSTILE, then a RAWSTRING whose text is the rest of
    the line, [" 1"], then the NL of the NEWLINE that ends the line, and at
    end of input one DEDENT, which leaves the indent stack as [[0]].  The
    layout is the same whether [abstract] and [link] are keywords or not. *)
Theorem scenario_tokens :
  Sample.kinds_and_texts (Sample.lex_text Sample.scenario) =
    [("ABSTRACT", "abstract"); ("WS", " "); ("LINK", "link"); ("WS", " ");
     ("IDENT", "foo"); ("COLON", ":"); ("NL", ""); ("NEWLINE", Sample.LF);
     ("WS", "    "); ("INDENT", ""); ("IDENT", "bar"); ("WS", " ");
     ("TURNSTILE", ":="); ("RAWSTRING", " 1"); ("NL", "");
     ("NEWLINE", Sample.LF); ("DEDENT", "")] /\
  outcome (Sample.lex_text Sample.scenario) = inr tt /\
  indent (lexer_after (Sample.lex_text Sample.scenario)) = [0] /\
  Sample.kinds_and_texts (Sample.lex_text_no_keywords Sample.scenario) =
    [("IDENT", "abstract"); ("WS", " "); ("IDENT", "link"); ("WS", " ");
     ("IDENT", "foo"); ("COLON", ":"); ("NL", ""); ("NEWLINE", Sample.LF);
     ("WS", "    "); ("INDENT", ""); ("IDENT", "bar"); ("WS", " ");
     ("TURNSTILE", ":="); ("RAWSTRING", " 1"); ("NL", "");
     ("NEWLINE", Sample.LF); ("DEDENT", "")].
Proof. vm_compute. auto. Qed.

(** C9 as stated fails: the tokens of the scenario do not hold, in this
    order, a TURNSTILE, an INDENT, a RAWSTRING of text ["1"], an NL and a
    DEDENT; no INDENT follows the TURNSTILE, and no RAWSTRING has the text
    ["1"]. *)
Lemma scenario_tokens_not_in_stated_order :
  Sample.in_order
    [Sample.is_kind "TURNSTILE"; Sample.is_kind "INDENT";
     Sample.is_kind_with_text "RAWSTRING" "1";
     Sample.is_kind "NL"; Sample.is_kind "DEDENT"]
    (tokens_of (Sample.lex_text Sample.scenario)) = false /\
  Sample.in_order [Sample.is_kind "TURNSTILE"; Sample.is_kind "INDENT"]
    (tokens_of (Sample.lex_text Sample.scenario)) = false /\
  existsb (Sample.is_kind_with_text "RAWSTRING" "1")
    (tokens_of (Sample.lex_text Sample.scenario)) = false /\
  Sample.in_order
    [Sample.is_kind "TURNSTILE"; Sample.is_kind "INDENT";
     Sample.is_kind_with_text "RAWSTRING" "1";
     Sample.is_kind "NL"; Sample.is_kind "DEDENT"]
    (tokens_of (Sample.lex_text_no_keywords Sample.scenario)) = false.
Proof. vm_compute. auto. Qed.


(* ================================================================== *)
(** * The specified property of [is_container] *)

Module TypeutilsSpec.
Import Typeutils.

Section Classes.

Variable Class : Type.
Variable class_eqb : Class -> Class -> bool.
Variable issubclass : Class -> Class -> bool.
Variables Container Iterable str bytes bytearray memoryview : Class.
Variable Obj : Type.
Variable class_of : Obj -> Class.

Hypothesis class_eqb_eq : forall a b, class_eqb a b = true -> a = b.

Lemma in_firstn {A} n (l : list A) x : In x (firstn n l) -> In x l.
Proof.
  intros I. rewrite <- (firstn_skipn n l). apply in_or_app. now left.
Qed.

Lemma lru_cache_agrees maxsize f cls c :
  cache_agrees Class f c ->
  fst (lru_cache Class class_eqb maxsize f cls c) = f cls /\
  cache_agrees Class f (snd (lru_cache Class class_eqb maxsize f cls c)).
Proof.
  intros Ag. unfold lru_cache, lookup.
  destruct (find _ c) as [[k v]|] eqn:F; cbn.
  - apply find_some in F as [I E]. cbn in E. apply class_eqb_eq in E. subst k.
    pose proof (Ag _ _ I) as ->. split; [reflexivity|].
    intros k v [E|I']; [now injection E as <- <-|].
    apply filter_In in I' as [I' _]. now apply Ag.
  - split; [reflexivity|].
    intros k v I. apply in_firstn in I. destruct I as [E|I]; [now injection E as <- <-|].
    now apply Ag.
Qed.

#[local] Abbreviation is_container' :=
  (is_container Class class_eqb issubclass Container Iterable str bytes
                bytearray memoryview Obj class_of).
#[local] Abbreviation caches_agree' :=
  (caches_agree Class issubclass Container Iterable str bytes bytearray memoryview).

(** C10. Whatever the two caches remember of earlier calls,
    [is_container obj] is True if and only if the class of [obj] is a
    subclass of both Container and Iterable and of none of str, bytes,
    bytearray and memoryview; in particular it is False for every instance
    of str and of bytes.  The caches keep agreeing with the functions they
    wrap. *)
Theorem is_container_spec (obj : Obj) (st : Caches Class) :
  caches_agree' st ->
  let cls := class_of obj in
  let v := fst (is_container' obj st) in
  (v = true <->
   issubclass cls Container = true /\ issubclass cls Iterable = true /\
   issubclass cls str = false /\ issubclass cls bytes = false /\
   issubclass cls bytearray = false /\ issubclass cls memoryview = false) /\
  (issubclass cls str = true \/ issubclass cls bytes = true -> v = false) /\
  caches_agree' (snd (is_container' obj st)).
Proof.
  intros [Ac Ai]. cbn zeta.
  unfold is_container, _is_container_type, _is_iterable_type.
  destruct (lru_cache_agrees 1024 _ (class_of obj) _ Ac) as [Vc Ac'].
  destruct (lru_cache Class class_eqb 1024 _ (class_of obj) (container_cache Class st))
    as [a c1]. cbn in Vc, Ac'. subst a.
  destruct (lru_cache_agrees 1024 _ (class_of obj) _ Ai) as [Vi Ai'].
  unfold _is_container_type_body, _is_iterable_type_body, issubclass_any in *.
  cbn [existsb].
  destruct (issubclass (class_of obj) Container);
    destruct (issubclass (class_of obj) str);
    destruct (issubclass (class_of obj) bytes);
    destruct (issubclass (class_of obj) bytearray);
    destruct (issubclass (class_of obj) memoryview); cbn;
    try (destruct (lru_cache Class class_eqb 1024 _ (class_of obj) (iterable_cache Class st))
          as [b c2]; cbn in Vi, Ai' |- *; subst b;
         destruct (issubclass (class_of obj) Iterable));
    (split; [split; [try discriminate; auto 10|intros (?&?&?&?&?&?); congruence]|]);
    (split; [intros [?|?]; congruence|]); split; cbn; auto.
Qed.

End Classes.

End TypeutilsSpec.

Lemma is_container_spec_witness :
  fst (Typeutils.py_is_container (Typeutils.c_str, "abc") Typeutils.no_calls_yet)
  = false /\
  Typeutils.py_issubclass Typeutils.c_str Typeutils.c_Container = true /\
  Typeutils.py_issubclass Typeutils.c_str Typeutils.c_Iterable = true.
Proof.
  split; [|split; reflexivity].
  apply (TypeutilsSpec.is_container_spec
           Typeutils.PyClass Typeutils.pyclass_eqb Typeutils.py_issubclass
           Typeutils.c_Container Typeutils.c_Iterable Typeutils.c_str
           Typeutils.c_bytes Typeutils.c_bytearray Typeutils.c_memoryview
           Typeutils.PyObj fst).
  - intros a b. destruct a, b; (reflexivity || discriminate).
  - split; intros k v [].
  - left. reflexivity.
Defined.

(* ================================================================== *)
(** * Further properties of the lexer *)

(** ** The tokens spell the text *)
Lemma indent_top_cases L :
  (indent L = [] /\ indent_top L = raise IndexError L) \/
  (exists l x, indent L = l ++ [x] /\ indent_top L = ret x L).
Proof.
  destruct (indent L) as [|x l _] eqn:E using rev_ind.
  - left. split; [reflexivity|]. unfold indent_top. now rewrite bind_get, E.
  - right. exists l, x. split; [reflexivity|]. now apply indent_top_run with l.
Qed.

Lemma holds_indent_top {B} Y (Q : Exn + B -> Lexer -> Prop) (f : Z -> Gen B) L :
  Q (inl IndexError) L ->
  (forall x, holds Y Q (f x L)) ->
  holds Y Q ((top <- indent_top ;; f top) L).
Proof.
  intros E H. destruct (indent_top_cases L) as [[_ R]|(l & x & _ & R)].
  - rewrite bind_inl with (e := IndexError); rewrite R; [|reflexivity].
    split; [constructor|exact E].
  - rewrite bind_inr with (a := x); rewrite R; [|reflexivity].
    rewrite after_no_yields. apply H.
Qed.

Lemma indent_pop_cases L :
  (indent L = [] /\ indent_pop L = raise IndexError L) \/
  (indent L <> [] /\ indent_pop L = modify (set_indent (removelast (indent L))) L).
Proof.
  unfold indent_pop. rewrite bind_get. destruct (indent L); [left|right]; split;
    try reflexivity. discriminate.
Qed.

Lemma holds_indent_pop {B} Y (Q : Exn + B -> Lexer -> Prop) (f : unit -> Gen B) L :
  Q (inl IndexError) L ->
  (indent L <> [] -> holds Y Q (f tt (set_indent (removelast (indent L)) L))) ->
  holds Y Q ((u <- indent_pop ;; f u) L).
Proof.
  intros E H. destruct (indent_pop_cases L) as [[_ R]|[N R]].
  - rewrite bind_inl with (e := IndexError); rewrite R; [|reflexivity].
    split; [constructor|exact E].
  - rewrite bind_inr with (a := tt); rewrite R; [|reflexivity].
    rewrite after_no_yields. now apply H.
Qed.

(** The unindent loop yields tokens without text, and does not move the cursor. *)
Lemma unindent_synthetic cur t pos :
  forall fuel L,
    holds synthetic (fun (o : Exn + unit) L' => cursor L' = cursor L /\ from_layout o)
          (unindent fuel cur t pos L).
Proof.
  induction fuel as [|fuel IH]; intros L; cbn [unindent];
    apply holds_indent_top; try (now split); intros x;
    (destruct (x >? cur); [|now apply holds_ret]).
  - now apply holds_raise.
  - apply holds_indent_pop; [now split|]. intros _.
    apply holds_indent_top; [now split|]. intros y.
    destruct (y <? cur); run; [now apply holds_raise|].
    apply holds_after; [repeat constructor|].
    eapply holds_conseq; [apply IH|]. auto.
Qed.

Lemma indentation_part_synthetic t L :
  holds synthetic (hands_on t L) (indentation_part t L).
Proof.
  assert (R : forall L', cursor L' = cursor L -> 
              holds synthetic (hands_on t L) (ret t L')).
  { intros L' H. apply holds_ret. repeat split; auto. }
  assert (U : forall fuel cur pos L' (f : unit -> Gen Token),
              cursor L' = cursor L ->
              (forall L'', cursor L'' = cursor L ->
                           holds synthetic (hands_on t L) (f tt L'')) ->
              holds synthetic (hands_on t L)
                    ((u <- unindent fuel cur t pos ;; f u) L')).
  { intros fuel cur pos L' f C F. apply holds_bind.
    eapply holds_conseq; [apply unindent_synthetic|].
    cbn beta. intros [e|[]] L'' [H1 H2]; [repeat split; [congruence|exact H2]|].
    apply F. congruence. }
  unfold indentation_part. cbn zeta. run.
  destruct (_ && _ && _).
  - apply holds_indent_top; [now repeat split|]. intros x.
    destruct (_ >? x).
    + unfold indent_append. run. apply holds_after; [repeat constructor|].
      now apply R.
    + destruct (_ <? x); [|now apply R].
      apply U; [reflexivity|]. intros L'' C. now apply R.
  - destruct (_state L =? STATE_RAW_STRING); [|now apply R].
    apply holds_indent_top; [now repeat split|]. intros x.
    destruct (_ && _).
    + destruct (_ && _).
      * unfold indent_append. run. apply holds_after; [repeat constructor|].
        now apply R.
      * destruct (negb _); [now apply holds_raise|now apply R].
    + destruct (_ && _); [|now apply R].
      run. apply holds_after; [repeat constructor|].
      apply U; [reflexivity|]. intros L'' C. run.
      apply holds_ret. repeat split; auto.
Qed.

Lemma texts_synthetic ys : Forall synthetic ys -> concat (map text (map fst ys)) = [].
Proof.
  induction 1 as [|y ys H _ IH]; [reflexivity|]. cbn. unfold synthetic in H.
  now rewrite H, IH.
Qed.

Lemma newline_part_texts ty t L :
  let r := newline_part ty t L in
  outcome r = inr tt /\ texts_of r = text t /\ cursor (lexer_after r) = cursor L.
Proof.
  cbn zeta. unfold newline_part, texts_of. run.
  destruct (_ && _ && _).
  - run. done_run. cbn. now rewrite app_nil_r.
  - destruct (negb (mem ty layout_blind)); run; done_run; cbn; now rewrite app_nil_r.
Qed.

(** Whatever the synthesizer yields before the token has no text; the
    token it ends with has the text it was given. *)
Lemma token_generator_texts t L :
  let r := token_generator t L in
  cursor (lexer_after r) = cursor L /\ from_layout (outcome r) /\
  texts_of r = match outcome r with inr _ => text t | inl _ => [] end.
Proof.
  cbn zeta. rewrite token_generator_parts.
  destruct (indentation_part_synthetic t L) as [HY (HC & HL & HQ)].
  destruct (outcome (indentation_part t L)) as [e|t'] eqn:E.
  - rewrite (bind_inl _ _ _ _ E). done_run. split; [exact HC|]. split; [exact HL|].
    unfold texts_of. done_run. now apply texts_synthetic.
  - rewrite (bind_inr _ _ _ _ E). done_run.
    destruct (newline_part_texts (type t) t' (lexer_after (indentation_part t L)))
      as (O & T & C).
    rewrite O. split; [congruence|]. split; [exact Logic.I|].
    unfold texts_of in *. rewrite tokens_after, map_app, concat_app, T.
    rewrite (texts_synthetic _ HY). destruct HQ as [-> | ->]; reflexivity.
Qed.

Lemma texts_after {A B} (r1 : Run A) (r2 : Run B) :
  texts_of (after_yields (yields r1) r2) = texts_of r1 ++ texts_of r2.
Proof. unfold texts_of. now rewrite tokens_after, map_app, concat_app. Qed.

Lemma texts_same_yields {A B} (r : Run A) (o : Exn + B) L :
  texts_of (MkRun (yields r) o L) = texts_of r.
Proof. reflexivity. Qed.

Lemma switch_state_cursor rule L :
  outcome (switch_state rule L) = inr tt /\
  cursor (lexer_after (switch_state rule L)) = cursor L.
Proof.
  unfold switch_state. run.
  destruct (_ && _); [now split|].
  destruct (_next_state L); run; now split.
Qed.

Section Lossless.

Variable edge_schema_keywords : list (string * string).
Variable group : string -> re.

#[local] Abbreviation lex_turn' := (lex_turn edge_schema_keywords group).
#[local] Abbreviation lex_loop' := (lex_loop edge_schema_keywords group).
#[local] Abbreviation lex' := (lex edge_schema_keywords group).

Lemma lex_turn_texts L :
  let r := lex_turn' L in
  match outcome r with
  | inr _ => reaches (cursor L) (cursor (lexer_after r)) (texts_of r)
  | inl _ => leaves L r (after (cursor L))
  end.
Proof.
  cbn zeta. unfold lex_turn. run.
  destruct (states _ _ _) as [rules|]; [|split; [reflexivity|discriminate]].
  destruct (first_match rules (cursor L)) as [[[rule|] z']|] eqn:M;
    [| |split; [reflexivity|discriminate]].
  - rewrite bind_token_from_text.
    destruct (first_match_reaches _ _ _ _ M) as [s R].
    rewrite (reaches_consumed _ _ _ R).
    set (t := built_token (token rule) s L).
    set (L1 := moved (token rule) s L).
    assert (C1 : cursor L1 = z') by (apply (reaches_advance_n _ _ _ R)).
    destruct (token_generator_texts t L1) as (C & FL & T).
    destruct (outcome (token_generator t L1)) as [e|[]] eqn:O.
    + rewrite (bind_inl _ _ _ _ O). rewrite outcome_mk. unfold leaves.
      rewrite texts_same_yields, T, outcome_mk. split; [reflexivity|].
      intros txt l c E. injection E as ->. destruct FL.
    + rewrite (bind_inr _ _ _ _ O).
      destruct (switch_state_cursor rule (lexer_after (token_generator t L1)))
        as [O2 C2].
      rewrite outcome_after, lexer_after_after, O2, C2, C, C1.
      rewrite texts_after, T.
      unfold texts_of. rewrite switch_state_tokens, app_nil_r. exact R.
  - unfold handle_error. run. rewrite outcome_raise. split; [reflexivity|].
    intros txt l c E. injection E as <- _ _.
    unfold first_match in M. destruct (first_rule rules (cursor L)) as [[? ?]|];
      [discriminate|].
    unfold match_at, Pat.err, Pat.dot in M. cbn in M.
    destruct (after (cursor L)) as [|ch rest'] eqn:A; [discriminate|].
    destruct (Chars.not_nl ch) eqn:N; [|discriminate].
    cbn in M. injection M as <-.
    exists ch, rest'. split; [reflexivity|]. split.
    + apply reaches_consumed. now apply reaches_advance with rest'.
    + unfold Chars.not_nl in N. now apply negb_true_iff in N.
Qed.

Lemma lex_loop_texts :
  forall fuel L,
    let r := lex_loop' fuel L in
    exists rest, leaves L r rest /\ (outcome r = inr tt -> rest = []).
Proof.
  induction fuel as [|fuel IH]; intros L; cbn zeta; cbn [lex_loop]; run;
    destruct (after (cursor L)) as [|c0 aft] eqn:A.
  - exists []. split; [split; [now rewrite A|discriminate]|auto].
  - exists (c0 :: aft). split; [split; [now rewrite A|discriminate]|discriminate].
  - exists []. split; [split; [now rewrite A|discriminate]|auto].
  - pose proof (lex_turn_texts L) as T. cbn zeta in T.
    destruct (outcome (lex_turn' L)) as [e|[]] eqn:O.
    + rewrite (bind_inl _ _ _ _ O). rewrite A in T. exists (c0 :: aft).
      split; [|rewrite outcome_mk; discriminate]. destruct T as [T1 T2]. split.
      * rewrite texts_same_yields. exact T1.
      * intros txt l c E. rewrite outcome_mk in E. apply (T2 txt l c).
        now rewrite O.
    + rewrite (bind_inr _ _ _ _ O).
      destruct (IH (lexer_after (lex_turn' L))) as (rest & [I1 I2] & I3).
      exists rest. split; [split|].
      * destruct T as [T _]. rewrite T, I1.
        rewrite texts_after.
        now rewrite app_assoc.
      * intros txt l c E. rewrite outcome_after in E. eauto.
      * rewrite outcome_after. exact I3.
Qed.

Lemma eof_dedents_synthetic :
  forall fuel L,
    holds synthetic (fun (o : Exn + unit) _ => from_layout o) (eof_dedents fuel L).
Proof.
  induction fuel as [|fuel IH]; intros L; cbn [eof_dedents];
    apply holds_indent_top; try exact Logic.I; intros x;
    (destruct (x >? 0); [|now apply holds_ret]).
  - now apply holds_raise.
  - apply holds_indent_pop; [exact Logic.I|]. intros _. run.
    rewrite bind_token_from_text. run.
    apply holds_after; [repeat constructor|]. apply IH.
Qed.

Lemma get_eof_tokens_synthetic L :
  holds synthetic (fun (o : Exn + unit) _ => from_layout o) (get_eof_tokens L).
Proof.
  unfold get_eof_tokens. run. destruct (logical_line_started L); run.
  - rewrite bind_token_from_text. run.
    apply holds_after; [repeat constructor|].
    destruct (_ >? 1); [apply eof_dedents_synthetic|now apply holds_ret].
  - destruct (_ >? 1); [apply eof_dedents_synthetic|now apply holds_ret].
Qed.

(** X1. The texts of the tokens [lex] yields, one after the other, are the
    text that was lexed, up to where lexing stopped: all of it on a normal
    end, and on an [UnknownTokenError] all but a rest that starts with the
    one character the error reports, which is not a line feed.  Tokens made
    by [insert_token] and by [get_eof_tokens] add no text. *)
Theorem lexing_is_lossless (inputstr : list ascii) (fname : string) :
  let r := lex' (setinputstr inputstr fname) in
  exists rest,
    inputstr = texts_of r ++ rest /\
    (outcome r = inr tt -> rest = []) /\
    (forall txt l c,
       outcome r = inl (UnknownTokenError txt l c) ->
       exists ch rest', rest = ch :: rest' /\ txt = [ch] /\ Chars.is_nl ch = false).
Proof.
  cbn zeta. rewrite lex_parts.
  set (L0 := setinputstr inputstr fname).
  destruct (lex_loop_texts (remaining (cursor L0)) (initialized L0))
    as (rest & [T U] & N).
  rewrite <- lex_body_run in T, U, N.
  change (after (cursor (initialized L0))) with inputstr in T.
  exists rest.
  destruct (outcome (lex_body edge_schema_keywords group L0)) as [e|[]] eqn:O.
  - rewrite (bind_inl _ _ _ _ O), texts_same_yields, outcome_mk.
    split; [exact T|]. split; [discriminate|]. intros txt l c E. eauto.
  - rewrite (bind_inr _ _ _ _ O), texts_after, outcome_after.
    destruct (get_eof_tokens_synthetic
                (lexer_after (lex_body edge_schema_keywords group L0))) as [Y F].
    unfold texts_of at 2. unfold tokens_of. rewrite (texts_synthetic _ Y), app_nil_r.
    split; [exact T|]. split; [auto|].
    intros txt l c E. rewrite E in F. destruct F.
Qed.

End Lossless.

Lemma lexing_is_lossless_witness :
  outcome (Sample.lex_text Sample.scenario) = inr tt /\
  texts_of (Sample.lex_text Sample.scenario) = chars Sample.scenario.
Proof.
  split; [reflexivity|].
  destruct (lexing_is_lossless Sample.edge_schema_keywords Sample.group
              (chars Sample.scenario) "<string>") as (rest & E & N & _).
  rewrite (N eq_refl), app_nil_r in E. symmetry. exact E.
Defined.

(* ================================================================== *)
(** ** INDENT and DEDENT tokens follow the indent stack *)

Lemma nesting_app a b : nesting (a ++ b) = nesting a + nesting b.
Proof. induction a as [|t a IH]; cbn; [reflexivity|]. rewrite IH. lia. Qed.

Lemma tracked_app d a b :
  tracked d (a ++ b) <-> tracked d a /\ tracked (d + nesting (map fst a)) b.
Proof.
  revert d. induction a as [|y a IH]; intros d; cbn.
  - rewrite Z.add_0_r. tauto.
  - rewrite IH. rewrite Z.add_assoc. tauto.
Qed.

Lemma nesting_counts ts :
  nesting ts = Z.of_nat (count_kind "INDENT" ts) - Z.of_nat (count_kind "DEDENT" ts).
Proof.
  unfold count_kind. induction ts as [|t ts IH]; [reflexivity|].
  cbn [nesting filter]. rewrite IH. unfold level_change.
  destruct (String.eqb (type t) "INDENT") eqn:I.
  - apply String.eqb_eq in I. rewrite I.
    change (String.eqb "INDENT" "INDENT") with true.
    change (String.eqb "INDENT" "DEDENT") with false.
    cbn [length]. lia.
  - destruct (String.eqb (type t) "DEDENT"); cbn [length]; lia.
Qed.

(** Up to each yield of tracked ones, the INDENT tokens are as many as the
    DEDENT tokens and the levels the stack gained. *)
Lemma tracked_prefix d ys1 y ys2 :
  tracked d (ys1 ++ y :: ys2) ->
  d + nesting (map fst (ys1 ++ [y])) = height (snd y).
Proof.
  intros H. apply tracked_app in H. destruct H as [_ H].
  cbn [tracked] in H. destruct H as [H _].
  rewrite map_app, nesting_app. cbn [map nesting]. rewrite Z.add_0_r, Z.add_assoc. exact H.
Qed.

Section Tracks.
Context {A : Type}.

Lemma tracks_ret (a : A) L : tracks (height L) (ret a L).
Proof. split; [exact Logic.I|]. intros _ _. cbn. lia. Qed.

Lemma tracks_raise d (e : Exn) L : tracks d (@raise A e L).
Proof. split; [exact Logic.I|]. discriminate. Qed.

Lemma tracks_after d ys (r : Run A) :
  tracked d ys -> tracks (d + nesting (map fst ys)) r -> tracks d (after_yields ys r).
Proof.
  intros H [T E]. split.
  - cbn. apply tracked_app. now split.
  - intros a O. rewrite tokens_after, nesting_app, lexer_after_after.
    rewrite outcome_after in O. specialize (E a O). lia.
Qed.

End Tracks.

Lemma tracks_bind {A B} d (m : Gen A) (k : A -> Gen B) L :
  tracks d (m L) ->
  (forall a, outcome (m L) = inr a ->
             tracks (height (lexer_after (m L))) (k a (lexer_after (m L)))) ->
  tracks d ((x <- m ;; k x) L).
Proof.
  intros [T E] K. destruct (outcome (m L)) as [e|a] eqn:O.
  - rewrite (bind_inl _ _ _ _ O). split; [exact T|]. discriminate.
  - rewrite (bind_inr _ _ _ _ O). apply tracks_after; [exact T|].
    rewrite tokens_fold, (E a eq_refl). now apply K.
Qed.

Lemma tracks_indent_top {B} d (f : Z -> Gen B) L :
  (forall x, tracks d (f x L)) -> tracks d ((top <- indent_top ;; f top) L).
Proof.
  intros H. destruct (indent_top_cases L) as [[_ R]|(l & x & _ & R)].
  - rewrite bind_inl with (e := IndexError); rewrite R; [|reflexivity].
    split; [exact Logic.I|]. discriminate.
  - rewrite bind_inr with (a := x); rewrite R; [|reflexivity].
    rewrite after_no_yields. apply H.
Qed.

Lemma tracks_indent_pop {B} d (f : unit -> Gen B) L :
  (indent L <> [] -> tracks d (f tt (set_indent (removelast (indent L)) L))) ->
  tracks d ((u <- indent_pop ;; f u) L).
Proof.
  intros H. destruct (indent_pop_cases L) as [[_ R]|[N R]].
  - rewrite bind_inl with (e := IndexError); rewrite R; [|reflexivity].
    split; [exact Logic.I|]. discriminate.
  - rewrite bind_inr with (a := tt); rewrite R; [|reflexivity].
    cbn. rewrite after_no_yields. now apply H.
Qed.

Lemma height_pop L :
  indent L <> [] -> height (set_indent (removelast (indent L)) L) = height L - 1.
Proof.
  intros N. unfold height. cbn. destruct (indent L) as [|x l _] using rev_ind; [easy|].
  rewrite removelast_last, length_app. cbn. lia.
Qed.

Lemma height_push L x :
  height (set_indent (indent L ++ [x]) L) = height L + 1.
Proof. unfold height. cbn. rewrite length_app. cbn. lia. Qed.

(** Each turn of an unindent loop pops a level and yields a DEDENT. *)
Lemma unindent_tracks cur t pos :
  forall fuel L, tracks (height L) (unindent fuel cur t pos L).
Proof.
  induction fuel as [|fuel IH]; intros L; cbn [unindent];
    apply tracks_indent_top; intros x;
    (destruct (x >? cur); [|apply tracks_ret]).
  - apply tracks_raise.
  - apply tracks_indent_pop. intros N.
    apply tracks_indent_top. intros y.
    destruct (y <? cur); run; [apply tracks_raise|].
    apply tracks_after.
    + cbn. rewrite height_pop by exact N. split; [lia|exact Logic.I].
    + cbn. replace (height L + -1)
        with (height (set_indent (removelast (indent L)) L))
        by (rewrite height_pop by exact N; lia).
      apply IH.
Qed.

Lemma level_change_WS t : level_change (set_type "WS" t) = 0.
Proof. reflexivity. Qed.

(** The indentation part of [token_generator]: a level pushed comes with an
    INDENT, a level popped with a DEDENT. *)
Lemma indentation_part_tracks t L :
  tracks (height L) (indentation_part t L).
Proof.
  assert (U : forall fuel cur pos L' (f : unit -> Gen Token),
              (forall L'', tracks (height L'') (f tt L'')) ->
              tracks (height L') ((u <- unindent fuel cur t pos ;; f u) L')).
  { intros fuel cur pos L' f F. apply tracks_bind; [apply unindent_tracks|].
    intros [] _. apply F. }
  unfold indentation_part. cbn zeta. run.
  destruct (_ && _ && _).
  - apply tracks_indent_top. intros x.
    destruct (_ >? x).
    + unfold indent_append. run. apply tracks_after.
      * cbn. rewrite height_push. split; [lia|exact Logic.I].
      * cbn. replace (height L + 1) with (height (set_indent (indent L ++ [column (start t) - 1]) L))
          by (rewrite height_push; lia).
        apply tracks_ret.
    + destruct (_ <? x); [|apply tracks_ret].
      apply U. intros L''. apply tracks_ret.
  - destruct (_state L =? STATE_RAW_STRING); [|apply tracks_ret].
    apply tracks_indent_top. intros x.
    destruct (_ && _).
    + destruct (_ && _).
      * unfold indent_append. run. apply tracks_after.
        -- cbn. rewrite height_push. split; [lia|exact Logic.I].
        -- cbn. 
           replace (height L + 1)
             with (height (set_indent (indent L ++ [Z.of_nat (length (value t))]) L))
             by (rewrite height_push; lia).
           apply tracks_ret.
      * destruct (negb _); [apply tracks_raise|apply tracks_ret].
    + destruct (_ && _); [|apply tracks_ret].
      run. apply tracks_after; [cbn; split; [lia|exact Logic.I]|].
      cbn. rewrite Z.add_0_r. apply U. intros L''. run.
      apply (tracks_ret (set_type "WS" t) (set_next_state (Some STATE_WS_SENSITIVE) L'')).
Qed.

Lemma newline_part_tracks ty t L :
  level_change t = 0 -> tracks (height L) (newline_part ty t L).
Proof.
  intros Z0. unfold newline_part. run.
  destruct (_ && _ && _).
  - run. apply tracks_after; [cbn; split; [lia|exact Logic.I]|].
    cbn. rewrite Z.add_0_r. unfold yield.
    split; [cbn; rewrite Z0; split; [unfold height; cbn; lia|exact Logic.I]|].
    intros _ _. cbn. rewrite Z0. unfold height. cbn. lia.
  - destruct (negb (mem ty layout_blind)); run; unfold yield;
      (split; [cbn; rewrite Z0; split; [unfold height; cbn; lia|exact Logic.I]|]);
      intros _ _; cbn; rewrite Z0; unfold height; cbn; lia.
Qed.

(** [token_generator], for a token of another kind than INDENT and DEDENT. *)
Lemma token_generator_tracks t L :
  level_change t = 0 -> tracks (height L) (token_generator t L).
Proof.
  intros Z0. rewrite token_generator_parts. apply tracks_bind.
  - apply indentation_part_tracks.
  - intros t' O. apply newline_part_tracks.
    destruct (indentation_part_synthetic t L) as [_ (_ & _ & H)].
    rewrite O in H. destruct H as [-> | ->]; [exact Z0|reflexivity].
Qed.

Lemma switch_state_indent rule L :
  yields (switch_state rule L) = [] /\
  indent (lexer_after (switch_state rule L)) = indent L.
Proof.
  unfold switch_state. run. destruct (_ && _); [now split|].
  destruct (_next_state L); run; now split.
Qed.

Section Balance.

Variable edge_schema_keywords : list (string * string).
Variable group : string -> re.

#[local] Abbreviation states' := (states edge_schema_keywords group).
#[local] Abbreviation lex_turn' := (lex_turn edge_schema_keywords group).
#[local] Abbreviation lex_loop' := (lex_loop edge_schema_keywords group).
#[local] Abbreviation lex' := (lex edge_schema_keywords group).
#[local] Abbreviation lex_body' := (lex_body edge_schema_keywords group).

Hypothesis kinds : no_layout_keyword edge_schema_keywords.

Lemma rule_level_change s rules rule txt L :
  states' s = Some rules -> In rule rules ->
  level_change (built_token (token rule) txt L) = 0.
Proof.
  intros S I.
  assert (C : In rule (common_rules edge_schema_keywords group) ->
              level_change (built_token (token rule) txt L) = 0).
  { intros H. apply in_app_or in H. destruct H as [H|H].
    - apply keyword_rule_inv in H. destruct H as (val & tok & H & ->).
      destruct (kinds val tok H) as [N1 N2].
      unfold level_change. cbn.
      apply String.eqb_neq in N1, N2. now rewrite N1, N2.
    - cbn in H. repeat (destruct H as [<- | H]; [reflexivity|]). destruct H. }
  unfold states in S.
  destruct (s =? STATE_WS_SENSITIVE); [injection S as <-; auto|].
  destruct (s =? STATE_WS_INSENSITIVE); [injection S as <-; auto|].
  destruct (s =? STATE_RAW_STRING); [|discriminate]. injection S as <-.
  cbn in I. repeat (destruct I as [<- | I]; [reflexivity|]). destruct I.
Qed.

Lemma lex_turn_tracks L : tracks (height L) (lex_turn' L).
Proof.
  unfold lex_turn. run.
  destruct (states' (_state L)) as [rules|] eqn:S; [|apply tracks_raise].
  destruct (first_match rules (cursor L)) as [[[rule|] z']|] eqn:M;
    [| unfold handle_error; run; apply tracks_raise | apply tracks_raise].
  rewrite bind_token_from_text.
  assert (I : In rule rules).
  { unfold first_match in M. destruct (first_rule rules (cursor L)) as [[r z'']|] eqn:F.
    - injection M as <- <-. now apply first_rule_in in F.
    - destruct (match_at Pat.err (cursor L)); discriminate. }
  change (height L) with (height (moved (token rule) (consumed (cursor L) z') L)).
  apply tracks_bind.
  - apply token_generator_tracks. now apply rule_level_change with (_state L) rules.
  - intros [] _. destruct (switch_state_indent rule
      (lexer_after (token_generator (built_token (token rule) (consumed (cursor L) z') L)
                      (moved (token rule) (consumed (cursor L) z') L)))) as [Y I'].
    split; [rewrite Y; exact Logic.I|]. intros _ _. unfold tokens_of. rewrite Y.
    cbn [map nesting]. unfold height. rewrite I'. lia.
Qed.

Lemma lex_loop_tracks : forall fuel L, tracks (height L) (lex_loop' fuel L).
Proof.
  induction fuel as [|fuel IH]; intros L; cbn [lex_loop]; run;
    (destruct (after (cursor L)); [apply tracks_ret|]).
  - apply tracks_raise.
  - apply tracks_bind; [apply lex_turn_tracks|]. intros [] _. apply IH.
Qed.

Lemma height_moved rt txt L : height (moved rt txt L) = height L.
Proof. reflexivity. Qed.

Lemma eof_dedents_tracks : forall fuel L, tracks (height L) (eof_dedents fuel L).
Proof.
  induction fuel as [|fuel IH]; intros L; cbn [eof_dedents];
    apply tracks_indent_top; intros x;
    (destruct (x >? 0); [|apply tracks_ret]).
  - apply tracks_raise.
  - apply tracks_indent_pop. intros N. run.
    rewrite bind_token_from_text. run.
    apply tracks_after.
    + cbn [tracked fst snd]. rewrite height_moved, height_pop by exact N.
      split; [reflexivity|exact Logic.I].
    + cbn [map fst nesting].
      replace (height L + (level_change (built_token "DEDENT" [] (set_indent (removelast (indent L)) L)) + 0))
        with (height (moved "DEDENT" [] (set_indent (removelast (indent L)) L)))
        by (rewrite height_moved, height_pop by exact N; cbn; lia).
      apply IH.
Qed.

Lemma get_eof_tokens_tracks L : tracks (height L) (get_eof_tokens L).
Proof.
  unfold get_eof_tokens. run. destruct (logical_line_started L); run.
  - rewrite bind_token_from_text. run.
    apply tracks_after;
      [cbn [tracked fst snd]; rewrite height_moved; split; [cbn; lia|exact Logic.I]|].
    cbn [map fst nesting].
    replace (height L + (level_change (built_token "NL" [] L) + 0))
      with (height (moved "NL" [] L)) by (rewrite height_moved; cbn; lia).
    destruct (_ >? 1); [apply eof_dedents_tracks|apply tracks_ret].
  - destruct (_ >? 1); [apply eof_dedents_tracks|apply tracks_ret].
Qed.

Lemma lex_tracks L : tracks 1 (lex' L).
Proof.
  rewrite lex_parts. apply tracks_bind.
  - rewrite lex_body_run. apply (lex_loop_tracks _ (initialized L)).
  - intros [] _. apply get_eof_tokens_tracks.
Qed.

(** X2. Provided INDENT and DEDENT are kinds of no keyword: up to every
    token [lex] yields, the INDENT tokens yielded are as many as the DEDENT
    tokens yielded and the levels of the indent stack above the base level
    at that yield, so that no DEDENT comes without an INDENT before it; and
    when [lex] ends normally it has yielded as many DEDENT tokens as INDENT
    tokens. *)
Theorem indents_match_dedents (inputstr : list ascii) (fname : string) :
  let r := lex' (setinputstr inputstr fname) in
  (forall ys1 y ys2,
     yields r = ys1 ++ y :: ys2 ->
     let ts := map fst (ys1 ++ [y]) in
     (count_kind "INDENT" ts + 1 =
      count_kind "DEDENT" ts + length (indent (snd y)))%nat) /\
  (outcome r = inr tt ->
   count_kind "INDENT" (tokens_of r) = count_kind "DEDENT" (tokens_of r)).
Proof.
  cbn zeta. destruct (lex_tracks (setinputstr inputstr fname)) as [T E]. split.
  - intros ys1 y ys2 Y. rewrite Y in T. apply tracked_prefix in T.
    rewrite nesting_counts in T. unfold height in T. lia.
  - intros O. specialize (E tt O). rewrite nesting_counts in E.
    destruct (lex_holds edge_schema_keywords group (setinputstr inputstr fname))
      as [_ [_ H]]; [cbn; lia|now left|].
    rewrite O in H. destruct H as [_ H]. unfold height in E. rewrite H in E.
    cbn [length] in E. lia.
Qed.

End Balance.

Lemma sample_no_layout_keyword : no_layout_keyword Sample.edge_schema_keywords.
Proof.
  intros val tok [H|[H|[]]]; injection H as <- <-; split; discriminate.
Qed.

Lemma indents_match_dedents_witness :
  no_layout_keyword Sample.edge_schema_keywords /\
  (outcome (Sample.lex_text Sample.scenario) = inr tt ->
   count_kind "INDENT" (tokens_of (Sample.lex_text Sample.scenario)) =
   count_kind "DEDENT" (tokens_of (Sample.lex_text Sample.scenario))).
Proof.
  split; [exact sample_no_layout_keyword|].
  apply (indents_match_dedents Sample.edge_schema_keywords Sample.group
           sample_no_layout_keyword).
Defined.

(* ================================================================== *)
(** ** No unknown token inside a raw string *)

Lemma not_nl_neq c : Chars.not_nl c = true -> Ascii.eqb Chars.nl c = false.
Proof.
  intros H. apply Ascii.eqb_neq. intros <-. discriminate H.
Qed.

(** The lazy repetition of [.*?(?:\n|.$)] finds the end of the line. *)
Lemma raw_rest_loop e :
  forall n z,
    after z <> [] -> (remaining z <= n)%nat ->
    star_loop (rmatch Pat.dot) false
      (fun z' e' => rmatch (Alt (Chr Chars.nl) (Seq Pat.dot Eol)) z' e' accept)
      n z e <> None.
Proof.
  induction n as [|n IH]; intros [bef [|c aft]] N F; try (now elim N).
  cbn [star_loop first_some rmatch Chr Pat.dot after].
  destruct (Chars.not_nl c) eqn:C.
  - rewrite (not_nl_neq c C).
    cbn [first_some advance after before at_eol].
    destruct aft as [|c2 aft].
    + cbn. discriminate.
    + unfold at_eol. cbn [after].
      destruct (Chars.is_nl c2) eqn:C2; [cbn; discriminate|].
      cbn [first_some].
      replace (remaining _ <? remaining _)%nat with true
        by (symmetry; apply Nat.ltb_lt; cbn; lia).
      apply IH; [discriminate|]. cbn in *. lia.
  - unfold Chars.not_nl in C. apply negb_false_iff in C. apply is_nl_eq in C. subst c.
    cbn. discriminate.
Qed.

Lemma raw_rest_total z : after z <> [] -> match_at Pat.RAW_REST z <> None.
Proof.
  intros N. unfold match_at, Pat.RAW_REST. cbn [rmatch].
  pose proof (raw_rest_loop None (remaining z) z N (Nat.le_refl _)) as H.
  unfold accept in H.
  destruct (star_loop _ _ _ _ _ _); [discriminate|]. now elim H.
Qed.

(** X3. Wherever text is left, the last rule of state RAW_STRING, RAWSTRING
    with pattern [.*?(?:\n|.$)], matches; so the match of the state's
    combined pattern there is the match of one of its rules, never the
    error alternative. *)
Theorem raw_string_rules_match_everywhere (z : Cursor) :
  after z <> [] ->
  match_at Pat.RAW_REST z <> None /\
  exists rule z',
    In rule raw_string_rules /\
    first_match raw_string_rules z = Some (Some rule, z').
Proof.
  intros N. split; [now apply raw_rest_total|].
  unfold first_match.
  destruct (first_rule raw_string_rules z) as [[r z']|] eqn:F.
  - exists r, z'. split; [|reflexivity]. now apply first_rule_in in F.
  - exfalso. apply (raw_rest_total z N).
    apply (first_rule_none _ _ (MkRule "RAWSTRING" STATE_KEEP Pat.RAW_REST) F).
    cbn. auto 10.
Qed.

Lemma raw_string_rules_match_everywhere_witness :
  let z := MkCursor (rev (chars "a :=")) (chars " b c") in
  after z <> [] /\
  exists rule z', In rule raw_string_rules /\
                  first_match raw_string_rules z = Some (Some rule, z').
Proof.
  cbn zeta. split; [discriminate|].
  apply (raw_string_rules_match_everywhere
           (MkCursor (rev (chars "a :=")) (chars " b c"))).
  discriminate.
Defined.

Section UnknownToken.

Variable edge_schema_keywords : list (string * string).
Variable group : string -> re.

#[local] Abbreviation states' := (states edge_schema_keywords group).
#[local] Abbreviation lex_turn' := (lex_turn edge_schema_keywords group).
#[local] Abbreviation lex_loop' := (lex_loop edge_schema_keywords group).
#[local] Abbreviation lex' := (lex edge_schema_keywords group).
#[local] Abbreviation lex_body' := (lex_body edge_schema_keywords group).

(** A turn that reports an unknown token has done nothing else, and was
    not inside a raw string. *)
Lemma lex_turn_unknown L txt l c :
  outcome (lex_turn' L) = inl (UnknownTokenError txt l c) ->
  _state L <> STATE_RAW_STRING /\ lexer_after (lex_turn' L) = L /\
  yields (lex_turn' L) = [].
Proof.
  unfold lex_turn. run.
  destruct (states' (_state L)) as [rules|] eqn:S; [|discriminate].
  destruct (first_match rules (cursor L)) as [[[rule|] z']|] eqn:M; [| |discriminate].
  - rewrite bind_token_from_text.
    set (t := built_token _ _ _). set (L1 := moved _ _ _).
    destruct (token_generator_texts t L1) as (_ & FL & _).
    destruct (outcome (token_generator t L1)) as [e|[]] eqn:O.
    + rewrite (bind_inl _ _ _ _ O), outcome_mk. intros [= ->]. destruct FL.
    + rewrite (bind_inr _ _ _ _ O), outcome_after.
      destruct (switch_state_cursor rule (lexer_after (token_generator t L1))) as [-> _].
      discriminate.
  - intros _. unfold handle_error. run. split; [|now split].
    intros R. rewrite R in S. cbn in S. injection S as <-.
    assert (N : after (cursor L) <> []).
    { intros E. unfold first_match in M.
      destruct (first_rule raw_string_rules (cursor L)) as [[? ?]|]; [discriminate|].
      unfold match_at, Pat.err, Pat.dot in M. cbn in M. rewrite E in M. discriminate. }
    destruct (raw_rest_total (cursor L) N).
    unfold first_match in M.
    destruct (first_rule raw_string_rules (cursor L)) as [[? ?]|] eqn:F; [discriminate|].
    apply (first_rule_none _ _ (MkRule "RAWSTRING" STATE_KEEP Pat.RAW_REST) F).
    cbn. auto 10.
Qed.

Lemma lex_loop_unknown txt l c :
  forall fuel L,
    outcome (lex_loop' fuel L) = inl (UnknownTokenError txt l c) ->
    _state (lexer_after (lex_loop' fuel L)) <> STATE_RAW_STRING.
Proof.
  induction fuel as [|fuel IH]; intros L; cbn [lex_loop]; run;
    (destruct (after (cursor L)); [discriminate|]); [discriminate|].
  destruct (outcome (lex_turn' L)) as [e|[]] eqn:O.
  - rewrite (bind_inl _ _ _ _ O), outcome_mk, lexer_after_mk. intros [= ->].
    apply lex_turn_unknown in O. destruct O as (N & -> & _). exact N.
  - rewrite (bind_inr _ _ _ _ O), outcome_after, lexer_after_after. apply IH.
Qed.

(** X4. When [lex] raises [UnknownTokenError], the state it is in is
    WS_SENSITIVE or WS_INSENSITIVE: inside a raw string every character is
    taken by a rule, and the layout code raises indentation errors only. *)
Theorem unknown_token_outside_raw_string
    (inputstr : list ascii) (fname : string) (txt : list ascii) (l c : Z) :
  let r := lex' (setinputstr inputstr fname) in
  outcome r = inl (UnknownTokenError txt l c) ->
  _state (lexer_after r) = STATE_WS_SENSITIVE \/
  _state (lexer_after r) = STATE_WS_INSENSITIVE.
Proof.
  cbn zeta. intros O.
  destruct (lex_holds edge_schema_keywords group (setinputstr inputstr fname))
    as [_ [Inv _]]; [cbn; lia|now left|].
  destruct Inv as (_ & _ & V & _).
  destruct V as [V|[V|V]]; [now left|now right|]. exfalso. revert O V.
  rewrite lex_parts.
  destruct (outcome (lex_body' (setinputstr inputstr fname))) as [e|[]] eqn:B.
  - rewrite (bind_inl _ _ _ _ B), outcome_mk, lexer_after_mk. intros [= ->].
    rewrite lex_body_run in B |- *. now apply lex_loop_unknown in B.
  - rewrite (bind_inr _ _ _ _ B), outcome_after.
    destruct (get_eof_tokens_synthetic
                (lexer_after (lex_body' (setinputstr inputstr fname)))) as [_ F].
    intros O. rewrite O in F. destruct F.
Qed.

End UnknownToken.

Lemma unknown_token_outside_raw_string_witness :
  let r := Sample.lex_text "link (!" in
  outcome r = inl (UnknownTokenError (chars "!") 1 7) /\
  (_state (lexer_after r) = STATE_WS_SENSITIVE \/
   _state (lexer_after r) = STATE_WS_INSENSITIVE).
Proof.
  cbn zeta. split; [reflexivity|].
  apply (unknown_token_outside_raw_string Sample.edge_schema_keywords Sample.group
           (chars "link (!") "<string>" (chars "!") 1 7).
  reflexivity.
Defined.

(* ================================================================== *)
(** ** The remaining cases of the layout synthesizer *)

Lemma last_item_top (l : list Z) x :
  last_item l = Some x -> exists l', l = l' ++ [x].
Proof.
  destruct l as [|a m] using rev_ind; [discriminate|].
  rewrite last_item_snoc. intros [= ->]. now exists m.
Qed.

(** X5. In state WS_SENSITIVE, with no logical line open, for a token other
    than NEWLINE, WS and COMMENT whose indent (its start column - 1) is not
    below the top of the stack: when the indent is above the top it is
    pushed and an INDENT placed at the token's start is yielded before the
    token; when it is the top the token is yielded alone and the stack is
    unchanged; either way the token opens a logical line. *)
Theorem code_indent (L : Lexer) (t : Token) (last_indent : Z) :
  _state L = STATE_WS_SENSITIVE ->
  logical_line_started L = false ->
  mem (type t) layout_blind = false ->
  last_item (indent L) = Some last_indent ->
  last_indent <= column (start t) - 1 ->
  let cur_indent := column (start t) - 1 in
  let r := token_generator t L in
  outcome r = inr tt /\
  logical_line_started (lexer_after r) = true /\
  if cur_indent =? last_indent
  then tokens_of r = [t] /\ indent (lexer_after r) = indent L
  else tokens_of r = [inserted "INDENT" t pos_start L; t] /\
       indent (lexer_after r) = indent L ++ [cur_indent].
Proof.
  intros St Lls Bl Top Le. cbn zeta.
  destruct (last_item_top _ _ Top) as [l El].
  unfold token_generator. run. rewrite St, Lls, Bl. conds. run.
  rewrite (bind_indent_top _ L l last_indent El).
  destruct (Z.eqb_spec (column (start t) - 1) last_indent) as [E|N].
  - destruct (Z.gtb_spec (column (start t) - 1) last_indent); [lia|].
    destruct (Z.ltb_spec (column (start t) - 1) last_indent); [lia|].
    run. rewrite Lls. conds. run. done_run. auto.
  - destruct (Z.gtb_spec (column (start t) - 1) last_indent); [|lia].
    unfold indent_append. run. fields. rewrite Lls. conds. run. done_run. auto.
Qed.

(** X6. In state WS_SENSITIVE, a token met while a logical line is open, and
    a NEWLINE, WS or COMMENT token met anywhere, leaves the indent stack
    alone whatever its column.  A NEWLINE that ends an open logical line is
    preceded by an NL placed at its start, and closes the line; any other
    token is yielded alone, and the line stays as it is for WS and COMMENT
    (and for a NEWLINE on a line not open), open for the others. *)
Theorem code_line_goes_on (L : Lexer) (t : Token) :
  _state L = STATE_WS_SENSITIVE ->
  logical_line_started L = true \/ mem (type t) layout_blind = true ->
  let r := token_generator t L in
  let closes := logical_line_started L && String.eqb (type t) "NEWLINE" in
  outcome r = inr tt /\
  indent (lexer_after r) = indent L /\
  tokens_of r = (if closes then [inserted "NL" t pos_start L; t] else [t]) /\
  logical_line_started (lexer_after r) =
    (if closes then false
     else if mem (type t) layout_blind then logical_line_started L else true).
Proof.
  intros St H. cbn zeta.
  unfold token_generator. run. rewrite St. conds.
  assert (C : negb (logical_line_started L) && negb (mem (type t) layout_blind) = false).
  { destruct H as [-> | ->]; [reflexivity|apply andb_false_r]. }
  rewrite C. run. rewrite St. conds. rewrite andb_true_r.
  destruct (logical_line_started L && (type t =? "NEWLINE")%string).
  - run. done_run. auto.
  - destruct (mem (type t) layout_blind); conds; run; done_run; auto.
Qed.

(** X7. In state RAW_STRING, for a token met while a logical line is open,
    or a NEWLINE met anywhere, that is not a RAWLEADWS shorter than the top
    of the stack: the indent stack and the pending state are left alone; a
    NEWLINE that ends an open logical line is preceded by an NL and closes
    the line; any other token is yielded alone. *)
Theorem raw_string_goes_on (L : Lexer) (t : Token) (last_indent : Z) :
  _state L = STATE_RAW_STRING ->
  logical_line_started L = true \/ type t = "NEWLINE" ->
  last_item (indent L) = Some last_indent ->
  ~ (type t = "RAWLEADWS" /\ Z.of_nat (length (value t)) < last_indent) ->
  let r := token_generator t L in
  let closes := logical_line_started L && String.eqb (type t) "NEWLINE" in
  outcome r = inr tt /\
  indent (lexer_after r) = indent L /\
  _next_state (lexer_after r) = _next_state L /\
  tokens_of r = (if closes then [inserted "NL" t pos_start L; t] else [t]) /\
  logical_line_started (lexer_after r) =
    (if closes then false
     else if mem (type t) layout_blind then logical_line_started L else true).
Proof.
  intros St H Top N. cbn zeta.
  destruct (last_item_top _ _ Top) as [l El].
  unfold token_generator. run. rewrite St. conds. run.
  rewrite (bind_indent_top _ L l last_indent El).
  assert (C : negb (logical_line_started L) && negb (type t =? "NEWLINE")%string = false).
  { destruct H as [-> | ->]; [reflexivity|apply andb_false_r]. }
  rewrite C.
  destruct ((type t =? "RAWLEADWS")%string
            && (Z.of_nat (length (value t)) <? last_indent)) eqn:S.
  { exfalso. apply N. apply andb_prop in S as [S1 S2].
    apply String.eqb_eq in S1. split; [exact S1|lia]. }
  run. rewrite St. conds. rewrite andb_true_r.
  destruct (logical_line_started L && (type t =? "NEWLINE")%string).
  - run. done_run. auto.
  - destruct (mem (type t) layout_blind); conds; run; done_run; auto 6.
Qed.

Lemma code_indent_witness :
  let L := Sample.lexer_at STATE_WS_SENSITIVE false [0; 4] in
  let t := Sample.token_at "IDENT" "bar" 2 9 in
  tokens_of (token_generator t L) = [inserted "INDENT" t pos_start L; t] /\
  indent (lexer_after (token_generator t L)) = [0; 4; 8].
Proof.
  cbn zeta.
  pose proof (code_indent (Sample.lexer_at STATE_WS_SENSITIVE false [0; 4])
                (Sample.token_at "IDENT" "bar" 2 9) 4) as H.
  cbn zeta in H. destruct H as (_ & _ & H).
  - reflexivity.
  - reflexivity.
  - reflexivity.
  - reflexivity.
  - cbn. lia.
  - exact H.
Defined.

Lemma code_line_goes_on_witness :
  let L := Sample.lexer_at STATE_WS_SENSITIVE true [0; 4] in
  let t := Sample.token_at "NEWLINE" Sample.LF 2 9 in
  tokens_of (token_generator t L) = [inserted "NL" t pos_start L; t] /\
  logical_line_started (lexer_after (token_generator t L)) = false.
Proof.
  cbn zeta.
  pose proof (code_line_goes_on (Sample.lexer_at STATE_WS_SENSITIVE true [0; 4])
                (Sample.token_at "NEWLINE" Sample.LF 2 9)) as H.
  cbn zeta in H. destruct H as (_ & _ & T & S).
  - reflexivity.
  - now left.
  - split; [exact T|exact S].
Defined.

Lemma raw_string_goes_on_witness :
  let L := Sample.lexer_at STATE_RAW_STRING true [0; 4] in
  let t := Sample.token_at "RAWLEADWS" "      " 3 1 in
  tokens_of (token_generator t L) = [t] /\
  indent (lexer_after (token_generator t L)) = [0; 4].
Proof.
  cbn zeta.
  pose proof (raw_string_goes_on (Sample.lexer_at STATE_RAW_STRING true [0; 4])
                (Sample.token_at "RAWLEADWS" "      " 3 1) 4) as H.
  cbn zeta in H. destruct H as (_ & I & _ & T & _).
  - reflexivity.
  - now left.
  - reflexivity.
  - intros [_ F]. cbn in F. lia.
  - split; [exact T|exact I].
Defined.

(* ================================================================== *)
(** ** The pending state *)

Lemma same_states_refl L : same_states L L.
Proof. now split. Qed.

(** The unindent loop leaves the state and the pending state alone. *)
Lemma unindent_states cur t pos L0 :
  forall fuel L,
    same_states L0 L ->
    holds (fun y => same_states L0 (snd y))
          (fun (o : Exn + unit) L' => same_states L0 L')
          (unindent fuel cur t pos L).
Proof.
  induction fuel as [|fuel IH]; intros L S; cbn [unindent];
    apply holds_indent_top; try exact S; intros x;
    (destruct (x >? cur); [|now apply holds_ret]).
  - now apply holds_raise.
  - apply holds_indent_pop; [exact S|]. intros _.
    apply holds_indent_top; [exact S|]. intros y.
    destruct (y <? cur); run; [now apply holds_raise|].
    apply holds_after; [apply Forall_cons; [exact S|constructor]|].
    apply IH. exact S.
Qed.

Lemma eof_dedents_states L0 :
  forall fuel L,
    same_states L0 L ->
    holds (fun y => same_states L0 (snd y))
          (fun (o : Exn + unit) L' => same_states L0 L')
          (eof_dedents fuel L).
Proof.
  induction fuel as [|fuel IH]; intros L S; cbn [eof_dedents];
    apply holds_indent_top; try exact S; intros x;
    (destruct (x >? 0); [|now apply holds_ret]).
  - now apply holds_raise.
  - apply holds_indent_pop; [exact S|]. intros _. run.
    rewrite bind_token_from_text. run.
    apply holds_after; [apply Forall_cons; [exact S|constructor]|].
    apply IH. exact S.
Qed.

Lemma get_eof_tokens_states L :
  holds (fun y => same_states L (snd y))
        (fun (o : Exn + unit) L' => same_states L L')
        (get_eof_tokens L).
Proof.
  unfold get_eof_tokens. run. destruct (logical_line_started L); run.
  - rewrite bind_token_from_text. run.
    apply holds_after; [apply Forall_cons; [exact (same_states_refl L)|constructor]|].
    destruct (_ >? 1);
      [apply eof_dedents_states|apply holds_ret]; exact (same_states_refl L).
  - destruct (_ >? 1);
      [apply eof_dedents_states|apply holds_ret]; apply same_states_refl.
Qed.

(** The indentation part sets a pending state only where a raw string
    ends: in state RAW_STRING, for a RAWLEADWS token, which it retags. *)
Lemma indentation_part_pending t L :
  _next_state L = None ->
  holds (fun y => same_states L (snd y))
        (fun o L' =>
           _state L' = _state L /\
           match o with
           | inl _ => _next_state L' = None
           | inr t' =>
               (t' = t /\ _next_state L' = None) \/
               (t' = set_type "WS" t /\ _state L = STATE_RAW_STRING /\
                type t = "RAWLEADWS" /\
                _next_state L' = Some STATE_WS_SENSITIVE)
           end)
        (indentation_part t L).
Proof.
  intros N.
  assert (R : forall L', same_states L L' ->
              holds (fun y => same_states L (snd y))
                    (fun (o : Exn + Token) L' =>
                       _state L' = _state L /\
                       match o with
                       | inl _ => _next_state L' = None
                       | inr t' =>
                           (t' = t /\ _next_state L' = None) \/
                           (t' = set_type "WS" t /\ _state L = STATE_RAW_STRING /\
                            type t = "RAWLEADWS" /\
                            _next_state L' = Some STATE_WS_SENSITIVE)
                       end)
                    (ret t L')).
  { intros L' [S1 S2]. apply holds_ret. split; [exact S1|]. left. split; congruence. }
  assert (E : forall (e : Exn) L', same_states L L' ->
              holds (fun y => same_states L (snd y))
                    (fun (o : Exn + Token) L' =>
                       _state L' = _state L /\
                       match o with
                       | inl _ => _next_state L' = None
                       | inr t' =>
                           (t' = t /\ _next_state L' = None) \/
                           (t' = set_type "WS" t /\ _state L = STATE_RAW_STRING /\
                            type t = "RAWLEADWS" /\
                            _next_state L' = Some STATE_WS_SENSITIVE)
                       end)
                    (raise e L')).
  { intros e L' [S1 S2]. apply holds_raise. split; congruence. }
  unfold indentation_part. cbn zeta. run.
  destruct (_ && _ && _).
  - apply holds_indent_top; [split; congruence|]. intros x.
    destruct (_ >? x).
    + unfold indent_append. run.
      apply holds_after; [apply Forall_cons; [exact (same_states_refl L)|constructor]|].
      apply R. exact (same_states_refl L).
    + destruct (_ <? x); [|apply R; exact (same_states_refl L)].
      apply holds_bind.
      eapply holds_weaken; [|eapply holds_conseq;
        [apply (unindent_states _ t pos_start L _ L (same_states_refl L))|]].
      * intros y S. exact S.
      * cbn beta. intros [e|[]] L' S; [destruct S; split; congruence|].
        eapply holds_weaken; [|apply R; exact S]. auto.
  - destruct (_state L =? STATE_RAW_STRING) eqn:St; [|apply R; exact (same_states_refl L)].
    apply Z.eqb_eq in St.
    apply holds_indent_top; [split; congruence|]. intros x.
    destruct (_ && _).
    + destruct (_ && _).
      * unfold indent_append. run.
        apply holds_after; [apply Forall_cons; [exact (same_states_refl L)|constructor]|].
        apply R. exact (same_states_refl L).
      * destruct (negb _); [apply E|apply R]; exact (same_states_refl L).
    + destruct ((type t =? "RAWLEADWS")%string && _) eqn:C;
        [|apply R; exact (same_states_refl L)].
      apply andb_prop in C as [C _]. apply String.eqb_eq in C.
      run. apply holds_after; [apply Forall_cons; [exact (same_states_refl L)|constructor]|].
      apply holds_bind.
      eapply holds_weaken; [|eapply holds_conseq;
        [apply (unindent_states _ t pos_end L _ L (same_states_refl L))|]].
      * intros y S. exact S.
      * cbn beta. intros [e|[]] L' [S1 S2]; [split; congruence|].
        run. apply holds_ret. split; [exact S1|]. right. auto.
Qed.

(** The newline part leaves the state and the pending state alone; it
    yields the token, after an NL if the token is a NEWLINE. *)
Lemma newline_part_states ty t L :
  holds (fun y => same_states L (snd y) /\ (fst y = t \/ ty = "NEWLINE"))
        (fun (o : Exn + unit) L' => o = inr tt /\ same_states L L')
        (newline_part ty t L).
Proof.
  unfold newline_part. run.
  destruct (_ && _ && (ty =? "NEWLINE")%string) eqn:C.
  - apply andb_prop in C as [_ C]. apply String.eqb_eq in C.
    run. apply holds_after; [apply Forall_cons; [|constructor]|].
    + split; [exact (same_states_refl L)|now right].
    + apply holds_yield; [|split; [reflexivity|exact (same_states_refl L)]].
      split; [exact (same_states_refl L)|now left].
  - destruct (negb (mem ty layout_blind)); run;
      (apply holds_yield; [|split; [reflexivity|exact (same_states_refl L)]]);
      (split; [exact (same_states_refl L)|now left]).
Qed.

Lemma token_generator_pending t L :
  _next_state L = None ->
  holds (fun y =>
           _state (snd y) = _state L /\
           (_next_state (snd y) = None \/
            (_next_state (snd y) = Some STATE_WS_SENSITIVE /\
             _state L = STATE_RAW_STRING /\ type t = "RAWLEADWS" /\
             fst y = set_type "WS" t)))
        (fun (o : Exn + unit) L' =>
           _state L' = _state L /\
           match o with
           | inl _ => _next_state L' = None
           | inr _ =>
               _next_state L' = None \/
               (_next_state L' = Some STATE_WS_SENSITIVE /\
                _state L = STATE_RAW_STRING /\ type t = "RAWLEADWS")
           end)
        (token_generator t L).
Proof.
  intros N. rewrite token_generator_parts. apply holds_bind.
  eapply holds_weaken; [|eapply holds_conseq; [apply (indentation_part_pending t L N)|]].
  - intros y [S1 S2]. split; [exact S1|]. left. congruence.
  - cbn beta. intros [e|t'] L' [S H]; [now split|].
    eapply holds_weaken; [|eapply holds_conseq; [apply newline_part_states|]].
    + cbn beta. intros y [[Y1 Y2] Y3]. split; [congruence|].
      destruct H as [[-> H]|(-> & H1 & H2 & H3)]; [left; congruence|].
      right. split; [congruence|]. split; [exact H1|]. split; [exact H2|].
      destruct Y3 as [Y3|Y3]; [exact Y3|]. rewrite H2 in Y3. discriminate.
    + cbn beta. intros [e|[]] L'' [O [S1 S2]]; [discriminate O|].
      split; [congruence|].
      destruct H as [[_ H]|(_ & H1 & H2 & H3)]; [left; congruence|].
      right. split; [congruence|]. now split.
Qed.

Section Pending.

Variable edge_schema_keywords : list (string * string).
Variable group : string -> re.

#[local] Abbreviation states' := (states edge_schema_keywords group).
#[local] Abbreviation lex_turn' := (lex_turn edge_schema_keywords group).
#[local] Abbreviation lex_loop' := (lex_loop edge_schema_keywords group).
#[local] Abbreviation lex' := (lex edge_schema_keywords group).
#[local] Abbreviation lex_body' := (lex_body edge_schema_keywords group).

Lemma raw_rule_keeps rule :
  In rule raw_string_rules -> token rule = "RAWLEADWS" -> next_state rule = STATE_KEEP.
Proof.
  intros I T. cbn in I.
  repeat (destruct I as [<- | I]; [first [reflexivity|discriminate T]|]).
  destruct I.
Qed.

(** A turn that starts with no state pending ends with none. *)
Lemma lex_turn_pending L :
  _next_state L = None ->
  holds pending_free (fun (o : Exn + unit) L' => _next_state L' = None) (lex_turn' L).
Proof.
  intros N. unfold lex_turn. run.
  destruct (states' (_state L)) as [rules|] eqn:S; [|now apply holds_raise].
  destruct (first_match rules (cursor L)) as [[[rule|] z']|] eqn:M;
    [| unfold handle_error; run; now apply holds_raise | now apply holds_raise].
  rewrite bind_token_from_text.
  assert (I : In rule rules).
  { unfold first_match in M. destruct (first_rule rules (cursor L)) as [[r z'']|] eqn:F.
    - injection M as <- <-. now apply first_rule_in in F.
    - destruct (match_at Pat.err (cursor L)); discriminate. }
  set (t := built_token _ _ _). set (L1 := moved _ _ _).
  apply holds_bind.
  eapply holds_weaken; [|eapply holds_conseq; [apply (token_generator_pending t L1 N)|]].
  - intros y [Y1 [Y2|(Y2 & Y3 & Y4 & Y5)]]; [now left|right].
    split; [exact Y2|]. split; [congruence|]. now rewrite Y5.
  - cbn beta. intros [e|[]] L2 [S2 H]; [exact H|].
    unfold switch_state. run.
    destruct H as [H|(H1 & H2 & H3)].
    + rewrite H. destruct (_ && _); now apply holds_modify || now apply holds_ret.
    + change (_state L1) with (_state L) in H2. rewrite H2 in S. cbn in S.
      injection S as <-. rewrite (raw_rule_keeps rule I H3). conds.
      rewrite H1. run. now apply holds_ret.
Qed.

Lemma lex_loop_pending :
  forall fuel L,
    _next_state L = None ->
    holds pending_free (fun (o : Exn + unit) L' => _next_state L' = None)
          (lex_loop' fuel L).
Proof.
  induction fuel as [|fuel IH]; intros L N; cbn [lex_loop]; run;
    (destruct (after (cursor L)); [now apply holds_ret|]).
  - now apply holds_raise.
  - apply holds_bind. eapply holds_conseq; [apply (lex_turn_pending L N)|].
    cbn beta. intros [e|[]] L' H; [exact H|]. now apply IH.
Qed.

(** X8. The pending state [_next_state] is used once: a turn of the driver
    that starts with none pending ends with none pending; and for every
    lexer object, [lex] ends, normally or not, with none pending, and at
    each of its yields none is pending, but at the yield of the RAWLEADWS
    token that ends a raw string, retagged WS, which is in state RAW_STRING
    with WS_SENSITIVE pending. *)
Theorem pending_state_is_one_shot (L : Lexer) :
  (_next_state L = None -> _next_state (lexer_after (lex_turn' L)) = None) /\
  Forall pending_free (yields (lex' L)) /\
  _next_state (lexer_after (lex' L)) = None.
Proof.
  split; [intros N; apply (lex_turn_pending L N)|].
  rewrite lex_parts.
  change (holds pending_free (fun (o : Exn + unit) L' => _next_state L' = None)
            ((lex_body' ;; get_eof_tokens) L)).
  apply holds_bind. rewrite lex_body_run.
  eapply holds_conseq; [apply (lex_loop_pending _ (initialized L)); reflexivity|].
  cbn beta. intros [e|[]] L' H; [exact H|].
  eapply holds_weaken; [|eapply holds_conseq; [apply get_eof_tokens_states|]].
  - intros y [_ Y]. left. congruence.
  - cbn beta. intros o L'' [_ Y]. congruence.
Qed.

End Pending.

(** A turn inside a raw string, at the start of a line indented less than
    the string: the RAWLEADWS token ends the string.  The state is pending
    at the yield of the token and cleared when the turn ends. *)
Lemma pending_state_is_one_shot_witness :
  let L := MkLexer (MkCursor [Chars.nl] (chars "  c")) "<string>" 4 1
                   STATE_RAW_STRING None [0; 2; 4] true in
  let r := lex_turn Sample.edge_schema_keywords Sample.group L in
  _next_state L = None /\
  outcome r = inr tt /\
  map (fun y => (type (fst y), _next_state (snd y))) (yields r) =
    [("NL", None); ("DEDENT", None); ("WS", Some STATE_WS_SENSITIVE)] /\
  _state (lexer_after r) = STATE_WS_SENSITIVE /\
  _next_state (lexer_after r) = None.
Proof.
  cbn zeta. split; [reflexivity|]. split; [reflexivity|].
  split; [reflexivity|]. split; [reflexivity|].
  apply (proj1 (pending_state_is_one_shot Sample.edge_schema_keywords Sample.group
                  (MkLexer (MkCursor [Chars.nl] (chars "  c")) "<string>" 4 1
                           STATE_RAW_STRING None [0; 2; 4] true))).
  reflexivity.
Defined.

(* ================================================================== *)
(** ** Tokens and line feeds *)

Lemma in_all_ascii c : In c all_ascii.
Proof.
  unfold all_ascii. apply in_map_iff. exists (nat_of_ascii c).
  split; [apply ascii_nat_embedding|].
  apply in_seq. pose proof (nat_ascii_bounded c). lia.
Qed.

Lemma within_cls ok p c :
  within ok (Cls p) = true -> p c = true -> ok c = true.
Proof.
  cbn [within]. rewrite forallb_forall. intros H P.
  specialize (H c (in_all_ascii c)). rewrite P in H. exact H.
Qed.

(** What a pattern within [ok] matches is made of characters of [ok]. *)
Lemma rmatch_within ok r :
  within ok r = true ->
  forall z e k res,
    env_within ok e ->
    rmatch r z e k = Some res ->
    exists z' e' s,
      reaches z z' s /\ k z' e' = Some res /\
      forallb ok s = true /\ env_within ok e'.
Proof.
  assert (stay : forall z e (k : Cursor -> Env -> option MatchEnd) res,
            env_within ok e -> k z e = Some res ->
            exists z' e' s, reaches z z' s /\ k z' e' = Some res /\
                            forallb ok s = true /\ env_within ok e').
  { intros z e k res E K. exists z, e, [].
    split; [apply reaches_refl|]. split; [exact K|]. split; [reflexivity|exact E]. }
  induction r as [|p|a IHa b IHb|a IHa b IHb|g a IHa| | | |s|a IHa|a IHa|];
    intros W z e k res En H; cbn [rmatch] in H.
  - now apply (stay z e).
  - destruct (after z) as [|c s] eqn:E; [discriminate|].
    destruct (p c) eqn:P; [|discriminate].
    exists (advance z), e, [c].
    split; [now apply reaches_advance with (s := s)|].
    split; [exact H|]. split; [|exact En].
    cbn. now rewrite (within_cls ok p c W P).
  - cbn [within] in W. apply andb_prop in W as [Wa Wb].
    apply (IHa Wa) in H as (z1 & e1 & s1 & R1 & H & F1 & E1); [|exact En].
    apply (IHb Wb) in H as (z2 & e2 & s2 & R2 & H & F2 & E2); [|exact E1].
    exists z2, e2, (s1 ++ s2).
    split; [eauto using reaches_trans|]. split; [exact H|].
    split; [|exact E2]. rewrite forallb_app, F1, F2. reflexivity.
  - cbn [within] in W. apply andb_prop in W as [Wa Wb].
    unfold first_some in H.
    destruct (rmatch a z e k) eqn:E.
    + rewrite <- H in *. now apply (IHa Wa) in E.
    + now apply (IHb Wb) in H.
  - cbn [within] in W. specialize (IHa W).
    revert H. generalize (remaining z) as n. intros n. revert z e En.
    induction n as [|n IHn]; intros z e En H.
    + apply (stay z e); [exact En|].
      destruct g; cbn in H; [exact H|].
      unfold first_some in H. destruct (k z e); [exact H|discriminate].
    + cbn [star_loop] in H.
      match type of H with
      | (if g then first_some ?again _ else _) = _ =>
          assert (K : k z e = Some res \/ again = Some res)
      end.
      { destruct g; unfold first_some in H.
        - match type of H with
          | match ?x with _ => _ end = _ => destruct x eqn:X
          end; auto.
        - destruct (k z e); auto. }
      destruct K as [K|K]; [now apply (stay z e)|].
      apply IHa in K as (z1 & e1 & s1 & R1 & K & F1 & E1); [|exact En].
      destruct (remaining z1 <? remaining z)%nat; [|discriminate].
      apply IHn in K as (z2 & e2 & s2 & R2 & K & F2 & E2); [|exact E1].
      exists z2, e2, (s1 ++ s2).
      split; [eauto using reaches_trans|]. split; [exact K|].
      split; [|exact E2]. rewrite forallb_app, F1, F2. reflexivity.
  - destruct (at_bol z); [|discriminate]. now apply (stay z e).
  - destruct (at_eol z); [|discriminate]. now apply (stay z e).
  - destruct (at_word_boundary z); [|discriminate]. now apply (stay z e).
  - destruct (is_prefix (rev s) (before z)); [|discriminate]. now apply (stay z e).
  - destruct (rmatch a z e _); [discriminate|]. now apply (stay z e).
  - cbn [within] in W.
    apply (IHa W) in H as (z1 & e1 & s1 & R1 & H & F1 & E1); [|exact En].
    exists z1, (Some (consumed z z1)), s1.
    split; [exact R1|]. split; [exact H|]. split; [exact F1|].
    cbn. now rewrite (reaches_consumed _ _ _ R1).
  - destruct e as [s|]; [|discriminate].
    destruct (is_prefix s (after z)) eqn:P; [|discriminate].
    apply is_prefix_app in P as [t P].
    exists (advance_n (length s) z), (Some s), s.
    split; [now apply reaches_prefix with (t := t)|].
    split; [exact H|]. split; exact En.
Qed.

Lemma match_at_within ok r z z' :
  within ok r = true -> match_at r z = Some z' ->
  forallb ok (consumed z z') = true.
Proof.
  unfold match_at. intros W H.
  destruct (rmatch r z None _) as [[z1 e1]|] eqn:E; [|discriminate].
  cbn in H. injection H as <-.
  apply (rmatch_within ok r W) in E as (z2 & e2 & s & R & E & F & _); [|exact Logic.I].
  injection E as <- <-. now rewrite (reaches_consumed _ _ _ R).
Qed.

Lemma match_nl z z' :
  match_at (Chr Chars.nl) z = Some z' -> consumed z z' = [Chars.nl].
Proof.
  unfold match_at. cbn [rmatch Chr].
  destruct (after z) as [|c s] eqn:E; [discriminate|].
  destruct (Ascii.eqb Chars.nl c) eqn:C; [|discriminate].
  apply Ascii.eqb_eq in C. subst c. cbn. intros [= <-].
  apply reaches_consumed. now apply reaches_advance with s.
Qed.

Section Lines.

Variable edge_schema_keywords : list (string * string).
Variable group : string -> re.

#[local] Abbreviation common_rules' := (common_rules edge_schema_keywords group).

(** Every rule of the code states that the source spells out, but NEWLINE,
    has a pattern within [[^\n]]. *)
Lemma spelled_rules_on_a_line :
  forallb (fun r => within Chars.not_nl (regexp r) || String.eqb (token r) "NEWLINE")
          (common_rules [] group) = true.
Proof. vm_compute. reflexivity. Qed.

(** X9. Provided no keyword pattern can match a line feed: in the states
    WS_SENSITIVE and WS_INSENSITIVE the text a rule matches holds no line
    feed, unless the rule is NEWLINE and the text is the line feed alone.
    A STRING token, for one, never spans lines. *)
Theorem code_tokens_on_a_line (rule : Rule) (z z' : Cursor) :
  keywords_on_a_line edge_schema_keywords group ->
  In rule common_rules' ->
  match_at (regexp rule) z = Some z' ->
  let txt := consumed z z' in
  forallb Chars.not_nl txt = true \/
  (rule = MkRule "NEWLINE" STATE_KEEP (Chr Chars.nl) /\ txt = [Chars.nl]).
Proof.
  intros K I M. cbn zeta. apply in_app_or in I as [I|I].
  - left. apply keyword_rule_inv in I as (val & tok & I & ->).
    apply (match_at_within _ _ _ _ (K val tok I) M).
  - pose proof spelled_rules_on_a_line as F. rewrite forallb_forall in F.
    specialize (F rule I).
    destruct (within Chars.not_nl (regexp rule)) eqn:W.
    + left. now apply match_at_within with (regexp rule).
    + right. cbn in I.
      repeat (destruct I as [<- | I];
              [first [discriminate W | discriminate F
                     | split; [reflexivity|now apply match_nl]]|]).
      destruct I.
Qed.

End Lines.

Lemma sample_keywords_on_a_line :
  keywords_on_a_line Sample.edge_schema_keywords Sample.group.
Proof.
  intros val tok [H|[H|[]]]; injection H as <- <-; vm_compute; reflexivity.
Qed.

Lemma code_tokens_on_a_line_witness :
  let z := MkCursor [] (chars "'a' 'b'") in
  let rule := MkRule "STRING" STATE_KEEP Pat.STRING in
  match_at (regexp rule) z = Some (advance_n 3 z) /\
  forallb Chars.not_nl (consumed z (advance_n 3 z)) = true.
Proof.
  cbn zeta. split; [reflexivity|].
  destruct (code_tokens_on_a_line Sample.edge_schema_keywords Sample.group
              (MkRule "STRING" STATE_KEEP Pat.STRING)
              (MkCursor [] (chars "'a' 'b'"))
              (advance_n 3 (MkCursor [] (chars "'a' 'b'")))
              sample_keywords_on_a_line) as [H|[H _]].
  - apply in_or_app. right. cbn. auto 30.
  - reflexivity.
  - exact H.
  - discriminate H.
Defined.

Lemma rmatch_nl z e z' e' :
  rmatch (Chr Chars.nl) z e accept = Some (z', e') -> reaches z z' [Chars.nl].
Proof.
  cbn [rmatch Chr].
  destruct (after z) as [|c s] eqn:E; [discriminate|].
  destruct (Ascii.eqb Chars.nl c) eqn:C; [|discriminate].
  apply Ascii.eqb_eq in C. subst c. unfold accept. intros [= <- _].
  now apply reaches_advance with s.
Qed.

(** A match of [a b], for [a] within [ok]: a text of [ok] that [a]
    matches, then a match of [b]. *)
Lemma match_at_seq ok a b z z' :
  within ok a = true ->
  match_at (Seq a b) z = Some z' ->
  exists z1 e1 s1 e',
    reaches z z1 s1 /\ forallb ok s1 = true /\ env_within ok e1 /\
    rmatch b z1 e1 accept = Some (z', e').
Proof.
  unfold match_at. intros W H.
  destruct (rmatch (Seq a b) z None _) as [[z2 e2]|] eqn:E; [|discriminate].
  cbn in H. injection H as ->. cbn [rmatch] in E.
  apply (rmatch_within ok a W) in E as (z1 & e1 & s1 & R & E & F & En);
    [|exact Logic.I].
  exists z1, e1, s1, e2. auto.
Qed.

Lemma ends_with_nl ok a z z' :
  within ok a = true ->
  match_at (Seq a (Chr Chars.nl)) z = Some z' ->
  exists s, forallb ok s = true /\ consumed z z' = s ++ [Chars.nl].
Proof.
  intros W M. apply (match_at_seq ok) in M as (z1 & e1 & s1 & e' & R & F & _ & M);
    [|exact W].
  apply rmatch_nl in M. exists s1. split; [exact F|].
  apply reaches_consumed. eapply reaches_trans; eassumption.
Qed.

(** X10. In state RAW_STRING the text a rule matches holds at most one line
    feed, the last character, for the rules of RAWSTRING and RAWLEADWS; the
    text of a NEWLINE is white space (which may hold line feeds) followed
    by a line feed, so it ends with a line feed. *)
Theorem raw_tokens_end_the_line (rule : Rule) (z z' : Cursor) :
  In rule raw_string_rules ->
  match_at (regexp rule) z = Some z' ->
  let txt := consumed z z' in
  exists s,
    if String.eqb (token rule) "NEWLINE"
    then txt = s ++ [Chars.nl] /\ forallb Chars.is_space s = true
    else (txt = s \/ txt = s ++ [Chars.nl]) /\ forallb Chars.not_nl s = true.
Proof.
  intros I M. cbn zeta. cbn in I.
  destruct I as [<- | [<- | [<- | [<- | [<- | []]]]]]; cbn [token regexp] in *.
  - assert (M' : match_at (Seq (Star true (Cls Chars.is_space)) (Chr Chars.nl)) z
                 = Some z').
    { revert M. unfold match_at, Pat.RAW_NEWLINE. cbn [rmatch].
      destruct (is_prefix _ _); [auto|discriminate]. }
    apply (ends_with_nl Chars.is_space) in M' as (s & F & E); [|reflexivity].
    exists s.
    change (consumed z z' = s ++ [Chars.nl] /\ forallb Chars.is_space s = true).
    split; [exact E|exact F].
  - exists (consumed z z').
    change ((consumed z z' = consumed z z' \/
             consumed z z' = consumed z z' ++ [Chars.nl]) /\
            forallb Chars.not_nl (consumed z z') = true).
    split; [now left|].
    apply match_at_within with Pat.RAW_FIRST_LINE; [reflexivity|exact M].
  - assert (M' : match_at (Seq (Star true Pat.hspace) (Chr Chars.nl)) z = Some z').
    { revert M. unfold match_at, Pat.RAW_BLANK_LINE. cbn [rmatch].
      destruct (at_bol z); [auto|discriminate]. }
    apply (ends_with_nl Chars.not_nl) in M' as (s & F & E); [|reflexivity].
    exists s.
    change ((consumed z z' = s \/ consumed z z' = s ++ [Chars.nl]) /\
            forallb Chars.not_nl s = true).
    split; [now right|exact F].
  - exists (consumed z z').
    change ((consumed z z' = consumed z z' \/
             consumed z z' = consumed z z' ++ [Chars.nl]) /\
            forallb Chars.not_nl (consumed z z') = true).
    split; [now left|].
    apply match_at_within with Pat.RAWLEADWS; [reflexivity|exact M].
  - apply (match_at_seq Chars.not_nl) in M as (z1 & e1 & s1 & e' & R & F & En & M);
      [|reflexivity].
    cbn [rmatch] in M. unfold first_some in M.
    destruct (rmatch (Chr Chars.nl) z1 e1 accept) as [[z2 e2]|] eqn:N.
    + injection M as -> ->. apply rmatch_nl in N.
      exists s1.
      change ((consumed z z' = s1 \/ consumed z z' = s1 ++ [Chars.nl]) /\
              forallb Chars.not_nl s1 = true).
      split; [right|exact F].
      apply reaches_consumed. eapply reaches_trans; eassumption.
    + change (rmatch (Seq Pat.dot Eol) z1 e1 accept = Some (z', e')) in M.
      apply (rmatch_within Chars.not_nl) in M as (z2 & e2 & s2 & R2 & A & F2 & _);
        [|reflexivity|].
      * injection A as <- _. exists (s1 ++ s2).
        change ((consumed z z2 = s1 ++ s2 \/
                 consumed z z2 = (s1 ++ s2) ++ [Chars.nl]) /\
                forallb Chars.not_nl (s1 ++ s2) = true).
        split.
        -- left. apply reaches_consumed. eapply reaches_trans; eassumption.
        -- rewrite forallb_app, F, F2. reflexivity.
      * exact En.
Qed.

Lemma raw_tokens_end_the_line_witness :
  let z := MkCursor (rev (chars "a :="))
                    (chars " " ++ [Chars.nl; Chars.nl] ++ chars "x") in
  let rule := MkRule "NEWLINE" STATE_KEEP Pat.RAW_NEWLINE in
  In rule raw_string_rules /\
  match_at (regexp rule) z = Some (advance_n 3 z) /\
  consumed z (advance_n 3 z) = chars " " ++ [Chars.nl; Chars.nl] /\
  exists s, consumed z (advance_n 3 z) = s ++ [Chars.nl] /\
            forallb Chars.is_space s = true.
Proof.
  cbn zeta. split; [cbn; auto|]. split; [reflexivity|]. split; [reflexivity|].
  apply (raw_tokens_end_the_line
           (MkRule "NEWLINE" STATE_KEEP Pat.RAW_NEWLINE)
           (MkCursor (rev (chars "a :="))
                     (chars " " ++ [Chars.nl; Chars.nl] ++ chars "x"))).
  - cbn. auto.
  - reflexivity.
Defined.

(* ================================================================== *)
(** ** The order of the rules *)

Lemma first_rule_skip a b z :
  first_rule a z = None -> first_rule (a ++ b) z = first_rule b z.
Proof.
  induction a as [|r a IH]; [reflexivity|]. cbn.
  destruct (match_at (regexp r) z); [discriminate|apply IH].
Qed.

Lemma is_code_eq n c : Chars.is_code n c = true -> c = ascii_of_N n.
Proof.
  unfold Chars.is_code, Chars.code. intros H. apply N.eqb_eq in H.
  rewrite <- H. symmetry. apply ascii_N_embedding.
Qed.

Section RuleOrder.

Variable edge_schema_keywords : list (string * string).
Variable group : string -> re.

#[local] Abbreviation common_rules' := (common_rules edge_schema_keywords group).
#[local] Abbreviation keyword_rules' := (keyword_rules edge_schema_keywords group).

Lemma no_keyword_rule z :
  (forall val tok, In (val, tok) edge_schema_keywords -> match_at (group val) z = None) ->
  first_rule keyword_rules' z = None.
Proof.
  unfold keyword_rules. induction edge_schema_keywords as [|[val tok] kws IH];
    intros H; [reflexivity|].
  cbn. rewrite (H val tok (or_introl eq_refl)). apply IH.
  intros val' tok' I. apply (H val' tok'). now right.
Qed.

(** X11. The rules are tried in the order of the table, not by the length
    of what they match: where the text goes on with two characters out of
    [1] and [*] and no keyword matches, the match of the combined pattern
    of the code states is the MAPPING rule's, of these two characters; so
    it is for the text [11], which the later rule ICONST matches too when
    no digit, [e], [E] or [.] follows. *)
Theorem mapping_before_numbers (z : Cursor) (c1 c2 : ascii) (rest : list ascii) :
  after z = c1 :: c2 :: rest ->
  Chars.is_one_or_star c1 = true ->
  Chars.is_one_or_star c2 = true ->
  (forall val tok, In (val, tok) edge_schema_keywords -> match_at (group val) z = None) ->
  first_match common_rules' z =
    Some (Some (MkRule "MAPPING" STATE_KEEP
                  (Seq (Cls Chars.is_one_or_star) (Cls Chars.is_one_or_star))),
          advance (advance z)) /\
  (c1 = "1"%char -> c2 = "1"%char ->
   match rest with [] => true | c3 :: _ => negb (Chars.is_eE_dot_digit c3) end = true ->
   match_at Pat.ICONST z = Some (advance (advance z))).
Proof.
  intros E C1 C2 K. split; [|clear C1 C2 K; intros -> -> N].
  2:{ destruct z as [bef aft]. cbn in E. subst aft.
      destruct rest as [|c3 rest]; [reflexivity|].
      apply negb_true_iff in N. pose proof N as N'.
      unfold Chars.is_eE_dot_digit in N'.
      apply orb_false_elim in N' as [_ D].
      unfold match_at, Pat.ICONST, Plus, Pat.digit. cbn. rewrite D. cbn.
      rewrite N, Nat.leb_refl. reflexivity. }
  unfold first_match, common_rules.
  rewrite (first_rule_skip _ _ _ (no_keyword_rule z K)).
  destruct z as [bef aft]. cbn in E. subst aft.
  unfold Chars.is_one_or_star in C1. apply orb_prop in C1.
  destruct C1 as [C1|C1]; apply is_code_eq in C1; subst c1;
    cbn; unfold match_at; cbn; rewrite C2; reflexivity.
Qed.

End RuleOrder.

Lemma mapping_before_numbers_witness :
  let z := MkCursor [] (chars "11 ") in
  first_match (common_rules Sample.edge_schema_keywords Sample.group) z =
    Some (Some (MkRule "MAPPING" STATE_KEEP
                  (Seq (Cls Chars.is_one_or_star) (Cls Chars.is_one_or_star))),
          advance (advance z)) /\
  match_at Pat.ICONST z = Some (advance (advance z)).
Proof.
  cbn zeta.
  destruct (mapping_before_numbers Sample.edge_schema_keywords Sample.group
              (MkCursor [] (chars "11 ")) "1"%char "1"%char (chars " ")) as [H1 H2].
  - reflexivity.
  - reflexivity.
  - reflexivity.
  - intros val tok [H|[H|[]]]; injection H as <- <-; reflexivity.
  - split; [exact H1|]. apply H2; reflexivity.
Defined.

(** ** A text with nothing left *)

Section Exhausted.

Variable edge_schema_keywords : list (string * string).
Variable group : string -> re.

#[local] Abbreviation lex' := (lex edge_schema_keywords group).

(** X12. On a lexer object with no text left, as for the empty text, [lex]
    ends normally without a turn of its loop, having yielded one token, an
    NL at the position of the lexer object: the first statements of [lex]
    open a logical line, which [get_eof_tokens] closes.  The stack is left
    as [[0]], the cursor and the state as they were. *)
Theorem lex_of_nothing (L : Lexer) :
  after (cursor L) = [] ->
  let r := lex' L in
  outcome r = inr tt /\
  tokens_of r = [eof_token "NL" L] /\
  indent (lexer_after r) = [0] /\
  cursor (lexer_after r) = cursor L /\
  _state (lexer_after r) = _state L.
Proof.
  intros E. cbn zeta. rewrite lex_parts.
  assert (R : lex_body edge_schema_keywords group L = ret tt (initialized L)).
  { rewrite lex_body_run.
    destruct (remaining (cursor L)); cbn [lex_loop]; run;
      change (cursor (initialized L)) with (cursor L); now rewrite E. }
  rewrite bind_inr with (a := tt); rewrite R; [|reflexivity].
  rewrite after_no_yields, lexer_after_ret. unfold get_eof_tokens. run.
  change (logical_line_started (initialized L)) with true. cbv iota. run.
  rewrite bind_token_from_text. run. done_run. cbn.
  unfold eof_token, built_token, next_position. cbn.
  rewrite Z.add_0_r. auto.
Qed.

End Exhausted.

Lemma lex_of_nothing_witness :
  tokens_of (Sample.lex_text "") =
    [MkToken [] "NL" [] (MkPoint 1 1) (MkPoint 1 1) "<string>"].
Proof.
  apply (lex_of_nothing Sample.edge_schema_keywords Sample.group
           (setinputstr [] "<string>")).
  reflexivity.
Defined.

(* ================================================================== *)
(** ** The end of the text on any stack *)

(** The loop of [get_eof_tokens] pops the positive levels at the top of the
    stack; it ends at a level that is not positive, and in an IndexError
    when there is none. *)
Lemma eof_dedents_any_stack (base : list Z) :
  (base = [] \/ exists b x, base = b ++ [x] /\ x <= 0) ->
  forall high L fuel,
    indent L = base ++ high -> Forall (fun y => 0 < y) high ->
    (length high <= fuel)%nat ->
    let r := eof_dedents fuel L in
    outcome r = match base with [] => inl IndexError | _ => inr tt end /\
    tokens_of r = repeat (eof_token "DEDENT" L) (length high) /\
    lexer_after r = set_indent base L.
Proof.
  intros B. induction high as [|y h IH] using rev_ind; intros L fuel E P F; cbn zeta.
  - rewrite app_nil_r in E. rewrite <- E, set_indent_same.
    destruct B as [-> | (b & x & -> & X)].
    + assert (R : indent_top L = raise IndexError L)
        by (unfold indent_top; now rewrite bind_get, E).
      destruct fuel; cbn [eof_dedents];
        (rewrite bind_inl with (e := IndexError); rewrite R; [|reflexivity]);
        rewrite E; auto.
    + destruct fuel; cbn [eof_dedents]; rewrite (bind_indent_top _ L b x E);
        (destruct (Z.gtb_spec x 0); [lia|]); rewrite E;
        destruct b; auto.
  - rewrite app_assoc in E. apply Forall_app in P as [P Y].
    apply Forall_inv in Y.
    rewrite length_app in F. cbn in F. destruct fuel as [|fuel]; [lia|].
    cbn [eof_dedents]. rewrite (bind_indent_top _ L _ y E).
    destruct (Z.gtb_spec y 0); [|lia].
    rewrite (bind_indent_pop _ L _ y E). run.
    rewrite bind_eof_token by now right. run.
    destruct (IH (set_indent (base ++ h) L) fuel eq_refl P) as (O & T & A); [lia|].
    done_run. rewrite O, T, A. fields.
    split; [reflexivity|]. split; [|reflexivity].
    rewrite length_app. cbn [length map fst app].
    replace (length h + 1)%nat with (S (length h)) by lia. reflexivity.
Qed.

(** X13. [get_eof_tokens] on any indent stack.  With at most one level it
    yields no DEDENT and leaves the stack alone, whatever the level.  With
    more, its loop pops the positive levels at the top, one DEDENT each, and
    ends at the topmost level that is not positive; when every level is
    positive it pops them all and raises IndexError, after the DEDENT
    tokens.  Before these, an NL if a logical line is open. *)
Theorem eof_tokens_on_any_stack (L : Lexer) (base high : list Z) :
  indent L = base ++ high ->
  Forall (fun y => 0 < y) high ->
  base = [] \/ (exists b x, base = b ++ [x] /\ x <= 0) ->
  let r := get_eof_tokens L in
  let nl := if logical_line_started L then [eof_token "NL" L] else [] in
  if (1 <? length (indent L))%nat
  then outcome r = match base with [] => inl IndexError | _ => inr tt end /\
       tokens_of r = nl ++ repeat (eof_token "DEDENT" L) (length high) /\
       indent (lexer_after r) = base
  else outcome r = inr tt /\ tokens_of r = nl /\
       indent (lexer_after r) = indent L.
Proof.
  intros E P B. cbn zeta. unfold get_eof_tokens. run.
  assert (G : (Z.of_nat (length (indent L)) >? 1) = (1 <? length (indent L))%nat).
  { destruct (Nat.ltb_spec 1 (length (indent L))), (Z.gtb_spec (Z.of_nat (length (indent L))) 1);
      try reflexivity; lia. }
  assert (F : (length high <= length (indent L))%nat)
    by (rewrite E, length_app; lia).
  destruct (eof_dedents_any_stack base B high L (length (indent L)) E P F)
    as (O & T & A).
  destruct (logical_line_started L); run.
  - rewrite bind_eof_token by now left. run. rewrite G.
    destruct (1 <? length (indent L))%nat; done_run.
    + rewrite O, T, A. auto.
    + auto.
  - rewrite G. destruct (1 <? length (indent L))%nat; done_run.
    + rewrite O, T, A. auto.
    + auto.
Qed.

Lemma eof_tokens_on_any_stack_witness :
  let L := Sample.lexer_at STATE_WS_SENSITIVE false [3; 5] in
  outcome (get_eof_tokens L) = inl IndexError /\
  tokens_of (get_eof_tokens L) = [eof_token "DEDENT" L; eof_token "DEDENT" L].
Proof.
  cbn zeta.
  pose proof (eof_tokens_on_any_stack
                (Sample.lexer_at STATE_WS_SENSITIVE false [3; 5]) [] [3; 5]) as H.
  cbn zeta in H. destruct H as (O & T & _).
  - reflexivity.
  - repeat constructor.
  - now left.
  - split; [exact O|exact T].
Defined.

(* ================================================================== *)
(** ** What the synthesizer puts before a token *)

(** An unindent loop yields DEDENT tokens and nothing else, and changes
    nothing but the stack. *)
Lemma unindent_shape cur t pos L0 :
  forall fuel L,
    (exists l, L = set_indent l L0) ->
    let r := unindent fuel cur t pos L in
    exists n l', tokens_of r = repeat (inserted "DEDENT" t pos L0) n /\
                 lexer_after r = set_indent l' L0.
Proof.
  induction fuel as [|fuel IH]; intros L [l ->]; cbn zeta; cbn [unindent].
  - destruct (indent_top_cases (set_indent l L0)) as [[_ R]|(l1 & x & _ & R)].
    + rewrite bind_inl with (e := IndexError); rewrite R; [|reflexivity].
      exists O, l. split; reflexivity.
    + rewrite bind_inr with (a := x); rewrite R; [|reflexivity].
      rewrite after_no_yields, ?lexer_after_ret. destruct (x >? cur); exists O, l; split; reflexivity.
  - destruct (indent_top_cases (set_indent l L0)) as [[_ R]|(l1 & x & _ & R)].
    + rewrite bind_inl with (e := IndexError); rewrite R; [|reflexivity].
      exists O, l. split; reflexivity.
    + rewrite bind_inr with (a := x); rewrite R; [|reflexivity].
      rewrite after_no_yields, ?lexer_after_ret.
      destruct (x >? cur); [|exists O, l; split; reflexivity].
      destruct (indent_pop_cases (set_indent l L0)) as [[_ P]|[_ P]].
      * rewrite bind_inl with (e := IndexError); rewrite P; [|reflexivity].
        exists O, l. split; reflexivity.
      * rewrite bind_inr with (a := tt); rewrite P; [|reflexivity].
        rewrite after_no_yields, ?lexer_after_modify.
        fields. set (l2 := removelast l).
        change (set_indent l2 (set_indent l L0)) with (set_indent l2 L0).
        destruct (indent_top_cases (set_indent l2 L0)) as [[_ R2]|(l3 & y & _ & R2)].
        -- rewrite bind_inl with (e := IndexError); rewrite R2; [|reflexivity].
           exists O, l2. split; reflexivity.
        -- rewrite bind_inr with (a := y); rewrite R2; [|reflexivity].
           rewrite after_no_yields, ?lexer_after_ret.
           destruct (y <? cur); run; [exists O, l2; split; reflexivity|].
           destruct (IH (set_indent l2 L0) (ex_intro _ l2 eq_refl)) as (n & l' & T & A).
           exists (S n), l'. done_run. rewrite T. split; [reflexivity|exact A].
Qed.

Lemma newline_part_tokens ty t L :
  let r := newline_part ty t L in
  outcome r = inr tt /\
  tokens_of r =
    (if logical_line_started L
        && ((_state L =? STATE_WS_SENSITIVE) || (_state L =? STATE_RAW_STRING))
        && String.eqb ty "NEWLINE"
     then [inserted "NL" t pos_start L] else []) ++ [t].
Proof.
  cbn zeta. unfold newline_part. run.
  destruct (_ && _ && _).
  - run. done_run. auto.
  - destruct (negb (mem ty layout_blind)); run; done_run; auto.
Qed.

(** What the indentation part yields, and what it leaves of the lexer
    object for the newline part. *)
Lemma indentation_part_shape t L :
  let r := indentation_part t L in
  exists pre,
    tokens_of r = pre /\
    (pre = [] \/
     ((logical_line_started L = false \/ String.eqb (type t) "NEWLINE" = false) /\
      ((exists pos, pre = [inserted "INDENT" t pos L]) \/
       (exists n, pre = repeat (inserted "DEDENT" t pos_start L) n) \/
       (exists n, pre = inserted "NL" t pos_start L
                        :: repeat (inserted "DEDENT" t pos_end L) n)))) /\
    logical_line_started (lexer_after r) = logical_line_started L /\
    _state (lexer_after r) = _state L /\
    filename (lexer_after r) = filename L /\
    match outcome r with
    | inl _ => True
    | inr t' => t' = t \/ (t' = set_type "WS" t /\ type t = "RAWLEADWS")
    end.
Proof.
  cbn zeta.
  assert (N : forall (o : Exn + Token) L',
            logical_line_started L' = logical_line_started L ->
            _state L' = _state L -> filename L' = filename L ->
            match o with
            | inl _ => True
            | inr t' => t' = t \/ (t' = set_type "WS" t /\ type t = "RAWLEADWS")
            end ->
            exists pre,
              tokens_of (MkRun [] o L') = pre /\
              (pre = [] \/
               ((logical_line_started L = false \/ String.eqb (type t) "NEWLINE" = false) /\
                ((exists pos, pre = [inserted "INDENT" t pos L]) \/
                 (exists n, pre = repeat (inserted "DEDENT" t pos_start L) n) \/
                 (exists n, pre = inserted "NL" t pos_start L
                                  :: repeat (inserted "DEDENT" t pos_end L) n)))) /\
              logical_line_started (lexer_after (MkRun [] o L')) = logical_line_started L /\
              _state (lexer_after (MkRun [] o L')) = _state L /\
              filename (lexer_after (MkRun [] o L')) = filename L /\
              match outcome (MkRun [] o L') with
              | inl _ => True
              | inr t' => t' = t \/ (t' = set_type "WS" t /\ type t = "RAWLEADWS")
              end).
  { intros o L' H1 H2 H3 H4. exists []. cbn. auto 10. }
  unfold indentation_part. cbn zeta. run.
  destruct (_ && _ && _) eqn:C1.
  - apply andb_prop in C1 as [C1 _]. apply andb_prop in C1 as [_ C1].
    apply negb_true_iff in C1.
    destruct (indent_top_cases L) as [[_ R]|(l1 & x & _ & R)].
    + rewrite bind_inl with (e := IndexError); rewrite R; [|reflexivity].
      (apply N; auto).
    + rewrite bind_inr with (a := x); rewrite R; [|reflexivity].
      rewrite after_no_yields, lexer_after_ret.
      destruct (_ >? x).
      * unfold indent_append. run. done_run.
        exists [inserted "INDENT" t pos_start L]. split; [reflexivity|].
        split; [right; split; [now left|left; now exists pos_start]|]. auto.
      * destruct (_ <? x); [|(apply N; auto)].
        destruct (unindent_shape (column (start t) - 1) t pos_start L
                    (length (indent L)) L) as (n & l' & T & A).
        { exists (indent L). symmetry. apply set_indent_same. }
        cbn zeta in T, A.
        exists (repeat (inserted "DEDENT" t pos_start L) n).
        destruct (outcome (unindent (length (indent L)) (column (start t) - 1)
                             t pos_start L)) as [e|[]] eqn:O.
        -- rewrite (bind_inl _ _ _ _ O). done_run. rewrite T, A. fields.
           split; [reflexivity|]. split; [right; split; [now left|right; left; now exists n]|].
           auto.
        -- rewrite (bind_inr _ _ _ _ O). done_run. rewrite T, A. fields.
           split; [apply app_nil_r|].
           split; [right; split; [now left|right; left; now exists n]|].
           auto.
  - clear C1. destruct (_state L =? STATE_RAW_STRING); [|(apply N; auto)].
    destruct (indent_top_cases L) as [[_ R]|(l1 & x & _ & R)].
    + rewrite bind_inl with (e := IndexError); rewrite R; [|reflexivity].
      (apply N; auto).
    + rewrite bind_inr with (a := x); rewrite R; [|reflexivity].
      rewrite after_no_yields, lexer_after_ret.
      destruct (negb (logical_line_started L) && _) eqn:C2.
      * apply andb_prop in C2 as [C2 _]. apply negb_true_iff in C2.
        destruct (_ && _).
        -- unfold indent_append. run. done_run.
           exists [inserted "INDENT" t pos_end L]. split; [reflexivity|].
           split; [right; split; [now left|left; now exists pos_end]|]. auto.
        -- destruct (negb _); (apply N; auto).
      * destruct ((type t =? "RAWLEADWS")%string && _) eqn:C3; [|(apply N; auto)].
        apply andb_prop in C3 as [C3 _]. apply String.eqb_eq in C3.
        assert (NN : String.eqb (type t) "NEWLINE" = false) by now rewrite C3.
        run.
        destruct (unindent_shape (Z.of_nat (length (value t))) t pos_end L
                    (length (indent L)) L) as (n & l' & T & A).
        { exists (indent L). symmetry. apply set_indent_same. }
        cbn zeta in T, A.
        exists (inserted "NL" t pos_start L
                :: repeat (inserted "DEDENT" t pos_end L) n).
        destruct (outcome (unindent (length (indent L)) (Z.of_nat (length (value t)))
                             t pos_end L)) as [e|[]] eqn:O.
        -- rewrite (bind_inl _ _ _ _ O). done_run. rewrite T, A. fields.
           split; [reflexivity|].
           split; [right; split; [now right|right; right; now exists n]|].
           auto.
        -- rewrite (bind_inr _ _ _ _ O). run. done_run. rewrite T, A. fields.
           split; [cbn; now rewrite app_nil_r|].
           split; [right; split; [now right|right; right; now exists n]|].
           auto 10.
Qed.

(** X15. Whatever the lexer object and the token, what [token_generator]
    yields before the token is nothing, or one NL, or one INDENT, or some
    DEDENT tokens, or one NL and then some DEDENT tokens: never an INDENT
    together with a DEDENT or an NL, never two INDENT tokens.  When it ends
    normally the token comes last, as it was given or, only for a RAWLEADWS
    token, retagged WS; when it raises, nothing follows what it has put
    before. *)
Theorem token_generator_shape (t : Token) (L : Lexer) :
  let r := token_generator t L in
  exists pre,
    layout_before t L pre /\
    match outcome r with
    | inr _ => tokens_of r = pre ++ [t] \/
               (tokens_of r = pre ++ [set_type "WS" t] /\ type t = "RAWLEADWS")
    | inl _ => tokens_of r = pre
    end.
Proof.
  cbn zeta. rewrite token_generator_parts.
  destruct (indentation_part_shape t L) as (pre & T & S & Hl & Hs & Hf & Ho).
  cbn zeta in *.
  destruct (outcome (indentation_part t L)) as [e|t'] eqn:O.
  - rewrite (bind_inl _ _ _ _ O). done_run. exists pre. split; [|exact T].
    unfold layout_before. destruct S as [S|[_ [S|[S|S]]]]; auto.
  - rewrite (bind_inr _ _ _ _ O). done_run.
    destruct (newline_part_tokens (type t) t' (lexer_after (indentation_part t L)))
      as [O' T'].
    cbn zeta in O', T'. rewrite O', T', T, Hl, Hs. clear O' T'.
    assert (I : inserted "NL" t' pos_start (lexer_after (indentation_part t L))
                = inserted "NL" t pos_start L).
    { unfold inserted. rewrite Hf. destruct Ho as [-> | [-> _]]; reflexivity. }
    rewrite I.
    assert (E : forall pre', pre' ++ [t'] = pre' ++ [t] \/
                             (pre' ++ [t'] = pre' ++ [set_type "WS" t] /\
                              type t = "RAWLEADWS")).
    { intros pre'. destruct Ho as [-> | [-> H]]; auto. }
    destruct S as [-> | [C S]].
    + destruct (_ && _ && _).
      * exists [inserted "NL" t pos_start L]. split; [right; now left|].
        apply (E [inserted "NL" t pos_start L]).
      * exists []. split; [now left|]. apply (E []).
    + assert (F : logical_line_started L
                  && ((_state L =? STATE_WS_SENSITIVE) || (_state L =? STATE_RAW_STRING))
                  && (type t =? "NEWLINE")%string = false).
      { destruct C as [-> | ->]; [reflexivity|apply andb_false_r]. }
      rewrite F. exists pre. split; [|apply (E pre)].
      unfold layout_before. destruct S as [S|[S|S]]; auto.
Qed.

(* ================================================================== *)
(** * [is_container_type] *)

Module TypeutilsTypesSpec.
Import Typeutils TypeutilsTypes.

Section Classes.

Variable Class : Type.
Variable class_eqb : Class -> Class -> bool.
Variable issubclass : Class -> Class -> bool.
Variables Container Iterable str bytes bytearray memoryview : Class.
Variable Obj : Type.
Variable as_class : Obj -> option Class.
Variable Inst : Type.
Variable class_of : Inst -> Class.

Hypothesis class_eqb_eq : forall a b, class_eqb a b = true -> a = b.

#[local] Abbreviation is_container_type' :=
  (is_container_type Class class_eqb issubclass Container str bytes
                     bytearray memoryview Obj as_class).
#[local] Abbreviation is_container' :=
  (is_container Class class_eqb issubclass Container Iterable str bytes
                bytearray memoryview Inst class_of).
#[local] Abbreviation caches_agree' :=
  (caches_agree Class issubclass Container Iterable str bytes bytearray memoryview).
#[local] Abbreviation body' :=
  (_is_container_type_body Class issubclass Container str bytes bytearray memoryview).

Lemma _is_container_type_agrees cls (st : Caches Class) :
  caches_agree' st ->
  let r := _is_container_type Class class_eqb issubclass Container
             str bytes bytearray memoryview cls st in
  fst r = body' cls /\ caches_agree' (snd r) /\
  iterable_cache Class (snd r) = iterable_cache Class st.
Proof.
  intros [Ac Ai]. cbn zeta. unfold _is_container_type.
  destruct (TypeutilsSpec.lru_cache_agrees Class class_eqb class_eqb_eq
              1024 body' cls _ Ac) as [V A].
  destruct (lru_cache Class class_eqb 1024 _ cls (container_cache Class st)) as [v c].
  cbn in *. repeat split; auto.
Qed.

(** X14. Whatever the caches remember of earlier calls, [is_container_type]
    is True exactly of a class that is a subclass of Container and of none
    of str, bytes, bytearray and memoryview, whether it is iterable or not;
    of an object that is not a class it is False without a call of the
    cached function, the caches staying as they are.  It never touches the
    cache of [_is_iterable_type], and the caches keep agreeing with the
    functions they wrap.  It is True of the class of every object of which
    [is_container] is True. *)
Theorem is_container_type_spec (type_ : Obj) (st : Caches Class) :
  caches_agree' st ->
  let r := is_container_type' type_ st in
  (fst r = true <->
   exists cls,
     as_class type_ = Some cls /\
     issubclass cls Container = true /\
     issubclass cls str = false /\ issubclass cls bytes = false /\
     issubclass cls bytearray = false /\ issubclass cls memoryview = false) /\
  (as_class type_ = None -> r = (false, st)) /\
  iterable_cache Class (snd r) = iterable_cache Class st /\
  caches_agree' (snd r) /\
  (forall obj,
     as_class type_ = Some (class_of obj) ->
     fst (is_container' obj st) = true -> fst r = true).
Proof.
  intros Ag. cbn zeta. unfold is_container_type.
  destruct (as_class type_) as [cls|] eqn:E.
  - destruct (_is_container_type_agrees cls st Ag) as (V & A & I).
    cbn zeta in V, A, I. rewrite V.
    split; [|split; [discriminate|split; [exact I|split; [exact A|]]]].
    + unfold _is_container_type_body, issubclass_any. cbn [existsb]. split.
      * intros H. exists cls. split; [reflexivity|].
        apply andb_prop in H as [H1 H2]. apply negb_true_iff in H2.
        repeat (apply orb_false_elim in H2 as [? H2]). auto 10.
      * intros (cls' & [= <-] & H1 & H2 & H3 & H4 & H5).
        now rewrite H1, H2, H3, H4, H5.
    + intros obj [= ->] H. revert H V. unfold is_container.
      destruct (_is_container_type Class class_eqb issubclass Container
                  str bytes bytearray memoryview (class_of obj) st) as [a st1].
      cbn [fst]. intros H <-. destruct a; [reflexivity|discriminate H].
  - split; [|split; [reflexivity|split; [reflexivity|split; [exact Ag|]]]].
    + split; [discriminate|]. intros (cls & [=] & _).
    + discriminate.
Qed.

End Classes.

End TypeutilsTypesSpec.

Lemma is_container_type_spec_witness :
  let st := Typeutils.no_calls_yet in
  fst (TypeutilsTypes.py_is_container_type
         (TypeutilsTypes.py_class Typeutils.c_dict) st) = true /\
  TypeutilsTypes.py_is_container_type
    (TypeutilsTypes.py_instance (Typeutils.c_dict, "{}")) st = (false, st).
Proof.
  cbn zeta.
  assert (Ag : Typeutils.caches_agree Typeutils.PyClass Typeutils.py_issubclass
                 Typeutils.c_Container Typeutils.c_Iterable Typeutils.c_str
                 Typeutils.c_bytes Typeutils.c_bytearray Typeutils.c_memoryview
                 Typeutils.no_calls_yet)
    by (split; intros k v []).
  assert (Eq : forall a b, Typeutils.pyclass_eqb a b = true -> a = b)
    by (intros [] []; (reflexivity || discriminate)).
  split.
  - apply (TypeutilsTypesSpec.is_container_type_spec
             Typeutils.PyClass Typeutils.pyclass_eqb Typeutils.py_issubclass
             Typeutils.c_Container Typeutils.c_Iterable Typeutils.c_str
             Typeutils.c_bytes Typeutils.c_bytearray Typeutils.c_memoryview
             TypeutilsTypes.PyValue TypeutilsTypes.py_as_class Typeutils.PyObj fst
             Eq (TypeutilsTypes.py_class Typeutils.c_dict) Typeutils.no_calls_yet Ag).
    exists Typeutils.c_dict. repeat split.
  - apply (TypeutilsTypesSpec.is_container_type_spec
             Typeutils.PyClass Typeutils.pyclass_eqb Typeutils.py_issubclass
             Typeutils.c_Container Typeutils.c_Iterable Typeutils.c_str
             Typeutils.c_bytes Typeutils.c_bytearray Typeutils.c_memoryview
             TypeutilsTypes.PyValue TypeutilsTypes.py_as_class Typeutils.PyObj fst
             Eq (TypeutilsTypes.py_instance (Typeutils.c_dict, "{}"))
             Typeutils.no_calls_yet Ag).
    reflexivity.
Defined.
